(** * The curve engine of cpp-core/src/CurveEngine.cpp

    A shallow embedding of the curve/LUT/apply core: the spline, linear,
    Bezier and parametric LUT generators, the per-pixel LUT applicator and
    the C entry points [curve_create], [curve_generate_lut] and
    [curve_apply_to_image]; with them the CPU fallbacks of
    cpp-core/src/ai/DirectMLProcessor.cpp (the fallback curve and the image
    brightness) and the scale schedule of the super resolution of
    cpp-core/src/ai/ProfessionalAIModels.cpp.

    The C++ code computes on [double].  The embedding is written once over
    an interface [DoubleOps] of the operations the code uses, and that
    interface has two instances:

    - [b64_ops]: IEEE 754 binary64 with round-to-nearest-even, built on the
      executable specification [SpecFloat] of the standard library.  It is
      used to run the code bit for bit on concrete inputs.
    - [exact_ops]: exact rational arithmetic in which a division by zero
      yields an undefined value that every later operation propagates and
      on which every comparison is false (as for a NaN).  It is used for
      the statements that quantify over all inputs and speak about the
      mathematical value of a result.

    Statements that do not depend on arithmetic are proved for every
    instance at once. *)

From stdpp Require Import base list sorting.
From Stdlib Require Import ZArith QArith Qround Lia Lqa.
From Stdlib Require Import Floats.SpecFloat.

Local Open Scope Z_scope.

(** ** Arithmetic on [double] *)

Class DoubleOps (D : Type) := {
  of_Z  : Z -> D;            (* conversion int -> double, integer literals *)
  dhalf : D;                 (* the literal 0.5 *)
  dadd  : D -> D -> D;
  dsub  : D -> D -> D;
  dmul  : D -> D -> D;
  ddiv  : D -> D -> D;
  dltb  : D -> D -> bool;    (* a < b *)
  dleb  : D -> D -> bool;    (* a <= b *)
  dtrunc : D -> Z            (* static_cast<int>(double): toward zero *)
}.

Declare Scope double_scope.
Delimit Scope double_scope with dbl.
Infix "+" := dadd : double_scope.
Infix "-" := dsub : double_scope.
Infix "*" := dmul : double_scope.
Infix "/" := ddiv : double_scope.
Infix "<?" := dltb : double_scope.
Infix "<=?" := dleb : double_scope.
Notation "a >=? b" := (dleb b a) (at level 70, only parsing) : double_scope.

#[global] Instance double_inhabited `{DoubleOps D} : Inhabited D | 0 :=
  populate (of_Z 0).

(** *** IEEE 754 binary64 *)

Definition f64 := spec_float.

Definition b64_of_Z (z : Z) : f64 := binary_normalize 53 1024 z 0 false.

(** Conversion to an integer truncates toward zero.  It is undefined in C++
    for a NaN, an infinity or a value outside the range of the target type;
    the model returns 0 for a NaN or an infinity and the unbounded integer
    for a finite value. *)
Definition b64_trunc (f : f64) : Z :=
  match f with
  | S754_finite s m e =>
      let v := Z.shiftl (Z.pos m) e in if s then (- v)%Z else v
  | _ => 0%Z
  end.

#[global] Instance b64_ops : DoubleOps f64 := {|
  of_Z := b64_of_Z;
  dhalf := S754_finite false 4503599627370496 (-53);
  dadd := SFadd 53 1024;
  dsub := SFsub 53 1024;
  dmul := SFmul 53 1024;
  ddiv := SFdiv 53 1024;
  dltb := SFltb;
  dleb := SFleb;
  dtrunc := b64_trunc
|}.

(** *** Exact arithmetic with an undefined value *)

Abbreviation exact := (option Q) (only parsing).

Definition ex_lift2 (f : Q -> Q -> Q) (a b : exact) : exact :=
  match a, b with
  | Some p, Some q => Some (f p q)
  | _, _ => None
  end.

Definition ex_div (a b : exact) : exact :=
  match a, b with
  | Some p, Some q => if Qeq_bool q 0 then None else Some (p / q)%Q
  | _, _ => None
  end.

Definition ex_ltb (a b : exact) : bool :=
  match a, b with
  | Some p, Some q => negb (Qle_bool q p)
  | _, _ => false
  end.

Definition ex_leb (a b : exact) : bool :=
  match a, b with
  | Some p, Some q => Qle_bool p q
  | _, _ => false
  end.

Definition ex_trunc (a : exact) : Z :=
  match a with
  | Some q => Z.quot (Qnum q) (Z.pos (Qden q))
  | None => 0%Z
  end.

#[global] Instance exact_ops : DoubleOps exact := {|
  of_Z := fun z => Some (inject_Z z);
  dhalf := Some (1 # 2)%Q;
  dadd := ex_lift2 Qplus;
  dsub := ex_lift2 Qminus;
  dmul := ex_lift2 Qmult;
  ddiv := ex_div;
  dltb := ex_ltb;
  dleb := ex_leb;
  dtrunc := ex_trunc
|}.

(** [val d q]: the exact value [d] is defined and denotes the rational [q]. *)
Definition val (d : exact) (q : Q) : Prop :=
  exists p, d = Some p /\ (p == q)%Q.

(** ** Data model (include/AdvancedCurveProcessor.h) *)

Definition DEFAULT_LUT_SIZE : Z := 4096.

Inductive CurveResult :=
  | CURVE_SUCCESS
  | CURVE_ERROR_INVALID_PARAMS
  | CURVE_ERROR_OUT_OF_MEMORY
  | CURVE_ERROR_NOT_INITIALIZED
  | CURVE_ERROR_GPU_NOT_AVAILABLE
  | CURVE_ERROR_ML_NOT_AVAILABLE
  | CURVE_ERROR_UNSUPPORTED_FORMAT.

(** [CurveType] is a C enum: any [int] can be passed through the C API, so
    the type is the underlying integer and the enumerators are constants. *)
Definition CurveType := Z.
Definition CURVE_TYPE_LINEAR : CurveType := 0.
Definition CURVE_TYPE_CUBIC_SPLINE : CurveType := 1.
Definition CURVE_TYPE_BEZIER : CurveType := 2.
Definition CURVE_TYPE_PARAMETRIC : CurveType := 3.
Definition CURVE_TYPE_AI_OPTIMIZED : CurveType := 4.

Definition enumerated_type (t : CurveType) : Prop :=
  t = CURVE_TYPE_LINEAR \/ t = CURVE_TYPE_CUBIC_SPLINE \/
  t = CURVE_TYPE_BEZIER \/ t = CURVE_TYPE_PARAMETRIC \/
  t = CURVE_TYPE_AI_OPTIMIZED.

Inductive ColorChannel :=
  | CHANNEL_RGB
  | CHANNEL_RED
  | CHANNEL_GREEN
  | CHANNEL_BLUE
  | CHANNEL_LUMINANCE
  | CHANNEL_LAB_L
  | CHANNEL_LAB_A
  | CHANNEL_LAB_B.

Record CurvePoint (D : Type) := mkPoint { cp_x : D; cp_y : D }.
Arguments mkPoint {D} _ _.
Arguments cp_x {D} _.
Arguments cp_y {D} _.

Record CurveData (D : Type) := mkCurve {
  points : list (CurvePoint D);
  point_count : Z;
  type : CurveType;
  channel : ColorChannel;
  gamma : D;
  black_point : D;
  white_point : D;
  lut_size : Z
}.
Arguments mkCurve {D} _ _ _ _ _ _ _ _.
Arguments points {D} _.
Arguments point_count {D} _.
Arguments type {D} _.
Arguments channel {D} _.
Arguments gamma {D} _.
Arguments black_point {D} _.
Arguments white_point {D} _.
Arguments lut_size {D} _.

(** An image: [data] is the byte buffer behind the [void*], one [uint8_t]
    (a [Z] in 0..255) per sample, addressed by byte offset. *)
Record ImageData := mkImage {
  data : list Z;
  width : Z;
  height : Z;
  channels : Z;
  stride : Z
}.

Record ProcessingOptions := mkOptions {
  use_gpu : bool;
  thread_count : Z
}.

Record SplineSegment (D : Type) := mkSegment {
  seg_a : D; seg_b : D; seg_c : D; seg_d : D;
  x_start : D; x_end : D
}.
Arguments mkSegment {D} _ _ _ _ _ _.
Arguments seg_a {D} _.
Arguments seg_b {D} _.
Arguments seg_c {D} _.
Arguments seg_d {D} _.
Arguments x_start {D} _.
Arguments x_end {D} _.

#[global] Instance point_inhabited `{DoubleOps D} : Inhabited (CurvePoint D) :=
  populate (mkPoint (of_Z 0) (of_Z 0)).

#[global] Instance segment_inhabited `{DoubleOps D}
  : Inhabited (SplineSegment D) :=
  populate (mkSegment (of_Z 0) (of_Z 0) (of_Z 0) (of_Z 0) (of_Z 0) (of_Z 0)).

(** ** The engine, over any arithmetic *)

Section Engine.
Context {D : Type} `{DoubleOps D}.

(** [std::pow] of <cmath>, which the code calls and does not define. *)
Variable pow : D -> D -> D.

Local Open Scope double_scope.

(** [std::clamp(v, lo, hi)] is [(v < lo) ? lo : (hi < v) ? hi : v]. *)
Definition clamp (v lo hi : D) : D :=
  if v <? lo then lo else if hi <? v then hi else v.

(** The loop [for (i = 0; i < size; ++i) lut[i] = f(i)] on a vector. *)
Definition fill (f : nat -> D) (lut : list D) : list D :=
  foldl (fun lut i => <[i := f i]> lut) lut (seq 0 (length lut)).

(** *** CubicSplineInterpolator *)

(** The working arrays of [calculateSplineSegments]. *)
Definition spline_h (pts : list (CurvePoint D)) : list D :=
  let n := length pts in
  foldl (fun h i => <[i := cp_x (pts !!! S i) - cp_x (pts !!! i)]> h)
        (replicate (n - 1) (of_Z 0)) (seq 0 (n - 1)).

Definition spline_alpha (pts : list (CurvePoint D)) (h : list D) : list D :=
  let n := length pts in
  foldl (fun alpha i =>
           <[i := (of_Z 3 / (h !!! i)) *
                    (cp_y (pts !!! S i) - cp_y (pts !!! i)) -
                  (of_Z 3 / (h !!! (i - 1)%nat)) *
                    (cp_y (pts !!! i) - cp_y (pts !!! (i - 1)%nat))]> alpha)
        (replicate (n - 1) (of_Z 0)) (seq 1 (n - 2)).

(** Forward elimination: the arrays [l], [mu] and [z].  [forward_step] is
    the body of the loop over [i]. *)
Definition forward_step (pts : list (CurvePoint D)) (h alpha : list D)
           (st : list D * list D * list D) (i : nat)
  : list D * list D * list D :=
  let '(l, mu, z) := st in
  let l := <[i := of_Z 2 *
                    (cp_x (pts !!! S i) - cp_x (pts !!! (i - 1)%nat)) -
                  (h !!! (i - 1)%nat) * (mu !!! (i - 1)%nat)]> l in
  let mu := <[i := (h !!! i) / (l !!! i)]> mu in
  let z := <[i := ((alpha !!! i) -
                   (h !!! (i - 1)%nat) * (z !!! (i - 1)%nat)) /
                  (l !!! i)]> z in
  (l, mu, z).

Definition spline_forward (pts : list (CurvePoint D)) (h alpha : list D)
  : list D * list D * list D :=
  let n := length pts in
  let l0 := <[0%nat := of_Z 1]> (replicate n (of_Z 0)) in
  let mu0 := <[0%nat := of_Z 0]> (replicate n (of_Z 0)) in
  let z0 := <[0%nat := of_Z 0]> (replicate n (of_Z 0)) in
  let '(l, mu, z) :=
    foldl (forward_step pts h alpha) (l0, mu0, z0) (seq 1 (n - 2)) in
  (<[(n - 1)%nat := of_Z 1]> l, mu, <[(n - 1)%nat := of_Z 0]> z).

(** Back substitution: the arrays [c], [b] and [d].  [back_step] is the body
    of the loop over [j]. *)
Definition back_step (pts : list (CurvePoint D)) (h mu z : list D)
           (st : list D * list D * list D) (j : nat)
  : list D * list D * list D :=
  let '(c, b, d) := st in
  let c := <[j := (z !!! j) - (mu !!! j) * (c !!! S j)]> c in
  let b := <[j := (cp_y (pts !!! S j) - cp_y (pts !!! j)) / (h !!! j) -
                  (h !!! j) * ((c !!! S j) + of_Z 2 * (c !!! j)) /
                    of_Z 3]> b in
  let d := <[j := ((c !!! S j) - (c !!! j)) / (of_Z 3 * (h !!! j))]> d in
  (c, b, d).

Definition spline_back (pts : list (CurvePoint D)) (h mu z : list D)
  : list D * list D * list D :=
  let n := length pts in
  let c0 := <[(n - 1)%nat := of_Z 0]> (replicate n (of_Z 0)) in
  foldl (back_step pts h mu z)
        (c0, replicate (n - 1) (of_Z 0), replicate (n - 1) (of_Z 0))
        (rev (seq 0 (n - 1))).

Definition calculateSplineSegments (pts : list (CurvePoint D))
  : list (SplineSegment D) :=
  let n := length pts in
  if (n <? 2)%nat then [] else
  let h := spline_h pts in
  let alpha := spline_alpha pts h in
  let '(l, mu, z) := spline_forward pts h alpha in
  let '(c, b, d) := spline_back pts h mu z in
  map (fun i => mkSegment (cp_y (pts !!! i)) (b !!! i) (c !!! i) (d !!! i)
                          (cp_x (pts !!! i)) (cp_x (pts !!! S i)))
      (seq 0 (n - 1)).

(** The divisors of [calculateSplineSegments], in the order of the source:
    [h[i]] and [h[i-1]] in the alpha loop, [l[i]] twice in the forward
    loop, [h[j]] and [3.0 * h[j]] in the back substitution ([/ 3.0] has a
    constant divisor and is left out). *)
Definition spline_divisors (pts : list (CurvePoint D)) : list D :=
  let n := length pts in
  if (n <? 2)%nat then [] else
  let h := spline_h pts in
  let alpha := spline_alpha pts h in
  let '(l, mu, z) := spline_forward pts h alpha in
  flat_map (fun i => [h !!! i; h !!! (i - 1)%nat]) (seq 1 (n - 2)) ++
  flat_map (fun i => [l !!! i; l !!! i]) (seq 1 (n - 2)) ++
  flat_map (fun j => [h !!! j; of_Z 3 * (h !!! j)]) (rev (seq 0 (n - 1))).

(** The cubic of a segment at offset [dx] from its start. *)
Definition seg_poly (s : SplineSegment D) (dx : D) : D :=
  seg_a s + seg_b s * dx + seg_c s * dx * dx + seg_d s * dx * dx * dx.

(** [std::lower_bound(first, last, x, comp)] with
    [comp(seg, val) = seg.x_end < val]: the bisection of the standard
    library, as an index into [segs]; [len] elements remain from [first]. *)
Fixpoint lower_bound_from (fuel : nat) (segs : list (SplineSegment D))
         (x : D) (first len : nat) : nat :=
  match fuel with
  | O => first
  | S fuel' =>
      if (len =? 0)%nat then first else
      let half := (len / 2)%nat in
      let middle := (first + half)%nat in
      if x_end (segs !!! middle) <? x
      then lower_bound_from fuel' segs x (S middle) (len - half - 1)%nat
      else lower_bound_from fuel' segs x first half
  end.

Definition lower_bound (segs : list (SplineSegment D)) (x : D) : nat :=
  lower_bound_from (S (length segs)) segs x 0%nat (length segs).

Definition evaluate (segments : list (SplineSegment D)) (x : D) : D :=
  match segments with
  | [] => x
  | s0 :: _ =>
      if x <=? x_start s0 then seg_a s0 else
      let last := List.last segments s0 in
      if x >=? x_end last then
        let dx := x_end last - x_start last in
        seg_poly last dx
      else
        let it := lower_bound segments x in
        let it := if (it =? length segments)%nat
                  then (length segments - 1)%nat else it in
        let segment := segments !!! it in
        let dx := x - x_start segment in
        seg_poly segment dx
  end.

(** *** LookupTableGenerator *)

(** The scan [for (i = 0; i < points.size() - 1; ++i)] of
    [linearInterpolate] over the adjacent pairs, with its fallback. *)
Fixpoint linear_scan (pts : list (CurvePoint D)) (x : D) : D :=
  match pts with
  | p :: (q :: _) as rest =>
      if (x >=? cp_x p) && (x <=? cp_x q) then
        let t := (x - cp_x p) / (cp_x q - cp_x p) in
        cp_y p + t * (cp_y q - cp_y p)
      else linear_scan rest x
  | _ => x
  end.

Definition linearInterpolate (pts : list (CurvePoint D)) (x : D) : D :=
  match pts with
  | [] => x
  | [p] => cp_y p
  | p0 :: _ =>
      if x <=? cp_x p0 then cp_y p0 else
      let back := List.last pts p0 in
      if x >=? cp_x back then cp_y back else
      linear_scan pts x
  end.

(** De Casteljau, in place on the copy [temp]. *)
Definition evaluateBezier (pts : list (CurvePoint D)) (t : D) : D :=
  match pts with
  | [] => t
  | _ =>
      let n := length pts in
      let temp :=
        foldl (fun temp i =>
                 foldl (fun temp j =>
                          let pj := temp !!! j in
                          let pj1 := temp !!! S j in
                          <[j := mkPoint
                                   ((of_Z 1 - t) * cp_x pj + t * cp_x pj1)
                                   ((of_Z 1 - t) * cp_y pj + t * cp_y pj1)]>
                            temp)
                       temp (seq 0 (n - i)))
              pts (seq 1 (n - 1)) in
      clamp (cp_y (temp !!! 0%nat)) (of_Z 0) (of_Z 1)
  end.

(** The abscissa of sample [i] in a table of [size] entries:
    [static_cast<double>(i) / (size - 1)]. *)
Definition sample_x (size i : nat) : D :=
  of_Z (Z.of_nat i) / of_Z (Z.of_nat size - 1).

Definition generateLinearLUT (pts : list (CurvePoint D)) (lut : list D)
  : list D :=
  let size := length lut in
  fill (fun i => linearInterpolate pts (sample_x size i)) lut.

Definition generateCubicSplineLUT (pts : list (CurvePoint D)) (lut : list D)
  : list D :=
  let segments := calculateSplineSegments pts in
  let size := length lut in
  fill (fun i => clamp (evaluate segments (sample_x size i))
                       (of_Z 0) (of_Z 1)) lut.

Definition generateBezierLUT (pts : list (CurvePoint D)) (lut : list D)
  : list D :=
  let size := length lut in
  fill (fun i => evaluateBezier pts (sample_x size i)) lut.

Definition parametric_gamma (pts : list (CurvePoint D)) : D :=
  if (2 <? length pts)%nat
  then cp_y (pts !!! 1%nat) / cp_x (pts !!! 1%nat)
  else of_Z 1.

(** The divisor of [generateParametricLUT]. *)
Definition parametric_divisors (pts : list (CurvePoint D)) : list D :=
  if (2 <? length pts)%nat then [cp_x (pts !!! 1%nat)] else [].

Definition parametric_lift (pts : list (CurvePoint D)) : D :=
  match pts with
  | [] => of_Z 0
  | p0 :: _ => cp_y p0
  end.

Definition parametric_gain (pts : list (CurvePoint D)) : D :=
  match pts with
  | p0 :: _ :: _ => cp_y (List.last pts p0)
  | _ => of_Z 1
  end.

Definition generateParametricLUT (pts : list (CurvePoint D)) (lut : list D)
  : list D :=
  let size := length lut in
  let gamma := parametric_gamma pts in
  let lift := parametric_lift pts in
  let gain := parametric_gain pts in
  fill (fun i =>
          let x := sample_x size i in
          let y := lift + (gain - lift) * pow x gamma in
          clamp y (of_Z 0) (of_Z 1)) lut.

(** Both preprocessor branches of the source call the spline generator. *)
Definition generateAIOptimizedLUT (pts : list (CurvePoint D)) (lut : list D)
  : list D :=
  generateCubicSplineLUT pts lut.

(** [std::vector<double> lut(size)] holds [size] zeros; with a negative
    [size] its constructor throws, which is [None] here.  The switch has
    no default case: another type leaves the zeros. *)
Definition generateOptimizedLUT (pts : list (CurvePoint D))
           (ty : CurveType) (size : Z) : option (list D) :=
  if (size <? 0)%Z then None else
  let lut := replicate (Z.to_nat size) (of_Z 0) in
  Some (if (ty =? CURVE_TYPE_LINEAR)%Z then generateLinearLUT pts lut
        else if (ty =? CURVE_TYPE_CUBIC_SPLINE)%Z
             then generateCubicSplineLUT pts lut
        else if (ty =? CURVE_TYPE_BEZIER)%Z then generateBezierLUT pts lut
        else if (ty =? CURVE_TYPE_PARAMETRIC)%Z
             then generateParametricLUT pts lut
        else if (ty =? CURVE_TYPE_AI_OPTIMIZED)%Z
             then generateAIOptimizedLUT pts lut
        else lut).

(** *** ImageCurveProcessor *)

Definition getChannelIndex (channel : ColorChannel) : Z :=
  match channel with
  | CHANNEL_RED => 0
  | CHANNEL_GREEN => 1
  | CHANNEL_BLUE => 2
  | _ => -1
  end%Z.

(** Byte reads and writes at an offset of a buffer.  An access outside the
    buffer is undefined in C++; here a read gives 0 and a write is lost. *)
Definition load (buf : list Z) (off : Z) : Z :=
  default 0%Z (buf !! Z.to_nat off).
Definition store (buf : list Z) (off : Z) (v : Z) : list Z :=
  <[Z.to_nat off := v]> buf.

(** The integers [0 .. n-1] of a counting loop. *)
Definition zrange (n : Z) : list Z := map Z.of_nat (seq 0 (Z.to_nat n)).

(** The LUT lookup with interpolation that both branches of [applyLUTCPU]
    perform on one sample; [lut_size] is a [size_t], so [lut_size - 1]
    wraps around for an empty table. *)
Definition lut_value (lut : list D) (value : Z) : Z :=
  let lut_size := Z.of_nat (length lut) in
  let lut_scale := of_Z ((lut_size - 1) mod 2 ^ 64)%Z in
  let normalized := of_Z value / of_Z 255 in
  let lut_pos := normalized * lut_scale in
  let lut_index := dtrunc lut_pos in
  let frac := lut_pos - of_Z lut_index in
  let result :=
    if (lut_index >=? lut_size - 1)%Z
    then lut !!! Z.to_nat ((lut_size - 1) mod 2 ^ 64)%Z
    else (lut !!! Z.to_nat lut_index) +
         frac * ((lut !!! Z.to_nat (lut_index + 1)%Z) -
                 (lut !!! Z.to_nat lut_index)) in
  Z.modulo (dtrunc (clamp (result * of_Z 255 + dhalf) (of_Z 0) (of_Z 255)))
           256.

(** The body of the loop over [x] for the row at byte offsets [src_row]
    (input) and [dst_row] (output). *)
Definition apply_pixel (lut : list D) (input : ImageData)
           (channel : ColorChannel) (src_row dst_row : Z)
           (out : list Z) (x : Z) : list Z :=
  let channels := channels input in
  let src := data input in
  let pixel_offset := (x * channels)%Z in
  let out :=
    match channel with
    | CHANNEL_RGB | CHANNEL_LUMINANCE =>
        foldl (fun out c =>
                 let value := load src (src_row + pixel_offset + c)%Z in
                 store out (dst_row + pixel_offset + c)%Z
                       (lut_value lut value))
              out (zrange (Z.min 3 channels))
    | _ =>
        let channel_index := getChannelIndex channel in
        if ((0 <=? channel_index) && (channel_index <? channels))%Z then
          let value :=
            load src (src_row + pixel_offset + channel_index)%Z in
          let out := store out (dst_row + pixel_offset + channel_index)%Z
                           (lut_value lut value) in
          foldl (fun out c =>
                   if (c =? channel_index)%Z then out else
                   store out (dst_row + pixel_offset + c)%Z
                         (load src (src_row + pixel_offset + c)%Z))
                out (zrange channels)
        else out
    end in
  if (channels =? 4)%Z
  then store out (dst_row + pixel_offset + 3)%Z
             (load src (src_row + pixel_offset + 3)%Z)
  else out.

(** The rows are independent, so the parallel loop over [y] is run in
    order.  The result is the output image with its buffer rewritten. *)
Definition applyLUTCPU (lut : list D) (input output : ImageData)
           (channel : ColorChannel) (options : ProcessingOptions)
  : ImageData :=
  let out :=
    foldl (fun out y =>
             let src_row := (y * stride input)%Z in
             let dst_row := (y * stride output)%Z in
             foldl (apply_pixel lut input channel src_row dst_row)
                   out (zrange (width input)))
          (data output) (zrange (height input)) in
  mkImage out (width output) (height output) (channels output)
          (stride output).

(** Neither OPENCL_ENABLED nor DIRECTML_ENABLED is defined. *)
Definition isGPUAvailable : bool := false.

Definition applyLUTGPU (lut : list D) (input output : ImageData)
           (channel : ColorChannel) (options : ProcessingOptions)
  : ImageData :=
  applyLUTCPU lut input output channel options.

Definition applyLUTToImage (lut : list D) (input output : ImageData)
           (channel : ColorChannel) (options : ProcessingOptions)
  : ImageData :=
  if use_gpu options && isGPUAvailable
  then applyLUTGPU lut input output channel options
  else applyLUTCPU lut input output channel options.

(** *** Global state and the C API *)

(** The process-wide flag [g_initialized].  The timing statistics of
    [g_perf_stats] are clock readings and are not modelled. *)
Record EngineState := mkState { g_initialized : bool }.

Definition curve_initialize (st : EngineState) : CurveResult * EngineState :=
  if g_initialized st then (CURVE_SUCCESS, st)
  else (CURVE_SUCCESS, mkState true).

Definition curve_cleanup (st : EngineState) : EngineState :=
  if negb (g_initialized st) then st else mkState false.

(** [std::sort(first, last, comp)] of <algorithm>, which the code calls and
    does not define. *)
Variable std_sort :
  (CurvePoint D -> CurvePoint D -> bool) ->
  list (CurvePoint D) -> list (CurvePoint D).

(** The copy loop of [curve_create]: the first [point_count] points, each
    coordinate clamped. *)
Definition clamp_points (pts : list (CurvePoint D)) (point_count : Z)
  : list (CurvePoint D) :=
  map (fun p => mkPoint (clamp (cp_x p) (of_Z 0) (of_Z 1))
                        (clamp (cp_y p) (of_Z 0) (of_Z 1)))
      (take (Z.to_nat point_count) pts).

(** [pts] is [None] for a null [points]; [out_curve] says whether the out
    pointer is non-null.  The second component is what is stored in
    [*out_curve].  Allocation is taken to succeed. *)
Definition curve_create (st : EngineState)
           (pts : option (list (CurvePoint D))) (point_count : Z)
           (ty : CurveType) (out_curve : bool)
  : CurveResult * option (CurveData D) :=
  match pts with
  | None => (CURVE_ERROR_INVALID_PARAMS, None)
  | Some pts =>
      if (point_count <? 2)%Z || negb out_curve
      then (CURVE_ERROR_INVALID_PARAMS, None)
      else if negb (g_initialized st)
      then (CURVE_ERROR_NOT_INITIALIZED, None)
      else
        let copied := clamp_points pts point_count in
        let sorted := std_sort (fun a b => cp_x a <? cp_x b) copied in
        (CURVE_SUCCESS,
         Some (mkCurve sorted point_count ty CHANNEL_RGB
                       (of_Z 1) (of_Z 0) (of_Z 1) DEFAULT_LUT_SIZE))
  end.

(** [ProcessingOptions{}]: every field zero. *)
Definition default_options : ProcessingOptions := mkOptions false 0.

(** The points handed to the generator:
    [std::vector<CurvePoint>(curve->points, curve->points + point_count)]. *)
Definition curve_points (curve : CurveData D) : list (CurvePoint D) :=
  take (Z.to_nat (point_count curve)) (points curve).

(** [None] stands for a null pointer argument.  The second component is
    the output image after the call ([None] when it was not touched). *)
Definition curve_apply_to_image (st : EngineState)
           (curve : option (CurveData D)) (input output : option ImageData)
           (options : option ProcessingOptions)
  : CurveResult * option ImageData :=
  match curve, input, output with
  | Some curve, Some input, Some output =>
      if negb (g_initialized st) then (CURVE_ERROR_NOT_INITIALIZED, None)
      else
        match generateOptimizedLUT (curve_points curve) (type curve)
                                   (lut_size curve) with
        | None => (CURVE_ERROR_INVALID_PARAMS, None)
        | Some lut =>
            let opts := match options with
                        | Some o => o
                        | None => default_options
                        end in
            (CURVE_SUCCESS,
             Some (applyLUTToImage lut input output (channel curve) opts))
        end
  | _, _, _ => (CURVE_ERROR_INVALID_PARAMS, None)
  end.

(** [lut] and [lut_size] say whether the out pointers are non-null.  The
    second component is what is stored in [*lut] and [*lut_size]. *)
Definition curve_generate_lut (st : EngineState)
           (curve : option (CurveData D)) (lut lut_size_out : bool)
  : CurveResult * option (list D * Z) :=
  match curve with
  | None => (CURVE_ERROR_INVALID_PARAMS, None)
  | Some curve =>
      if negb lut || negb lut_size_out
      then (CURVE_ERROR_INVALID_PARAMS, None)
      else
        match generateOptimizedLUT (curve_points curve) (type curve)
                                   (lut_size curve) with
        | None => (CURVE_ERROR_INVALID_PARAMS, None)
        | Some generated_lut =>
            (CURVE_SUCCESS,
             Some (generated_lut, Z.of_nat (length generated_lut)))
        end
  end.

End Engine.

Arguments EngineState : clear implicits.

(** Two insertion sorts that meet the contract of [std::sort] (the result is
    a permutation of the range, ordered by the comparison).  The first keeps
    elements with equal keys in their order; the second reverses them. *)
Fixpoint sort_insert {A} (lt : A -> A -> bool) (a : A) (l : list A) : list A :=
  match l with
  | [] => [a]
  | b :: l' => if lt b a then b :: sort_insert lt a l' else a :: l
  end.

Definition insertion_sort {A} (lt : A -> A -> bool) (l : list A) : list A :=
  foldr (sort_insert lt) [] l.



(** Decimal literals of the source in binary64: the quotient of two small
    integers is rounded to nearest, as the literal is. *)
Definition b64_frac (p q : Z) : f64 := SFdiv 53 1024 (b64_of_Z p) (b64_of_Z q).

(** ** The CPU fallbacks of cpp-core/src/ai/DirectMLProcessor.cpp

    DIRECTML_ENABLED is not defined (as for [isGPUAvailable] above). *)

Record AISuggestionParams (D : Type) := mkParams {
  contrast_boost : D;
  shadow_recovery : D;
  highlight_recovery : D;
  auto_color : bool;
  film_emulation : bool
}.
Arguments mkParams {D} _ _ _ _ _.
Arguments contrast_boost {D} _.
Arguments shadow_recovery {D} _.
Arguments highlight_recovery {D} _.
Arguments auto_color {D} _.
Arguments film_emulation {D} _.

Section DirectML.
Context {D : Type} `{DoubleOps D}.
Local Open Scope double_scope.

(** A decimal literal, as the quotient of two integers: in binary64 the
    quotient is rounded to nearest, as the literal is. *)
Definition decimal (p q : Z) : D := of_Z p / of_Z q.

(** [CurveData curve = {}] leaves [gamma], [black_point], [white_point]
    and [lut_size] at zero. *)
Definition generateFallbackCurve (image : ImageData)
           (params : AISuggestionParams D) : CurveData D :=
  let points :=
    if dhalf <? contrast_boost params then
      [mkPoint (of_Z 0) (of_Z 0);
       mkPoint (decimal 25 100) (decimal 2 10);
       mkPoint (decimal 75 100) (decimal 8 10);
       mkPoint (of_Z 1) (of_Z 1)]
    else if film_emulation params then
      [mkPoint (of_Z 0) (decimal 5 100);
       mkPoint dhalf dhalf;
       mkPoint (of_Z 1) (decimal 95 100)]
    else
      [mkPoint (of_Z 0) (of_Z 0); mkPoint (of_Z 1) (of_Z 1)] in
  mkCurve points (Z.of_nat (length points)) CURVE_TYPE_CUBIC_SPLINE
          CHANNEL_RGB (of_Z 0) (of_Z 0) (of_Z 0) 0.

Definition generateIntelligentCurve (image : ImageData)
           (params : AISuggestionParams D) : CurveData D :=
  generateFallbackCurve image params.

Definition optimizeCurve (input_curve : CurveData D)
           (reference_image : ImageData) : CurveData D :=
  input_curve.

End DirectML.

Inductive ImageFormat :=
  | FORMAT_RGB8
  | FORMAT_RGBA8
  | FORMAT_RGB16
  | FORMAT_RGBA16
  | FORMAT_RGB32F
  | FORMAT_RGBA32F.

(** The C struct [ImageData] with all its fields, for the code that checks
    [data] for null and reads [format] (the engine above does neither):
    [image_data] is [None] for a null pointer. *)
Record FormattedImage := mkFormatted {
  image_data : option (list Z);
  image_width : Z;
  image_height : Z;
  image_channels : Z;
  image_format : ImageFormat;
  image_stride : Z
}.

Section ImageStatistics.
Context {D : Type} `{DoubleOps D}.
Local Open Scope double_scope.

(** The luma of the pixel that starts at offset [i]. *)
Definition luma (pixels : list Z) (i : Z) : D :=
  decimal 299 1000 * of_Z (load pixels i) +
  decimal 587 1000 * of_Z (load pixels (i + 1)) +
  decimal 114 1000 * of_Z (load pixels (i + 2)).

(** The loop [for (i = 0; i < bound; i += step) sum += luma] from the
    state [(i, sum)]; [None] when the fuel runs out. *)
Fixpoint brightness_loop (fuel : nat) (pixels : list Z) (i bound step : Z)
         (sum : D) : option D :=
  match fuel with
  | O => None
  | S fuel' =>
      if (i <? bound)%Z
      then brightness_loop fuel' pixels (i + step) bound step
                           (sum + luma pixels i)
      else Some sum
  end.

Definition calculateImageBrightness (fuel : nat) (image : FormattedImage)
  : option D :=
  match image_data image, image_format image with
  | Some pixels, FORMAT_RGB8 =>
      let pixel_count := (image_width image * image_height image)%Z in
      match brightness_loop fuel pixels 0
                            (pixel_count * image_channels image)
                            (image_channels image) (of_Z 0) with
      | Some sum => Some (sum / (of_Z pixel_count * of_Z 255))
      | None => None
      end
  | _, _ => Some dhalf
  end.
End ImageStatistics.

(** ** The scale schedule of cpp-core/src/ai/ProfessionalAIModels.cpp *)

Section SuperResolution.

(** [cv::Mat] and the OpenCV calls of the loop body, which the code calls
    and does not define: [cv::resize] by a factor with INTER_CUBIC,
    [cv::GaussianBlur] with sigma 1.5, [cv::subtract], and
    [cv::addWeighted] with the weights 1.0 and 0.5. *)
Variable Mat : Type.
Variable cv_resize : Mat -> Z -> Mat.
Variable cv_GaussianBlur : Mat -> Mat.
Variable cv_subtract : Mat -> Mat -> Mat.
Variable cv_addWeighted : Mat -> Mat -> Mat.

(** The body of the loop after [next_scale] is chosen. *)
Definition enhance_step (current : Mat) (next_scale : Z) : Mat :=
  let upscaled := cv_resize current next_scale in
  let gaussian := cv_GaussianBlur upscaled in
  let unsharp_mask := cv_subtract upscaled gaussian in
  cv_addWeighted upscaled unsharp_mask.

(** [while (current_scale < scale_factor)] from the state
    [(current, current_scale)]; [None] when the fuel runs out.  On
    positive [int]s the division truncates. *)
Fixpoint upscale_loop (fuel : nat) (current : Mat)
         (current_scale scale_factor : Z) : option Mat :=
  match fuel with
  | O => None
  | S fuel' =>
      if current_scale <? scale_factor then
        let next_scale := Z.min 2 (Z.quot scale_factor current_scale) in
        upscale_loop fuel' (enhance_step current next_scale)
                     (current_scale * next_scale) scale_factor
      else Some current
  end.

Definition ApplySuperResolutionCPU (fuel : nat) (image : Mat)
           (scale_factor : Z) : option Mat :=
  upscale_loop fuel image 1 scale_factor.

(** [SuperResolutionModel::upscale]: with or without DirectML it calls the
    CPU implementation. *)
Definition upscale (fuel : nat) (image : Mat) (scale_factor : Z)
  : option Mat :=
  ApplySuperResolutionCPU fuel image scale_factor.

End SuperResolution.

(** ** Vocabulary of the statements *)

(** *** States and sample inputs *)

(** The engine before [curve_initialize] was ever called. *)
Definition initial_state : EngineState := mkState false.

(** The control point (xn/xd, yn/yd) in binary64. *)
Definition b64_point (xn xd yn yd : Z) : CurvePoint f64 :=
  mkPoint (b64_frac xn xd) (b64_frac yn yd).

(** The points (0.5, 0.2), (0.5, 0.8): the same abscissa twice. *)
Definition duplicate_x_points : list (CurvePoint f64) :=
  [b64_point 1 2 1 5; b64_point 1 2 4 5].

(** The points (0.5, 0.2), (0.5, 0.5), (0.5, 0.8): one abscissa three
    times. *)
Definition triple_x_points : list (CurvePoint f64) :=
  [b64_point 1 2 1 5; b64_point 1 2 1 2; b64_point 1 2 4 5].

(** The points (0, 0), (0, 0.5), (1, 1): the second abscissa is 0. *)
Definition zero_x_points : list (CurvePoint f64) :=
  [b64_point 0 1 0 1; b64_point 0 1 1 2; b64_point 1 1 1 1].

(** The points (0, 0), (0.5, 0.2), (1, 1), in binary64 and in exact
    arithmetic. *)
Definition three_points_b64 : list (CurvePoint f64) :=
  [b64_point 0 1 0 1; b64_point 1 2 1 5; b64_point 1 1 1 1].

Definition three_points : list (CurvePoint exact) :=
  [mkPoint (Some 0%Q) (Some 0%Q); mkPoint (Some (1 # 2)%Q) (Some (1 # 5)%Q);
   mkPoint (Some 1%Q) (Some 1%Q)].


(** A 1x1 image of three channels, and an output buffer of the same shape
    that holds other bytes; the same with four channels. *)
Definition rgb_pixel_image : ImageData := mkImage [10; 20; 30] 1 1 3 3.
Definition blank_pixel_image : ImageData := mkImage [0; 0; 0] 1 1 3 3.
Definition rgba_pixel_image : ImageData := mkImage [10; 20; 30; 40] 1 1 4 4.
Definition blank_rgba_image : ImageData := mkImage [0; 0; 0; 0] 1 1 4 4.

(** *** Values *)

(** A sample lies in [0,1]; false for a NaN. *)
Definition in_unit `{DoubleOps D} (d : D) : bool :=
  (dleb (of_Z 0) d) && (dleb d (of_Z 1)).

(** A divisor is zero (of either sign, in binary64). *)
Definition b64_is_zero (d : f64) : bool := SFeqb d (S754_zero false).

(** In exact arithmetic: a sample is a number of [0,1]; a divisor is a
    number different from 0. *)
Definition unit_value (d : exact) : Prop :=
  exists q, val d q /\ (0 <= q <= 1)%Q.

Definition nonzero (d : exact) : Prop :=
  exists q, val d q /\ ~ (q == 0)%Q.

(** What the statements ask of [std::pow] in exact arithmetic: [pow(x, 1)]
    is [x]. *)
Definition pow_exponent_one (pow : exact -> exact -> exact) : Prop :=
  forall x g q, val g 1%Q -> val x q -> val (pow x g) q.


(** A power function of exact arithmetic for integer exponents (the result
    is left undefined for the others, which are not rational in general). *)
Definition exact_int_pow (x g : exact) : exact :=
  match x, g with
  | Some p, Some e =>
      if Qeq_bool (inject_Z (Qfloor e)) e
      then Some (Qpower p (Qfloor e)) else None
  | _, _ => None
  end.

(** *** Sorting *)

(** The comparison that [curve_create] hands to [std::sort]. *)
Definition by_x `{DoubleOps D} (a b : CurvePoint D) : bool :=
  dltb (cp_x a) (cp_x b).

(** The contract of [std::sort]: when the comparison is a strict weak
    ordering of the elements of the range (asymmetric and negatively
    transitive), the result is a permutation of the range in which no
    element is less than an earlier one. *)
Definition strict_weak_on {A} (lt : A -> A -> bool) (l : list A) : Prop :=
  (forall a b, a ∈ l -> b ∈ l -> lt a b = true -> lt b a = false) /\
  (forall a b c, a ∈ l -> b ∈ l -> c ∈ l ->
                 lt a c = true -> lt a b = true \/ lt b c = true).

Definition ordered_by {A} (lt : A -> A -> bool) (l : list A) : Prop :=
  StronglySorted (fun a b => lt b a = false) l.

Definition sort_contract {A}
           (sort : (A -> A -> bool) -> list A -> list A) : Prop :=
  forall lt l,
    strict_weak_on lt l -> sort lt l ≡ₚ l /\ ordered_by lt (sort lt l).

(** Stability: for every key, the elements with that key come in the same
    order in the result [r] as in the input [l]. *)
Definition tied {A} (lt : A -> A -> bool) (a b : A) : bool :=
  negb (lt a b) && negb (lt b a).

Definition keeps_ties {A} (lt : A -> A -> bool) (l r : list A) : Prop :=
  forall a, List.filter (tied lt a) r = List.filter (tied lt a) l.

(** *** Point sets in exact arithmetic *)


(** A point with both coordinates in [0,1]. *)
Definition unit_point (p : CurvePoint exact) : Prop :=
  exists qx qy, cp_x p = Some qx /\ cp_y p = Some qy /\
                (0 <= qx <= 1)%Q /\ (0 <= qy <= 1)%Q.

(** A point set as [curve_create] stores it: at least two points, every
    coordinate in [0,1], no point with a smaller x than an earlier one
    (equal x are allowed). *)
Definition valid_points (pts : list (CurvePoint exact)) : Prop :=
  (2 <= length pts)%nat /\ Forall unit_point pts /\ ordered_by by_x pts.

(** The abscissas grow strictly along the sequence: no x occurs twice. *)
Definition distinct_x (pts : list (CurvePoint exact)) : Prop :=
  StronglySorted (fun a b => by_x a b = true) pts.

(** Every coefficient of a segment is a number. *)
Definition seg_defined (s : SplineSegment exact) : Prop :=
  is_Some (seg_a s) /\ is_Some (seg_b s) /\ is_Some (seg_c s) /\
  is_Some (seg_d s) /\ is_Some (x_start s) /\ is_Some (x_end s).

(** *** Tables and images *)


(** The samples of a buffer are 8-bit. *)
Definition byte_buffer (buf : list Z) : Prop :=
  Forall (fun b => 0 <= b <= 255) buf.

(** The input is an image of 3 or 4 channels of 8-bit samples, and both
    buffers hold [height] rows of [stride] bytes, a row being at least
    [width * channels] bytes. *)
Definition image_fits (input output : ImageData) : Prop :=
  (channels input = 3 \/ channels input = 4) /\
  0 <= width input /\ 0 <= height input /\
  width input * channels input <= stride input /\
  height input * stride input <= Z.of_nat (length (data input)) /\
  width input * channels input <= stride output /\
  height input * stride output <= Z.of_nat (length (data output)) /\
  byte_buffer (data input).

(** A sequence of byte writes [(offset, value)], performed in order. *)
Definition run_stores (buf : list Z) (ws : list (Z * Z)) : list Z :=
  foldl (fun b w => store b w.1 w.2) buf ws.

(** The writes that copy pixel [x] of the row at [src_row] to the row at
    [dst_row], channel by channel. *)
Definition pixel_copy (input : ImageData) (src_row dst_row x : Z)
  : list (Z * Z) :=
  map (fun c => (dst_row + x * channels input + c,
                 load (data input) (src_row + x * channels input + c)))
      (zrange (channels input)).

(** The writes that copy every sample of the input image to the place of
    the same pixel and channel in the output buffer. *)
Definition image_copy (input output : ImageData) : list (Z * Z) :=
  y ← zrange (height input);
  x ← zrange (width input);
  pixel_copy input (y * stride input) (y * stride output) x.

(** *** Further sample inputs *)


(** The points (0, 0), (1, 1) in binary64: the diagonal. *)
Definition diagonal_b64 : list (CurvePoint f64) :=
  [b64_point 0 1 0 1; b64_point 1 1 1 1].

(** What the statements ask of [std::pow] in binary64: [pow(x, 1.0)] is
    [x]. *)
Definition b64_pow_exponent_one (pow : f64 -> f64 -> f64) : Prop :=
  forall x, pow x (b64_of_Z 1) = x.

(** *** The writes of the applicator *)

(** The byte writes of [apply_pixel] for pixel [x], in the order of the
    source: the targeted channels (or the one targeted channel followed by
    the copies of the others), then the alpha channel of a 4-channel
    image. *)
Definition pixel_stores `{DoubleOps D} (lut : list D) (input : ImageData)
           (channel : ColorChannel) (src_row dst_row x : Z) : list (Z * Z) :=
  let channels := channels input in
  let src := data input in
  let pixel_offset := x * channels in
  match channel with
  | CHANNEL_RGB | CHANNEL_LUMINANCE =>
      map (fun c => (dst_row + pixel_offset + c,
                     lut_value lut (load src (src_row + pixel_offset + c))))
          (zrange (Z.min 3 channels))
  | _ =>
      let channel_index := getChannelIndex channel in
      if (0 <=? channel_index) && (channel_index <? channels) then
        (dst_row + pixel_offset + channel_index,
         lut_value lut (load src (src_row + pixel_offset + channel_index))) ::
        flat_map (fun c => if c =? channel_index then [] else
                             [(dst_row + pixel_offset + c,
                               load src (src_row + pixel_offset + c))])
                 (zrange channels)
      else []
  end ++
  (if channels =? 4
   then [(dst_row + pixel_offset + 3, load src (src_row + pixel_offset + 3))]
   else []).

(** The byte writes of [applyLUTCPU], row by row and pixel by pixel. *)
Definition image_stores `{DoubleOps D} (lut : list D) (input output : ImageData)
           (channel : ColorChannel) : list (Z * Z) :=
  y ← zrange (height input);
  x ← zrange (width input);
  pixel_stores lut input channel (y * stride input) (y * stride output) x.

(** The channels that a channel target sends through the table. *)
Definition targeted (channel : ColorChannel) (c : Z) : bool :=
  match channel with
  | CHANNEL_RGB | CHANNEL_LUMINANCE => c <? 3
  | _ => c =? getChannelIndex channel
  end.

(** The targets for which [applyLUTCPU] writes the colour channels. *)
Definition color_target (channel : ColorChannel) : bool :=
  match channel with
  | CHANNEL_LAB_L | CHANNEL_LAB_A | CHANNEL_LAB_B => false
  | _ => true
  end.

(** The lookup of [lut_value] in the table of [n] entries
    [f 0, ..., f (n - 1)]. *)
Definition lut_value_of `{DoubleOps D} (f : nat -> D) (n : nat) (value : Z)
  : Z :=
  let lut_size := Z.of_nat n in
  let lut_scale := of_Z (lut_size - 1) in
  let normalized := ddiv (of_Z value) (of_Z 255) in
  let lut_pos := dmul normalized lut_scale in
  let lut_index := dtrunc lut_pos in
  let frac := dsub lut_pos (of_Z lut_index) in
  let result :=
    if (lut_index >=? lut_size - 1)%Z
    then f (n - 1)%nat
    else dadd (f (Z.to_nat lut_index))
              (dmul frac (dsub (f (Z.to_nat (lut_index + 1)))
                               (f (Z.to_nat lut_index)))) in
  Z.modulo (dtrunc (clamp (dadd (dmul result (of_Z 255)) dhalf)
                          (of_Z 0) (of_Z 255)))
           256.

(** *** Point sets and splines *)



(** The equations that the back substitution establishes between the
    coefficient arrays at index [j]. *)
Definition back_equations `{DoubleOps D} (pts : list (CurvePoint D))
           (h mu z c b d : list D) (j : nat) : Prop :=
  c !!! j = dsub (z !!! j) (dmul (mu !!! j) (c !!! S j)) /\
  b !!! j =
    dsub (ddiv (dsub (cp_y (pts !!! S j)) (cp_y (pts !!! j))) (h !!! j))
         (ddiv (dmul (h !!! j)
                     (dadd (c !!! S j) (dmul (of_Z 2) (c !!! j))))
               (of_Z 3)) /\
  d !!! j = ddiv (dsub (c !!! S j) (c !!! j)) (dmul (of_Z 3) (h !!! j)).

(** The equations that the forward elimination establishes between the
    arrays at index [j]. *)
Definition forward_equations `{DoubleOps D} (pts : list (CurvePoint D))
           (h alpha l mu z : list D) (j : nat) : Prop :=
  l !!! j =
    dsub (dmul (of_Z 2)
               (dsub (cp_x (pts !!! S j)) (cp_x (pts !!! (j - 1)%nat))))
         (dmul (h !!! (j - 1)%nat) (mu !!! (j - 1)%nat)) /\
  mu !!! j = ddiv (h !!! j) (l !!! j) /\
  z !!! j = ddiv (dsub (alpha !!! j)
                       (dmul (h !!! (j - 1)%nat) (z !!! (j - 1)%nat)))
                 (l !!! j).


(** ** Loops that fill a vector *)

Section Fill.
Context {D : Type} `{DoubleOps D}.

Lemma fill_prefix (f : nat -> D) (lut : list D) (k : nat) :
  (k <= length lut)%nat ->
  foldl (fun lut i => <[i := f i]> lut) lut (seq 0 k) =
  map f (seq 0 k) ++ drop k lut.
Proof.
  induction k as [|k IH]; intros Hk.
  - by rewrite drop_0.
  - rewrite seq_S, foldl_app, IH by lia. simpl.
    destruct (lookup_lt_is_Some_2 lut k) as [v Hv]; [lia|].
    rewrite (drop_S _ _ _ Hv), map_app. simpl.
    rewrite insert_app_r_alt by (rewrite length_map, length_seq; lia).
    rewrite length_map, length_seq, Nat.sub_diag. simpl.
    by rewrite <- app_assoc.
Qed.

Lemma fill_spec (f : nat -> D) (lut : list D) :
  fill f lut = map f (seq 0 (length lut)).
Proof.
  unfold fill. rewrite fill_prefix by lia.
  by rewrite drop_all, app_nil_r.
Qed.

Lemma fill_length (f : nat -> D) (lut : list D) :
  length (fill f lut) = length lut.
Proof. by rewrite fill_spec, length_map, length_seq. Qed.

Lemma fill_lookup (f : nat -> D) (lut : list D) (i : nat) :
  (i < length lut)%nat -> fill f lut !! i = Some (f i).
Proof.
  intros Hi. rewrite fill_spec, list_lookup_fmap.
  by rewrite lookup_seq_lt.
Qed.
End Fill.

(** ** The table generators keep the size of the table *)

Section Generators.
Context {D : Type} `{DoubleOps D}.
Variable pow : D -> D -> D.

Lemma generateOptimizedLUT_length pts ty size :
  (0 <= size)%Z ->
  exists lut, generateOptimizedLUT pow pts ty size = Some lut /\
              length lut = Z.to_nat size.
Proof.
  intros Hsize. unfold generateOptimizedLUT.
  destruct (Z.ltb_spec size 0) as [|_]; [lia|].
  eexists; split; [reflexivity|].
  unfold generateLinearLUT, generateAIOptimizedLUT, generateCubicSplineLUT,
    generateBezierLUT, generateParametricLUT.
  repeat case_match; rewrite ?fill_length; apply length_replicate.
Qed.

Lemma generateOptimizedLUT_unknown_type pts ty size :
  ~ enumerated_type ty -> (0 <= size)%Z ->
  generateOptimizedLUT pow pts ty size =
  Some (replicate (Z.to_nat size) (of_Z 0)).
Proof.
  intros Hty Hsize. unfold generateOptimizedLUT.
  destruct (Z.ltb_spec size 0) as [|_]; [lia|].
  unfold enumerated_type in Hty.
  destruct (Z.eqb_spec ty CURVE_TYPE_LINEAR); [tauto|].
  destruct (Z.eqb_spec ty CURVE_TYPE_CUBIC_SPLINE); [tauto|].
  destruct (Z.eqb_spec ty CURVE_TYPE_BEZIER); [tauto|].
  destruct (Z.eqb_spec ty CURVE_TYPE_PARAMETRIC); [tauto|].
  destruct (Z.eqb_spec ty CURVE_TYPE_AI_OPTIMIZED); [tauto|].
  reflexivity.
Qed.
(** The switch sends AIOptimized to [generateAIOptimizedLUT], which is the
    spline generator. *)
Lemma ai_optimized_dispatch pts size :
  generateOptimizedLUT pow pts CURVE_TYPE_AI_OPTIMIZED size =
  generateOptimizedLUT pow pts CURVE_TYPE_CUBIC_SPLINE size.
Proof. reflexivity. Qed.
End Generators.

(** ** Exact arithmetic: the value of an operation *)

Section ExactArith.
Local Open Scope Q_scope.
Implicit Types a b v lo hi : exact.
Implicit Types p q l h : Q.

Lemma val_some q : val (Some q) q.
Proof. exists q. split; [reflexivity|]. reflexivity. Qed.

Lemma val_eq a p q : val a p -> p == q -> val a q.
Proof.
  intros (r & -> & Hr) Hpq. exists r. split; [reflexivity|].
  by rewrite Hr.
Qed.

Lemma val_unique a p q : val a p -> val a q -> p == q.
Proof.
  intros (r & -> & Hr) (r' & Heq & Hr'). injection Heq as <-.
  by rewrite <- Hr, <- Hr'.
Qed.

Lemma val_of_Z z : val (of_Z z) (inject_Z z).
Proof. apply val_some. Qed.


Lemma val_add a b p q : val a p -> val b q -> val (dadd a b) (p + q).
Proof.
  intros (p' & -> & Hp) (q' & -> & Hq). exists (p' + q'). split; [done|].
  by rewrite Hp, Hq.
Qed.

Lemma val_sub a b p q : val a p -> val b q -> val (dsub a b) (p - q).
Proof.
  intros (p' & -> & Hp) (q' & -> & Hq). exists (p' - q'). split; [done|].
  by rewrite Hp, Hq.
Qed.

Lemma val_mul a b p q : val a p -> val b q -> val (dmul a b) (p * q).
Proof.
  intros (p' & -> & Hp) (q' & -> & Hq). exists (p' * q'). split; [done|].
  by rewrite Hp, Hq.
Qed.

Lemma val_div a b p q :
  val a p -> val b q -> ~ q == 0 -> val (ddiv a b) (p / q).
Proof.
  intros (p' & -> & Hp) (q' & -> & Hq) Hnz. exists (p' / q'). split.
  - simpl. destruct (Qeq_bool q' 0) eqn:E; [|done].
    apply Qeq_bool_eq in E. rewrite Hq in E. contradiction.
  - by rewrite Hp, Hq.
Qed.

Lemma val_ltb a b p q :
  val a p -> val b q -> dltb a b = negb (Qle_bool q p).
Proof.
  intros (p' & -> & Hp) (q' & -> & Hq). simpl. by rewrite Hp, Hq.
Qed.

Lemma val_leb a b p q : val a p -> val b q -> dleb a b = Qle_bool p q.
Proof.
  intros (p' & -> & Hp) (q' & -> & Hq). simpl. by rewrite Hp, Hq.
Qed.

Lemma val_ltb_true a b p q : val a p -> val b q -> p < q -> dltb a b = true.
Proof.
  intros Ha Hb Hlt. rewrite (val_ltb _ _ _ _ Ha Hb).
  destruct (Qle_bool q p) eqn:E; [|done].
  apply Qle_bool_iff in E. lra.
Qed.

Lemma val_ltb_false a b p q :
  val a p -> val b q -> q <= p -> dltb a b = false.
Proof.
  intros Ha Hb Hle. rewrite (val_ltb _ _ _ _ Ha Hb).
  apply Qle_bool_iff in Hle. by rewrite Hle.
Qed.

Lemma val_leb_true a b p q : val a p -> val b q -> p <= q -> dleb a b = true.
Proof.
  intros Ha Hb Hle. rewrite (val_leb _ _ _ _ Ha Hb).
  by apply Qle_bool_iff.
Qed.

Lemma val_leb_false a b p q :
  val a p -> val b q -> q < p -> dleb a b = false.
Proof.
  intros Ha Hb Hlt. rewrite (val_leb _ _ _ _ Ha Hb).
  destruct (Qle_bool p q) eqn:E; [|done].
  apply Qle_bool_iff in E. lra.
Qed.

Lemma val_clamp_id v lo hi q l h :
  val v q -> val lo l -> val hi h -> l <= q -> q <= h -> clamp v lo hi = v.
Proof.
  intros Hv Hlo Hhi Hl Hh. unfold clamp.
  rewrite (val_ltb_false _ _ _ _ Hv Hlo Hl).
  by rewrite (val_ltb_false _ _ _ _ Hhi Hv Hh).
Qed.

(** A clamped value is undefined or lies between the bounds. *)
Lemma val_clamp_range v lo hi l h :
  val lo l -> val hi h -> l <= h ->
  clamp v lo hi = None \/ exists q, val (clamp v lo hi) q /\ l <= q <= h.
Proof.
  intros Hlo Hhi Hlh. destruct v as [q|].
  2:{ left. destruct Hlo as (? & -> & _), Hhi as (? & -> & _). done. }
  right. unfold clamp.
  rewrite (val_ltb _ _ _ _ (val_some q) Hlo).
  rewrite (val_ltb _ _ _ _ Hhi (val_some q)).
  destruct (Qle_bool l q) eqn:E1; cbn [negb].
  - apply Qle_bool_iff in E1.
    destruct (Qle_bool q h) eqn:E2; cbn [negb].
    + apply Qle_bool_iff in E2. exists q. split; [apply val_some|lra].
    + exists h. split; [exact Hhi|lra].
  - exists l. split; [exact Hlo|lra].
Qed.

End ExactArith.

(** ** C9: the AI-optimized table is the cubic-spline table *)

(** C9.  For every arithmetic, every point set and every resolution, the
    table generated for the type AIOptimized is the table generated for the
    type CubicSpline from the same points at the same resolution. *)
Theorem ai_optimized_lut_is_cubic_spline_lut :
  forall (D : Type) (ops : DoubleOps D) (pow : D -> D -> D)
         (pts : list (CurvePoint D)) (size : Z),
    generateOptimizedLUT pow pts CURVE_TYPE_AI_OPTIMIZED size =
    generateOptimizedLUT pow pts CURVE_TYPE_CUBIC_SPLINE size.
Proof.
  intros D ops pow pts size.
  unfold generateOptimizedLUT.
  destruct (Z.ltb_spec size 0) as [Hneg|Hsize]; [reflexivity|].
  (* the switch: 4 is none of 0, 1, 2, 3 and is 4; 1 is not 0 and is 1 *)
  change (CURVE_TYPE_AI_OPTIMIZED =? CURVE_TYPE_LINEAR)%Z with false.
  change (CURVE_TYPE_AI_OPTIMIZED =? CURVE_TYPE_CUBIC_SPLINE)%Z with false.
  change (CURVE_TYPE_AI_OPTIMIZED =? CURVE_TYPE_BEZIER)%Z with false.
  change (CURVE_TYPE_AI_OPTIMIZED =? CURVE_TYPE_PARAMETRIC)%Z with false.
  change (CURVE_TYPE_AI_OPTIMIZED =? CURVE_TYPE_AI_OPTIMIZED)%Z with true.
  change (CURVE_TYPE_CUBIC_SPLINE =? CURVE_TYPE_LINEAR)%Z with false.
  change (CURVE_TYPE_CUBIC_SPLINE =? CURVE_TYPE_CUBIC_SPLINE)%Z with true.
  cbv iota.
  (* both preprocessor branches of generateAIOptimizedLUT *)
  unfold generateAIOptimizedLUT. reflexivity.
Qed.

(** ** C10: which entry points check the initialization flag *)



(** ** C4: the curve type is not validated *)

(** C4, counterexample.  The type value 7 is none of the enumerated types,
    and [curve_create] accepts it: it returns CURVE_SUCCESS and stores a
    curve of type 7, for which the generator returns a table of zeros. *)
Lemma curve_create_accepts_type_7 :
  ~ enumerated_type 7 /\
  exists c,
    curve_create insertion_sort (mkState true) (Some duplicate_x_points) 2 7
                 true = (CURVE_SUCCESS, Some c) /\
    type c = 7%Z /\
    generateOptimizedLUT (fun x _ : f64 => x) (curve_points c) (type c) 4 =
    Some [S754_zero false; S754_zero false; S754_zero false; S754_zero false].
Proof.
  split.
  - unfold enumerated_type. intros [?|[?|[?|[?|?]]]]; discriminate.
  - eexists. split; [reflexivity|]. split; reflexivity.
Qed.

(** C4, as the code has it.  [curve_create] does not look at the curve
    type: with non-null pointers, at least two points and an initialized
    engine it returns CURVE_SUCCESS and stores the type value as given,
    enumerated or not.  For a type that is none of the enumerated ones the
    generator then matches no case and returns the zero-filled table of the
    requested size. *)
Theorem curve_create_stores_any_type :
  forall (D : Type) (ops : DoubleOps D) (pow : D -> D -> D)
         (std_sort : (CurvePoint D -> CurvePoint D -> bool) ->
                     list (CurvePoint D) -> list (CurvePoint D))
         (st : EngineState) (pts : list (CurvePoint D)) (n : Z)
         (ty : CurveType),
    g_initialized st = true ->
    (2 <= n)%Z ->
    exists c,
      curve_create std_sort st (Some pts) n ty true =
      (CURVE_SUCCESS, Some c) /\
      type c = ty /\
      (~ enumerated_type ty ->
       forall size, (0 <= size)%Z ->
         generateOptimizedLUT pow (curve_points c) (type c) size =
         Some (replicate (Z.to_nat size) (of_Z 0))).
Proof.
  intros D ops pow std_sort st pts n ty Hinit Hn.
  unfold curve_create. rewrite Hinit.
  destruct (Z.ltb_spec n 2); [lia|]. simpl.
  eexists. split; [reflexivity|]. split; [reflexivity|].
  intros Hty size Hsize. simpl.
  by apply generateOptimizedLUT_unknown_type.
Qed.

Lemma curve_create_stores_any_type_witness :
  exists c,
    curve_create insertion_sort (mkState true) (Some duplicate_x_points) 2 7
                 true = (CURVE_SUCCESS, Some c) /\
    type c = 7%Z /\
    (~ enumerated_type 7 ->
     forall size, (0 <= size)%Z ->
       generateOptimizedLUT (fun x _ : f64 => x) (curve_points c) (type c)
                            size =
       Some (replicate (Z.to_nat size) (of_Z 0))).
Proof.
  apply (curve_create_stores_any_type f64 b64_ops (fun x _ => x)
           insertion_sort (mkState true) duplicate_x_points 2 7).
  - reflexivity.
  - lia.
Defined.

(** ** C2: the Lab channel targets *)

Lemma foldl_const {A B} (f : A -> B -> A) (a : A) (l : list B) :
  (forall a b, f a b = a) -> foldl f a l = a.
Proof.
  intros Hf. induction l as [|b l IH]; [done|]. simpl. by rewrite Hf.
Qed.

(** With a Lab target and an image that has no alpha channel,
    [applyLUTCPU] writes nothing: the output buffer is what it was. *)
Lemma lab_target_writes_nothing `{DoubleOps D} (lut : list D)
      (input output : ImageData) (ch : ColorChannel)
      (options : ProcessingOptions) :
  ch = CHANNEL_LAB_L \/ ch = CHANNEL_LAB_A \/ ch = CHANNEL_LAB_B ->
  channels input <> 4 ->
  data (applyLUTCPU lut input output ch options) = data output.
Proof.
  intros Hch Halpha. unfold applyLUTCPU. cbn [data].
  apply foldl_const. intros out y. apply foldl_const. intros out' x.
  unfold apply_pixel.
  destruct (Z.eqb_spec (channels input) 4) as [|_]; [done|].
  by destruct Hch as [->|[->| ->]].
Qed.

(** C2, on the failing input.  With the target Lab-L, Lab-A or Lab-B, a
    three-channel input pixel (10, 20, 30) and an output buffer that holds
    (0, 0, 0), the output buffer still holds (0, 0, 0) after the call: no
    channel is copied.  With four channels only the alpha byte is copied.
    [curve_apply_to_image] on a curve with the target Lab-L returns
    CURVE_SUCCESS and leaves the output as it was. *)
Theorem lab_target_leaves_output_unwritten :
  (forall (D : Type) (ops : DoubleOps D) (lut : list D)
          (options : ProcessingOptions),
      data (applyLUTCPU lut rgb_pixel_image blank_pixel_image CHANNEL_LAB_L
                        options) = [0; 0; 0] /\
      data (applyLUTCPU lut rgb_pixel_image blank_pixel_image CHANNEL_LAB_A
                        options) = [0; 0; 0] /\
      data (applyLUTCPU lut rgb_pixel_image blank_pixel_image CHANNEL_LAB_B
                        options) = [0; 0; 0] /\
      data (applyLUTCPU lut rgba_pixel_image blank_rgba_image CHANNEL_LAB_L
                        options) = [0; 0; 0; 40]) /\
  (forall pow : f64 -> f64 -> f64,
      curve_apply_to_image pow (mkState true)
        (Some (mkCurve three_points_b64 3 CURVE_TYPE_LINEAR CHANNEL_LAB_L
                       (of_Z 1) (of_Z 0) (of_Z 1) DEFAULT_LUT_SIZE))
        (Some rgb_pixel_image) (Some blank_pixel_image) None =
      (CURVE_SUCCESS, Some blank_pixel_image)).
Proof.
  split.
  - intros. repeat split; reflexivity.
  - intros pow. vm_compute. reflexivity.
Qed.

(** ** C3: the order of the stored points *)

Section InsertionSorts.
Context {A : Type}.
Variable lt : A -> A -> bool.

Lemma sort_insert_perm a l : sort_insert lt a l ≡ₚ a :: l.
Proof.
  induction l as [|b l IH]; simpl; [done|].
  destruct (lt b a); [|done].
  rewrite IH. apply Permutation_swap.
Qed.

Lemma insertion_sort_perm l : insertion_sort lt l ≡ₚ l.
Proof.
  induction l as [|a l IH]; simpl; [done|].
  by rewrite sort_insert_perm, IH.
Qed.



Lemma strict_weak_on_perm l l' :
  l ≡ₚ l' -> strict_weak_on lt l -> strict_weak_on lt l'.
Proof.
  intros Hp [Has Hnt]. split.
  - intros a b Ha Hb. apply Has; by rewrite Hp.
  - intros a b c Ha Hb Hc. apply Hnt; by rewrite Hp.
Qed.

Lemma strict_weak_on_tail a l :
  strict_weak_on lt (a :: l) -> strict_weak_on lt l.
Proof.
  intros [Has Hnt]. split.
  - intros x y Hx Hy. apply Has; by right.
  - intros x y z Hx Hy Hz. apply Hnt; by right.
Qed.

Lemma sort_insert_ordered a l :
  strict_weak_on lt (a :: l) -> ordered_by lt l ->
  ordered_by lt (sort_insert lt a l).
Proof.
  unfold ordered_by. intros Hswo.
  induction l as [|b l IH]; simpl; intros Hsorted.
  - repeat constructor.
  - apply StronglySorted_cons in Hsorted as [Hb Hl].
    destruct Hswo as [Has Hnt].
    destruct (lt b a) eqn:Hba.
    + apply StronglySorted_cons. split.
      * rewrite sort_insert_perm. constructor; [|exact Hb].
        apply Has; [by right; left|by left|exact Hba].
      * apply IH; [|exact Hl]. split.
        -- intros x y Hx Hy. apply Has.
           ++ apply elem_of_cons in Hx as [->|Hx]; [by left|by do 2 right].
           ++ apply elem_of_cons in Hy as [->|Hy]; [by left|by do 2 right].
        -- intros x y z Hx Hy Hz. apply Hnt.
           ++ apply elem_of_cons in Hx as [->|Hx]; [by left|by do 2 right].
           ++ apply elem_of_cons in Hy as [->|Hy]; [by left|by do 2 right].
           ++ apply elem_of_cons in Hz as [->|Hz]; [by left|by do 2 right].
    + apply StronglySorted_cons. split.
      * constructor; [exact Hba|].
        rewrite Forall_forall in Hb |- *. intros c Hc.
        destruct (lt c a) eqn:Hca; [|done].
        destruct (Hnt c b a) as [Hcb|Hba'];
          [by do 2 right|by right; left|by left|exact Hca| |].
        -- by rewrite (Hb c Hc) in Hcb.
        -- by rewrite Hba in Hba'.
      * apply StronglySorted_cons. by split.
Qed.

Lemma insertion_sort_ordered l :
  strict_weak_on lt l -> ordered_by lt (insertion_sort lt l).
Proof.
  induction l as [|a l IH]; simpl; intros Hswo.
  - constructor.
  - apply sort_insert_ordered.
    + eapply strict_weak_on_perm; [|exact Hswo].
      by rewrite insertion_sort_perm.
    + apply IH. by eapply strict_weak_on_tail.
Qed.


End InsertionSorts.

Lemma insertion_sort_contract {A} : sort_contract (@insertion_sort A).
Proof.
  intros lt l Hswo. split.
  - apply insertion_sort_perm.
  - by apply insertion_sort_ordered.
Qed.



(** The same points under the insertion sort that keeps equal keys in
    order: here the ties are kept, so stability is a property that a sort
    can have and that the contract of [std::sort] does not give. *)
Lemma stable_sort_keeps_ties_example :
  keeps_ties by_x (clamp_points duplicate_x_points 2)
             (insertion_sort by_x (clamp_points duplicate_x_points 2)).
Proof.
  assert (Hsame : insertion_sort by_x (clamp_points duplicate_x_points 2) =
                  clamp_points duplicate_x_points 2) by reflexivity.
  rewrite Hsame. intros a. reflexivity.
Qed.





(** ** C7: the parametric table *)

Section Parametric.
Context {D : Type} `{DoubleOps D}.
Variable pow : D -> D -> D.
Local Open Scope double_scope.




End Parametric.


Lemma exact_int_pow_exponent_one : pow_exponent_one exact_int_pow.
Proof.
  intros x g q (e & -> & He) (p & -> & Hp). unfold exact_int_pow.
  assert (Hfl : Qfloor e = 1%Z) by (rewrite He; reflexivity).
  rewrite Hfl. rewrite (Qeq_eq_bool (inject_Z 1) e) by (by rewrite He).
  exists p. split; [reflexivity|exact Hp].
Qed.


(** ** The Linear path of C1, and the point sets of [curve_create] *)

Section LinearExact.
Local Open Scope Q_scope.

Lemma Qle_bool_false p q : Qle_bool p q = false -> q < p.
Proof.
  intros E. destruct (Qlt_le_dec q p) as [|Hle]; [done|].
  apply Qle_bool_iff in Hle. congruence.
Qed.





End LinearExact.

Section LinearTable.
Local Open Scope Q_scope.

Lemma sample_x_unit (n i : nat) :
  (2 <= n)%nat -> (i < n)%nat -> unit_value (sample_x n i).
Proof.
  intros Hn Hi.
  assert (Hden : 0 < inject_Z (Z.of_nat n - 1)).
  { change 0 with (inject_Z 0). rewrite <- Zlt_Qlt. lia. }
  exists (inject_Z (Z.of_nat i) / inject_Z (Z.of_nat n - 1)). split.
  - unfold sample_x. apply val_div; [apply val_of_Z|apply val_of_Z|lra].
  - split.
    + apply Qle_shift_div_l; [exact Hden|]. rewrite Qmult_0_l.
      change 0 with (inject_Z 0). rewrite <- Zle_Qle. lia.
    + apply Qle_shift_div_r; [exact Hden|]. rewrite Qmult_1_l.
      rewrite <- Zle_Qle. lia.
Qed.

End LinearTable.

Section AcceptedPoints.
Local Open Scope Q_scope.

Lemma clamp_unit (d : exact) :
  is_Some d -> exists q, clamp d (of_Z 0) (of_Z 1) = Some q /\ 0 <= q <= 1.
Proof.
  intros [q ->]. unfold clamp.
  rewrite (val_ltb _ _ q 0 (val_some q) (val_of_Z 0)).
  destruct (Qle_bool 0 q) eqn:E0; cbn [negb].
  - apply Qle_bool_iff in E0.
    rewrite (val_ltb _ _ 1 q (val_of_Z 1) (val_some q)).
    destruct (Qle_bool q 1) eqn:E1; cbn [negb].
    + apply Qle_bool_iff in E1. by exists q.
    + exists 1. split; [done|lra].
  - exists 0. split; [done|lra].
Qed.



End AcceptedPoints.

(** ** Distinct abscissas: where the defect of C1 and C8 cannot occur *)

Section Defined.
Local Open Scope Q_scope.
Implicit Types a b : exact.

Lemma defined_val a : is_Some a -> exists q, val a q.
Proof. intros [q ->]. exists q. apply val_some. Qed.

Lemma val_defined a q : val a q -> is_Some a.
Proof. intros (p & -> & _). by exists p. Qed.

Lemma defined_of_Z z : is_Some (of_Z z : exact).
Proof. by eexists. Qed.

Lemma defined_add a b : is_Some a -> is_Some b -> is_Some (dadd a b).
Proof. intros [p ->] [q ->]. by eexists. Qed.

Lemma defined_sub a b : is_Some a -> is_Some b -> is_Some (dsub a b).
Proof. intros [p ->] [q ->]. by eexists. Qed.

Lemma defined_mul a b : is_Some a -> is_Some b -> is_Some (dmul a b).
Proof. intros [p ->] [q ->]. by eexists. Qed.

Lemma defined_div a b : is_Some a -> nonzero b -> is_Some (ddiv a b).
Proof.
  intros Ha (q & Hb & Hq). destruct (defined_val a Ha) as (p & Hp).
  eapply val_defined. by apply (val_div a b p q).
Qed.

Lemma nonzero_pos a q : val a q -> 0 < q -> nonzero a.
Proof. intros Ha Hq. exists q. split; [exact Ha|lra]. Qed.

Lemma nonzero_three_times a : nonzero a -> nonzero (dmul (of_Z 3) a).
Proof.
  intros (q & Ha & Hq). exists (3 * q). split.
  - apply (val_mul _ _ 3 q).
    + apply (val_of_Z 3).
    + exact Ha.
  - lra.
Qed.

Lemma lookup_total_defined (l : list exact) i :
  Forall is_Some l -> is_Some (l !!! i).
Proof.
  intros Hl. rewrite list_lookup_total_alt.
  destruct (l !! i) as [v|] eqn:E; simpl.
  - rewrite Forall_forall in Hl. apply Hl. by eapply list_elem_of_lookup_2.
  - by eexists.
Qed.

Lemma replicate_defined n : Forall is_Some (replicate n (of_Z 0 : exact)).
Proof. apply Forall_replicate. by eexists. Qed.
End Defined.

Section InsertLoops.
Context {A : Type}.

(** A loop of writes [arr[i] = f(i)] keeps a property of all entries. *)
Lemma foldl_insert_Forall (P : A -> Prop) (f : list A -> nat -> A)
      (Q : nat -> Prop) (l : list A) (idx : list nat) :
  Forall P l -> Forall Q idx ->
  (forall l' i, Forall P l' -> Q i -> P (f l' i)) ->
  Forall P (foldl (fun l i => <[i := f l i]> l) l idx).
Proof.
  intros Hl Hidx Hf. revert l Hl.
  induction Hidx as [|i idx Hi Hidx IH]; intros l Hl; [done|].
  simpl. apply IH. apply Forall_insert; [exact Hl|]. by apply Hf.
Qed.
End InsertLoops.

Section DistinctAbscissas.
Local Open Scope Q_scope.

Variable pts : list (CurvePoint exact).
Variables X Y : nat -> Q.
Let n := length pts.
Hypothesis pts_many : (2 <= n)%nat.
Hypothesis pts_x : forall i, (i < n)%nat -> cp_x (pts !!! i) = Some (X i).
Hypothesis pts_y : forall i, (i < n)%nat -> cp_y (pts !!! i) = Some (Y i).
Hypothesis x_grows : forall i, (S i < n)%nat -> X i < X (S i).

Lemma spline_h_eq :
  spline_h pts =
  map (fun i => dsub (cp_x (pts !!! S i)) (cp_x (pts !!! i)))
      (seq 0 (n - 1)).
Proof.
  unfold spline_h. fold n.
  rewrite (fill_prefix (fun i => dsub (cp_x (pts !!! S i)) (cp_x (pts !!! i))))
    by (rewrite length_replicate; lia).
  rewrite drop_ge by (rewrite length_replicate; lia).
  apply app_nil_r.
Qed.

Lemma spline_h_val i :
  (S i < n)%nat -> val (spline_h pts !!! i) (X (S i) - X i).
Proof.
  intros Hi. rewrite spline_h_eq.
  rewrite (list_lookup_total_correct _ _
             (dsub (cp_x (pts !!! S i)) (cp_x (pts !!! i)))).
  - rewrite !pts_x by lia. apply val_some.
  - rewrite list_lookup_fmap, lookup_seq_lt by lia. reflexivity.
Qed.

Lemma spline_h_nonzero i : (S i < n)%nat -> nonzero (spline_h pts !!! i).
Proof.
  intros Hi. apply (nonzero_pos _ _ (spline_h_val i Hi)).
  specialize (x_grows i Hi). lra.
Qed.

Lemma spline_h_defined : Forall is_Some (spline_h pts).
Proof.
  rewrite spline_h_eq. apply Forall_fmap, Forall_forall. intros i Hi.
  apply elem_of_seq in Hi. simpl. rewrite !pts_x by lia. by eexists.
Qed.

Lemma pts_x_defined i : is_Some (cp_x (pts !!! i)).
Proof.
  destruct (decide (i < n)%nat) as [Hi|Hi].
  - rewrite pts_x by lia. by eexists.
  - rewrite list_lookup_total_alt, lookup_ge_None_2 by (fold n; lia).
    by eexists.
Qed.

Lemma pts_y_defined i : is_Some (cp_y (pts !!! i)).
Proof.
  destruct (decide (i < n)%nat) as [Hi|Hi].
  - rewrite pts_y by lia. by eexists.
  - rewrite list_lookup_total_alt, lookup_ge_None_2 by (fold n; lia).
    by eexists.
Qed.

Lemma spline_alpha_defined : Forall is_Some (spline_alpha pts (spline_h pts)).
Proof.
  unfold spline_alpha. fold n.
  apply (foldl_insert_Forall is_Some
           (fun _ i => _) (fun i => (1 <= i)%nat /\ (S i < n)%nat)).
  - apply replicate_defined.
  - apply Forall_forall. intros i Hi. apply elem_of_seq in Hi. lia.
  - intros _ i _ [Hi1 Hi2].
    apply defined_sub; apply defined_mul.
    + apply defined_div; [apply defined_of_Z|by apply spline_h_nonzero].
    + apply defined_sub; apply pts_y_defined.
    + apply defined_div; [apply defined_of_Z|].
      apply spline_h_nonzero. lia.
    + apply defined_sub; apply pts_y_defined.
Qed.

(** The forward elimination keeps the pivots [l[i]] positive and the
    entries of [mu] in [0, 1): the system is diagonally dominant. *)
Lemma forward_loop_invariant (alpha : list exact) (k : nat) :
  Forall is_Some alpha -> (k <= n - 2)%nat ->
  exists l mu z,
    foldl (forward_step pts (spline_h pts) alpha)
          (<[0%nat := of_Z 1]> (replicate n (of_Z 0)),
           <[0%nat := of_Z 0]> (replicate n (of_Z 0)),
           <[0%nat := of_Z 0]> (replicate n (of_Z 0)))
          (seq 1 k) = (l, mu, z) /\
    length l = n /\ length mu = n /\
    Forall is_Some l /\ Forall is_Some mu /\ Forall is_Some z /\
    (forall j, (1 <= j <= k)%nat -> exists q, val (l !!! j) q /\ 0 < q) /\
    (forall j, (j <= k)%nat -> exists q, val (mu !!! j) q /\ 0 <= q < 1).
Proof.
  intros Halpha. induction k as [|k IH]; intros Hk.
  - eexists; eexists; eexists. split; [reflexivity|].
    rewrite !length_insert, !length_replicate.
    split; [done|]. split; [done|].
    split; [apply Forall_insert; [apply replicate_defined|by eexists]|].
    split; [apply Forall_insert; [apply replicate_defined|by eexists]|].
    split; [apply Forall_insert; [apply replicate_defined|by eexists]|].
    split; [intros j Hj; lia|].
    intros j Hj. assert (j = 0%nat) as -> by lia.
    rewrite list_lookup_total_insert_eq by (rewrite length_replicate; lia).
    exists 0. split; [apply (val_of_Z 0)|lra].
  - destruct IH as (l & mu & z & Hfold & Hll & Hlmu & Hdl & Hdmu & Hdz & Hl & Hmu);
      [lia|].
    rewrite seq_S, foldl_snoc, Hfold. cbn [forward_step].
    set (i := (1 + k)%nat).
    assert (Hi : (S i < n)%nat) by (unfold i; lia).
    destruct (Hmu k) as (m & Hm & Hmr); [lia|].
    replace (i - 1)%nat with k by (unfold i; lia).
    set (lval := dsub (dmul (of_Z 2)
                            (dsub (cp_x (pts !!! S i)) (cp_x (pts !!! k))))
                      (dmul (spline_h pts !!! k) (mu !!! k))).
    pose proof (x_grows k ltac:(lia)) as Hg1.
    pose proof (x_grows i Hi) as Hg2.
    assert (HSk : S k = i) by (unfold i; lia).
    assert (Hlval : val lval (2 * (X (S i) - X k) - (X i - X k) * m)).
    { unfold lval. apply val_sub.
      - apply (val_mul _ _ 2); [apply (val_of_Z 2)|].
        rewrite !pts_x by lia. apply val_some.
      - apply val_mul; [|exact Hm].
        rewrite <- HSk. apply spline_h_val. lia. }
    assert (Hlpos : 0 < 2 * (X (S i) - X k) - (X i - X k) * m).
    { rewrite HSk in Hg1. nra. }
    assert (Hli : <[i := lval]> l !!! i = lval).
    { apply list_lookup_total_insert_eq. lia. }
    rewrite Hli.
    set (muval := ddiv (spline_h pts !!! i) lval).
    assert (Hmuval : val muval ((X (S i) - X i) /
                                (2 * (X (S i) - X k) - (X i - X k) * m))).
    { unfold muval. apply val_div; [by apply spline_h_val|exact Hlval|lra]. }
    eexists; eexists; eexists. split; [reflexivity|].
    rewrite !length_insert.
    split; [done|]. split; [done|].
    split; [apply Forall_insert; [exact Hdl|by eapply val_defined]|].
    split; [apply Forall_insert; [exact Hdmu|by eapply val_defined]|].
    split.
    { apply Forall_insert; [exact Hdz|].
      apply defined_div; [|by eapply nonzero_pos].
      apply defined_sub; [by apply lookup_total_defined|].
      apply defined_mul; [|by apply lookup_total_defined].
      apply lookup_total_defined, spline_h_defined. }
    split.
    + intros j Hj. destruct (decide (j = i)) as [->|Hne].
      * rewrite Hli. by eexists.
      * rewrite list_lookup_total_insert_ne by done. apply Hl. unfold i in *. lia.
    + intros j Hj. destruct (decide (j = i)) as [->|Hne].
      * rewrite list_lookup_total_insert_eq by lia.
        eexists. split; [exact Hmuval|].
        rewrite HSk in Hg1. split.
        -- apply Qle_shift_div_l; [exact Hlpos|]. lra.
        -- apply Qlt_shift_div_r; [exact Hlpos|]. nra.
      * rewrite list_lookup_total_insert_ne by done. apply Hmu. unfold i in *. lia.
Qed.

Lemma spline_forward_spec :
  exists l mu z,
    spline_forward pts (spline_h pts) (spline_alpha pts (spline_h pts)) =
    (l, mu, z) /\
    Forall is_Some l /\ Forall is_Some mu /\ Forall is_Some z /\
    (forall j, (1 <= j)%nat -> (S j < n)%nat ->
               exists q, val (l !!! j) q /\ 0 < q).
Proof.
  destruct (forward_loop_invariant (spline_alpha pts (spline_h pts)) (n - 2))
    as (l & mu & z & Hfold & Hll & Hlmu & Hdl & Hdmu & Hdz & Hl & Hmu);
    [apply spline_alpha_defined|lia|].
  unfold spline_forward. fold n. rewrite Hfold.
  eexists; eexists; eexists. split; [reflexivity|].
  split; [apply Forall_insert; [exact Hdl|by eexists]|].
  split; [exact Hdmu|].
  split; [apply Forall_insert; [exact Hdz|by eexists]|].
  intros j Hj1 Hj2. rewrite list_lookup_total_insert_ne by lia.
  apply Hl. lia.
Qed.

Lemma back_loop_defined (mu z : list exact) (idx : list nat)
      (st : list exact * list exact * list exact) :
  Forall is_Some mu -> Forall is_Some z ->
  Forall (fun j => (S j < n)%nat) idx ->
  Forall is_Some st.1.1 -> Forall is_Some st.1.2 -> Forall is_Some st.2 ->
  exists c b d,
    foldl (back_step pts (spline_h pts) mu z) st idx = (c, b, d) /\
    Forall is_Some c /\ Forall is_Some b /\ Forall is_Some d.
Proof.
  intros Hmu Hz Hidx. revert st.
  induction Hidx as [|j idx Hj Hidx IH]; intros [[c b] d] Hc Hb Hd.
  - by exists c, b, d.
  - cbn [foldl]. apply IH; cbn [back_step fst snd].
    + apply Forall_insert; [exact Hc|].
      apply defined_sub; [by apply lookup_total_defined|].
      apply defined_mul; by apply lookup_total_defined.
    + apply Forall_insert; [exact Hb|].
      assert (Hc' : Forall is_Some
                (<[j := dsub (z !!! j) (dmul (mu !!! j) (c !!! S j))]> c)).
      { apply Forall_insert; [exact Hc|].
        apply defined_sub; [by apply lookup_total_defined|].
        apply defined_mul; by apply lookup_total_defined. }
      apply defined_sub.
      * apply defined_div; [|by apply spline_h_nonzero].
        apply defined_sub; apply pts_y_defined.
      * apply defined_div;
          [|by apply (nonzero_pos _ 3 (val_of_Z 3))].
        apply defined_mul; [apply lookup_total_defined, spline_h_defined|].
        apply defined_add; [by apply lookup_total_defined|].
        apply defined_mul; [apply defined_of_Z|by apply lookup_total_defined].
    + apply Forall_insert; [exact Hd|].
      assert (Hc' : Forall is_Some
                (<[j := dsub (z !!! j) (dmul (mu !!! j) (c !!! S j))]> c)).
      { apply Forall_insert; [exact Hc|].
        apply defined_sub; [by apply lookup_total_defined|].
        apply defined_mul; by apply lookup_total_defined. }
      apply defined_div.
      * apply defined_sub; by apply lookup_total_defined.
      * apply nonzero_three_times. by apply spline_h_nonzero.
Qed.

(** With strictly growing abscissas every coefficient of every segment is
    a number. *)
Lemma calculateSplineSegments_defined :
  Forall seg_defined (calculateSplineSegments pts).
Proof.
  unfold calculateSplineSegments. fold n.
  destruct (Nat.ltb_spec n 2) as [|_]; [lia|].
  destruct spline_forward_spec as (l & mu & z & -> & Hl & Hmu & Hz & _).
  destruct (back_loop_defined mu z (rev (seq 0 (n - 1)))
              (<[(n - 1)%nat := of_Z 0]> (replicate n (of_Z 0)),
               replicate (n - 1) (of_Z 0), replicate (n - 1) (of_Z 0)))
    as (c & b & d & Hback & Hc & Hb & Hd); try assumption.
  - apply Forall_forall. intros j Hj.
    apply list_elem_of_In, in_rev, list_elem_of_In, elem_of_seq in Hj. lia.
  - apply Forall_insert; [apply replicate_defined|by eexists].
  - apply replicate_defined.
  - apply replicate_defined.
  - unfold spline_back. fold n. rewrite Hback.
    apply Forall_fmap, Forall_forall. intros i Hi.
    repeat split; cbn; try (by apply lookup_total_defined);
      try apply pts_x_defined; apply pts_y_defined.
Qed.

(** With strictly growing abscissas every divisor of the spline
    construction is a number different from 0. *)
Lemma spline_divisors_nonzero : Forall nonzero (spline_divisors pts).
Proof.
  unfold spline_divisors. fold n.
  destruct (Nat.ltb_spec n 2) as [|_]; [lia|].
  destruct spline_forward_spec as (l & mu & z & -> & _ & _ & _ & Hl).
  rewrite !Forall_app. split; [|split].
  - apply Forall_forall. intros v Hv.
    apply list_elem_of_In, in_flat_map in Hv as (i & Hi & Hv).
    apply list_elem_of_In, elem_of_seq in Hi.
    destruct Hv as [<-|[<-|[]]]; apply spline_h_nonzero; lia.
  - apply Forall_forall. intros v Hv.
    apply list_elem_of_In, in_flat_map in Hv as (i & Hi & Hv).
    apply list_elem_of_In, elem_of_seq in Hi.
    assert (Hpos : nonzero (l !!! i)).
    { destruct (Hl i) as (q & Hq & Hq0); [lia|lia|].
      by apply (nonzero_pos _ q). }
    by destruct Hv as [<-|[<-|[]]].
  - apply Forall_forall. intros v Hv.
    apply list_elem_of_In, in_flat_map in Hv as (j & Hj & Hv).
    apply in_rev, list_elem_of_In, elem_of_seq in Hj.
    destruct Hv as [<-|[<-|[]]].
    + apply spline_h_nonzero. lia.
    + apply nonzero_three_times, spline_h_nonzero. lia.
Qed.
End DistinctAbscissas.

Section SplineSound.
Local Open Scope Q_scope.

Lemma seg_poly_defined (s : SplineSegment exact) dx :
  seg_defined s -> is_Some dx -> is_Some (seg_poly s dx).
Proof.
  intros (Ha & Hb & Hc & Hd & _ & _) Hdx. unfold seg_poly.
  repeat (first [apply defined_add | apply defined_mul]); assumption.
Qed.

Lemma last_seg_defined (segs : list (SplineSegment exact)) s0 :
  Forall seg_defined (s0 :: segs) ->
  seg_defined (List.last (s0 :: segs) s0).
Proof.
  intros Hsegs. rewrite Forall_forall in Hsegs. apply Hsegs.
  destruct (exists_last (l := s0 :: segs)) as (l' & a & ->); [done|].
  rewrite last_last. apply list_elem_of_In, in_or_app. right. by left.
Qed.

Lemma evaluate_defined (segs : list (SplineSegment exact)) x :
  Forall seg_defined segs -> is_Some x -> is_Some (evaluate segs x).
Proof.
  intros Hsegs Hx. destruct segs as [|s0 segs]; [exact Hx|].
  unfold evaluate.
  pose proof Hsegs as Hs0. apply Forall_cons in Hs0 as [Hs0 _].
  destruct (dleb x (x_start s0)); [apply Hs0|].
  pose proof (last_seg_defined segs s0 Hsegs) as Hlast.
  destruct (dleb (x_end (List.last (s0 :: segs) s0)) x).
  - apply seg_poly_defined; [exact Hlast|].
    apply defined_sub; apply Hlast.
  - set (it := if (_ =? _)%nat then _ else _).
    assert (Hit : seg_defined ((s0 :: segs) !!! it)).
    { rewrite list_lookup_total_alt.
      destruct ((s0 :: segs) !! it) as [s|] eqn:E; simpl.
      - rewrite Forall_forall in Hsegs. apply Hsegs.
        by eapply list_elem_of_lookup_2.
      - repeat split; by eexists. }
    apply seg_poly_defined; [exact Hit|].
    apply defined_sub; [exact Hx|apply Hit].
Qed.

Lemma distinct_x_adjacent (pts : list (CurvePoint exact)) i :
  distinct_x pts -> (S i < length pts)%nat ->
  by_x (pts !!! i) (pts !!! S i) = true.
Proof.
  unfold distinct_x. revert i. induction pts as [|p pts IH]; intros i Hs Hi.
  - simpl in Hi. lia.
  - apply StronglySorted_cons in Hs as [Hp Hs].
    destruct i as [|i].
    + destruct pts as [|p' pts]; [simpl in Hi; lia|].
      apply Forall_cons in Hp as [Hp _]. exact Hp.
    + apply (IH i Hs). simpl in Hi. lia.
Qed.

(** The coordinates of unit points as functions of the index. *)
Lemma unit_points_coordinates (pts : list (CurvePoint exact)) :
  Forall unit_point pts ->
  exists X Y : nat -> Q,
    (forall i, (i < length pts)%nat ->
               cp_x (pts !!! i) = Some (X i) /\ cp_y (pts !!! i) = Some (Y i) /\
               0 <= X i <= 1 /\ 0 <= Y i <= 1).
Proof.
  intros Hpts.
  exists (fun i => default 0 (cp_x (pts !!! i))),
         (fun i => default 0 (cp_y (pts !!! i))).
  intros i Hi.
  destruct (Forall_lookup_total_1 _ _ i Hpts Hi)
    as (qx & qy & Hx & Hy & Hrx & Hry).
  rewrite Hx, Hy. by simpl.
Qed.
End SplineSound.

(** The coordinates of unit points with strictly growing x. *)
Lemma distinct_x_coordinates (pts : list (CurvePoint exact)) :
  Forall unit_point pts -> distinct_x pts ->
  exists X Y : nat -> Q,
    (forall i, (i < length pts)%nat -> cp_x (pts !!! i) = Some (X i)) /\
    (forall i, (i < length pts)%nat -> cp_y (pts !!! i) = Some (Y i)) /\
    (forall i, (S i < length pts)%nat -> (X i < X (S i))%Q) /\
    (forall i, (i < length pts)%nat -> (0 <= X i)%Q).
Proof.
  intros Hunit Hdist.
  destruct (unit_points_coordinates pts Hunit) as (X & Y & Hxy).
  exists X, Y.
  assert (Hx : forall i, (i < length pts)%nat -> cp_x (pts !!! i) = Some (X i))
    by (intros i Hi; apply (Hxy i Hi)).
  split; [exact Hx|]. split; [intros i Hi; apply (Hxy i Hi)|]. split.
  - intros i Hi. pose proof (distinct_x_adjacent pts i Hdist Hi) as Hlt.
    unfold by_x in Hlt. rewrite (Hx i), (Hx (S i)) in Hlt by lia.
    simpl in Hlt. apply negb_true_iff in Hlt. by apply Qle_bool_false.
  - intros i Hi. apply (Hxy i Hi).
Qed.

Lemma distinct_x_segments_defined (pts : list (CurvePoint exact)) :
  (2 <= length pts)%nat -> Forall unit_point pts -> distinct_x pts ->
  Forall seg_defined (calculateSplineSegments pts).
Proof.
  intros Hn Hunit Hdist.
  destruct (distinct_x_coordinates pts Hunit Hdist)
    as (X & Y & Hx & Hy & Hgrow & _).
  exact (calculateSplineSegments_defined pts X Y Hn Hx Hy Hgrow).
Qed.

(** With pairwise distinct abscissas the defect of C1 and C8 does not
    occur (exact arithmetic): for at least two points with coordinates in
    [0,1] and strictly growing x, every divisor of the spline construction
    and the divisor of the parametric generator is a number different from
    0, and the cubic-spline table of a resolution of at least 2 has the
    requested length and every sample in [0,1]. *)
Theorem distinct_x_spline_is_sound :
  forall (pow : exact -> exact -> exact) (pts : list (CurvePoint exact))
         (size : Z),
    (2 <= length pts)%nat -> Forall unit_point pts -> distinct_x pts ->
    (2 <= size)%Z ->
    Forall nonzero (spline_divisors pts) /\
    Forall nonzero (parametric_divisors pts) /\
    exists lut,
      generateOptimizedLUT pow pts CURVE_TYPE_CUBIC_SPLINE size = Some lut /\
      length lut = Z.to_nat size /\
      Forall unit_value lut.
Proof.
  intros pow pts size Hn Hunit Hdist Hsize.
  destruct (distinct_x_coordinates pts Hunit Hdist)
    as (X & Y & Hx & Hy & Hgrow & Hx0).
  split; [exact (spline_divisors_nonzero pts X Y Hn Hx Hy Hgrow)|]. split.
  - unfold parametric_divisors.
    destruct (2 <? length pts)%nat; [|constructor].
    apply Forall_singleton. rewrite (Hx 1%nat) by lia.
    apply (nonzero_pos _ (X 1%nat) (val_some _)).
    pose proof (Hgrow 0%nat ltac:(lia)). pose proof (Hx0 0%nat ltac:(lia)).
    lra.
  - destruct (generateOptimizedLUT_length pow pts CURVE_TYPE_CUBIC_SPLINE size)
      as (lut & Hlut & Hlen); [lia|].
    exists lut. split; [exact Hlut|]. split; [exact Hlen|].
    unfold generateOptimizedLUT in Hlut.
    destruct (Z.ltb_spec size 0) as [|_]; [lia|].
    change (CURVE_TYPE_CUBIC_SPLINE =? CURVE_TYPE_LINEAR)%Z with false in Hlut.
    change (CURVE_TYPE_CUBIC_SPLINE =? CURVE_TYPE_CUBIC_SPLINE)%Z
      with true in Hlut.
    injection Hlut as <-. unfold generateCubicSplineLUT.
    rewrite fill_spec, length_replicate.
    apply Forall_fmap, Forall_forall. intros i Hi.
    apply elem_of_seq in Hi. cbv beta.
    destruct (sample_x_unit (Z.to_nat size) i) as (q & Hq & _); [lia|lia|].
    destruct (clamp_unit
                (evaluate (calculateSplineSegments pts)
                          (sample_x (Z.to_nat size) i)))
      as (r & Hr & Hrange).
    { apply evaluate_defined; [|by eapply val_defined].
      by apply distinct_x_segments_defined. }
    exists r. rewrite Hr. split; [apply val_some|exact Hrange].
Qed.

(** ** Every path of the generator in exact arithmetic *)

Section OtherPaths.
Local Open Scope Q_scope.








End OtherPaths.

(** ** C1 and C8: a repeated abscissa reaches the spline *)

(** C8, on the failing input.  For the points (0.5, 0.2), (0.5, 0.8), which
    [curve_create] accepts and stores as they are, the two divisors of the
    spline construction, [h[0]] and [3.0 * h[0]], are zero; for the points
    (0.5, 0.2), (0.5, 0.5), (0.5, 0.8) all eight divisors are zero, the
    pivot [l[1]] among them; for the points (0, 0), (0, 0.5), (1, 1) the
    divisor [points[1].x] of the parametric generator is zero. *)
Theorem duplicate_x_divides_by_zero :
  (exists c,
      curve_create insertion_sort (mkState true) (Some duplicate_x_points) 2
                   CURVE_TYPE_CUBIC_SPLINE true = (CURVE_SUCCESS, Some c) /\
      curve_points c = duplicate_x_points) /\
  spline_divisors duplicate_x_points = [S754_zero false; S754_zero false] /\
  forallb b64_is_zero (spline_divisors duplicate_x_points) = true /\
  (exists c,
      curve_create insertion_sort (mkState true) (Some triple_x_points) 3
                   CURVE_TYPE_CUBIC_SPLINE true = (CURVE_SUCCESS, Some c) /\
      curve_points c = triple_x_points) /\
  length (spline_divisors triple_x_points) = 8%nat /\
  forallb b64_is_zero (spline_divisors triple_x_points) = true /\
  (exists c,
      curve_create insertion_sort (mkState true) (Some zero_x_points) 3
                   CURVE_TYPE_PARAMETRIC true = (CURVE_SUCCESS, Some c) /\
      curve_points c = zero_x_points) /\
  parametric_divisors zero_x_points = [S754_zero false] /\
  parametric_gamma zero_x_points = S754_infinity false.
Proof.
  split; [eexists; split; reflexivity|].
  split; [reflexivity|]. split; [reflexivity|].
  split; [eexists; split; reflexivity|].
  split; [reflexivity|]. split; [reflexivity|].
  split; [eexists; split; reflexivity|].
  split; reflexivity.
Qed.

(** C1, on the failing input.  For the points (0.5, 0.2), (0.5, 0.8) and the
    type CubicSpline the table of resolution 5 has its five entries, but the
    last two are NaN and so not in [0,1]; the same happens at the default
    resolution 4096 through [curve_create] and [curve_generate_lut], where
    the last entry is NaN.  The Linear table of the same points is within
    [0,1]. *)
Theorem spline_lut_of_duplicate_x_has_nan :
  forall pow : f64 -> f64 -> f64,
    generateOptimizedLUT pow duplicate_x_points CURVE_TYPE_CUBIC_SPLINE 5 =
    Some [b64_frac 1 5; b64_frac 1 5; b64_frac 1 5; S754_nan; S754_nan] /\
    in_unit S754_nan = false /\
    (exists c lut,
        curve_create insertion_sort (mkState true) (Some duplicate_x_points)
                     2 CURVE_TYPE_CUBIC_SPLINE true =
        (CURVE_SUCCESS, Some c) /\
        curve_generate_lut pow (mkState true) (Some c) true true =
        (CURVE_SUCCESS, Some (lut, 4096%Z)) /\
        lut !! 4095%nat = Some S754_nan) /\
    (exists lut,
        generateOptimizedLUT pow duplicate_x_points CURVE_TYPE_LINEAR 5 =
        Some lut /\ forallb in_unit lut = true).
Proof.
  intros pow.
  split; [vm_compute; reflexivity|]. split; [reflexivity|].
  split.
  - eexists; eexists. split; [reflexivity|].
    split; [vm_compute; reflexivity|]. vm_compute; reflexivity.
  - eexists. split; [vm_compute; reflexivity|]. vm_compute; reflexivity.
Qed.

(** ** C6: the spline outside its breakpoints *)

Section SplineShape.
Context {D : Type} `{DoubleOps D}.
Local Open Scope double_scope.





End SplineShape.

Section SplineExact.
Local Open Scope Q_scope.


Lemma sample_x_first (size : Z) :
  (2 <= size)%Z ->
  val (ddiv (of_Z (Z.of_nat 0)) (of_Z (size - 1))) 0.
Proof.
  intros Hsize.
  assert (Hden : 0 < inject_Z (size - 1)).
  { change 0 with (inject_Z 0). rewrite <- Zlt_Qlt. lia. }
  eapply val_eq; [apply val_div; [apply val_of_Z|apply val_of_Z|lra]|].
  simpl. change (inject_Z 0) with 0. field. lra.
Qed.

Lemma sample_x_last (size : Z) :
  (2 <= size)%Z ->
  val (ddiv (of_Z (Z.of_nat (Z.to_nat size - 1))) (of_Z (size - 1))) 1.
Proof.
  intros Hsize.
  assert (Hden : 0 < inject_Z (size - 1)).
  { change 0 with (inject_Z 0). rewrite <- Zlt_Qlt. lia. }
  eapply val_eq; [apply val_div; [apply val_of_Z|apply val_of_Z|lra]|].
  replace (Z.of_nat (Z.to_nat size - 1)) with (size - 1)%Z by lia.
  field. lra.
Qed.

End SplineExact.

(** The bisection of [lower_bound] ends before its fuel does: any fuel
    above the number of remaining elements gives the same index. *)
Lemma lower_bound_from_fuel `{DoubleOps D} (segs : list (SplineSegment D))
      (x : D) (fuel fuel' first len : nat) :
  (len < fuel)%nat -> (len < fuel')%nat ->
  lower_bound_from fuel segs x first len =
  lower_bound_from fuel' segs x first len.
Proof.
  revert fuel' first len.
  induction fuel as [|fuel IH]; intros fuel' first len Hf Hf'; [lia|].
  destruct fuel' as [|fuel']; [lia|]. cbn [lower_bound_from].
  destruct (Nat.eqb_spec len 0) as [|Hlen]; [reflexivity|].
  assert (Hhalf : (len / 2 < len)%nat) by (apply Nat.div_lt; lia).
  destruct (dltb _ x); apply IH; lia.
Qed.

(** In binary64 the last entry of the spline table is the last segment's
    cubic at its width, not the last point's y: for (0, 0), (0.5, 0.2),
    (1, 1) it is 1 - 2^-53 and not 1. *)
Lemma spline_last_sample_b64 (pow : f64 -> f64 -> f64) :
  exists lut,
    generateOptimizedLUT pow three_points_b64 CURVE_TYPE_CUBIC_SPLINE 5 =
    Some lut /\
    lut !! 4%nat = Some (S754_finite false 9007199254740991 (-53)) /\
    lut !! 4%nat <> Some (b64_frac 1 1).
Proof.
  eexists. split; [vm_compute; reflexivity|]. split; [reflexivity|].
  vm_compute. discriminate.
Qed.


Lemma three_points_valid : valid_points three_points.
Proof.
  split; [simpl; lia|]. split.
  - repeat constructor;
      (eexists; eexists; split; [reflexivity|]; split; [reflexivity|];
       split; split; discriminate).
  - unfold ordered_by. repeat constructor.
Qed.


(** ** C5: the identity table *)

(** *** The lookup of a byte in the identity table *)

Section IdentityTable.
Local Open Scope Q_scope.



Lemma identity_lut_lookup (n : nat) (k : Z) :
  (0 <= k < Z.of_nat n)%Z -> (2 <= n)%nat ->
  val (sample_x n (Z.to_nat k))
      (inject_Z k / inject_Z (Z.of_nat n - 1)).
Proof.
  intros Hk Hn.
  assert (Hden : 0 < inject_Z (Z.of_nat n - 1)).
  { change 0 with (inject_Z 0). rewrite <- Zlt_Qlt. lia. }
  unfold sample_x. rewrite Z2Nat.id by lia.
  apply val_div; [apply val_of_Z|apply val_of_Z|lra].
Qed.



End IdentityTable.

(** *** Byte writes into a buffer *)

Section Stores.
Implicit Types buf : list Z.
Implicit Types ws : list (Z * Z).

Lemma elem_of_zrange (n i : Z) : i ∈ zrange n <-> 0 <= i < n.
Proof.
  unfold zrange. rewrite list_elem_of_fmap. split.
  - intros (k & -> & Hk). apply elem_of_seq in Hk. lia.
  - intros Hi. exists (Z.to_nat i). split; [lia|].
    apply elem_of_seq. lia.
Qed.

Lemma load_byte buf off : byte_buffer buf -> 0 <= load buf off <= 255.
Proof.
  intros Hbuf. unfold load.
  destruct (buf !! Z.to_nat off) as [b|] eqn:E; simpl; [|lia].
  unfold byte_buffer in Hbuf. rewrite Forall_forall in Hbuf.
  apply Hbuf. by eapply list_elem_of_lookup_2.
Qed.

Lemma store_length buf off v : length (store buf off v) = length buf.
Proof. apply length_insert. Qed.

Lemma load_store_eq buf off v :
  0 <= off < Z.of_nat (length buf) -> load (store buf off v) off = v.
Proof.
  intros Hoff. unfold load, store.
  by rewrite list_lookup_insert_eq by lia.
Qed.

Lemma load_store_ne buf off off' v :
  0 <= off -> 0 <= off' -> off <> off' ->
  load (store buf off v) off' = load buf off'.
Proof.
  intros H0 H0' Hne. unfold load, store.
  by rewrite list_lookup_insert_ne by lia.
Qed.


Lemma run_stores_app buf ws ws' :
  run_stores buf (ws ++ ws') = run_stores (run_stores buf ws) ws'.
Proof. apply foldl_app. Qed.

Lemma run_stores_bind {B} buf (k : B -> list (Z * Z)) (l : list B) :
  run_stores buf (l ≫= k) = foldl (fun b x => run_stores b (k x)) buf l.
Proof.
  revert buf. induction l as [|x l IH]; intros buf; [done|].
  rewrite bind_cons, run_stores_app. apply IH.
Qed.

Lemma foldl_ext {A B} (f g : A -> B -> A) (a : A) (l : list B) :
  (forall a b, f a b = g a b) -> foldl f a l = foldl g a l.
Proof.
  intros Hfg. revert a. induction l as [|b l IH]; intros a; [done|].
  simpl. by rewrite Hfg, IH.
Qed.

(** A buffer keeps its byte where no write goes. *)
Lemma run_stores_other buf ws off :
  0 <= off -> (forall w, w ∈ ws -> 0 <= w.1 /\ w.1 <> off) ->
  load (run_stores buf ws) off = load buf off.
Proof.
  intros Hoff. revert buf. induction ws as [|w ws IH]; intros buf Hws; [done|].
  simpl. change (load (run_stores (store buf w.1 w.2) ws) off = load buf off).
  rewrite IH.
  - destruct (Hws w) as [H0 Hne]; [by left|].
    by apply load_store_ne.
  - intros w' Hw'. apply Hws. by right.
Qed.

(** After writes that stay inside the buffer and never write two values
    to one offset, every offset written holds the value written there. *)
Lemma run_stores_lookup buf ws :
  (forall w, w ∈ ws -> 0 <= w.1 < Z.of_nat (length buf)) ->
  (forall w w', w ∈ ws -> w' ∈ ws -> w.1 = w'.1 -> w.2 = w'.2) ->
  forall w, w ∈ ws -> load (run_stores buf ws) w.1 = w.2.
Proof.
  revert buf. induction ws as [|w1 ws IH]; intros buf Hin Hfun w Hw.
  - by apply elem_of_nil in Hw.
  - simpl. change (load (run_stores (store buf w1.1 w1.2) ws) w.1 = w.2).
    destruct (decide (w.1 ∈ ws.*1)) as [Hlater|Hnot].
    + apply list_elem_of_fmap in Hlater as (w' & Heq & Hw').
      rewrite Heq, (Hfun w w' Hw); [|by right|exact Heq].
      apply IH; [| |exact Hw'].
      * intros w2 Hw2. rewrite store_length. apply Hin. by right.
      * intros w2 w3 Hw2 Hw3. apply Hfun; by right.
    + assert (w = w1) as ->.
      { apply elem_of_cons in Hw as [->|Hw]; [done|].
        exfalso. apply Hnot. apply list_elem_of_fmap. by exists w. }
      rewrite run_stores_other.
      * apply load_store_eq. apply Hin. by left.
      * apply (Hin w1). by left.
      * intros w' Hw'. split; [apply (Hin w'); by right|].
        intros Heq. apply Hnot. apply list_elem_of_fmap. by exists w'.
Qed.
End Stores.

Section CopyImage.
Context {D : Type} `{DoubleOps D}.
Variable lut : list D.
Hypothesis lut_fixes_bytes : forall v, 0 <= v <= 255 -> lut_value lut v = v.

Lemma apply_pixel_copies input src_row dst_row out x :
  channels input = 3 \/ channels input = 4 ->
  byte_buffer (data input) ->
  apply_pixel lut input CHANNEL_RGB src_row dst_row out x =
  run_stores out (pixel_copy input src_row dst_row x).
Proof.
  intros Hch Hbytes. unfold apply_pixel, pixel_copy, run_stores.
  destruct Hch as [-> | ->].
  - change (3 =? 4) with false. change (Z.min 3 3) with 3.
    change (zrange 3) with [0; 1; 2]. cbn [map foldl fst snd].
    by rewrite !lut_fixes_bytes by (by apply load_byte).
  - change (4 =? 4) with true. change (Z.min 3 4) with 3.
    change (zrange 3) with [0; 1; 2]. change (zrange 4) with [0; 1; 2; 3].
    cbn [map foldl fst snd].
    by rewrite !lut_fixes_bytes by (by apply load_byte).
Qed.

Lemma applyLUTCPU_copies input output options :
  channels input = 3 \/ channels input = 4 ->
  byte_buffer (data input) ->
  data (applyLUTCPU lut input output CHANNEL_RGB options) =
  run_stores (data output) (image_copy input output).
Proof.
  intros Hch Hbytes. unfold applyLUTCPU, image_copy. cbn [data].
  rewrite run_stores_bind. apply foldl_ext. intros out y.
  rewrite run_stores_bind. apply foldl_ext. intros out' x.
  by apply apply_pixel_copies.
Qed.
End CopyImage.

Section ImageOffsets.
Variables input output : ImageData.
Hypothesis fits : image_fits input output.

Lemma image_copy_elem w :
  w ∈ image_copy input output <->
  exists y x c,
    0 <= y < height input /\ 0 <= x < width input /\
    0 <= c < channels input /\
    w = (y * stride output + x * channels input + c,
         load (data input) (y * stride input + x * channels input + c)).
Proof.
  unfold image_copy, pixel_copy. rewrite list_elem_of_bind. split.
  - intros (y & Hw & Hy). apply list_elem_of_bind in Hw as (x & Hw & Hx).
    apply list_elem_of_fmap in Hw as (c & -> & Hc).
    apply elem_of_zrange in Hy, Hx, Hc. by exists y, x, c.
  - intros (y & x & c & Hy & Hx & Hc & ->).
    exists y. split; [|by apply elem_of_zrange].
    apply list_elem_of_bind. exists x. split; [|by apply elem_of_zrange].
    apply list_elem_of_fmap. exists c. split; [done|by apply elem_of_zrange].
Qed.

Lemma offset_in_row x c :
  0 <= x < width input -> 0 <= c < channels input ->
  0 <= x * channels input + c < stride output.
Proof.
  destruct fits as (Hch & Hw & Hh & _ & _ & Hso & _).
  intros Hx Hc. nia.
Qed.

Lemma offset_in_buffer y x c :
  0 <= y < height input -> 0 <= x < width input ->
  0 <= c < channels input ->
  0 <= y * stride output + x * channels input + c
    < Z.of_nat (length (data output)).
Proof.
  intros Hy Hx Hc. pose proof (offset_in_row x c Hx Hc) as Hrow.
  destruct fits as (Hch & Hw & Hh & _ & _ & Hso & Hlen & _).
  nia.
Qed.

Lemma offset_injective y x c y' x' c' :
  0 <= y -> 0 <= y' ->
  0 <= x < width input -> 0 <= c < channels input ->
  0 <= x' < width input -> 0 <= c' < channels input ->
  y * stride output + x * channels input + c =
  y' * stride output + x' * channels input + c' ->
  y = y' /\ x = x' /\ c = c'.
Proof.
  intros Hy Hy' Hx Hc Hx' Hc' Heq.
  pose proof (offset_in_row x c Hx Hc) as Hrow.
  pose proof (offset_in_row x' c' Hx' Hc') as Hrow'.
  destruct (Z.div_mod_unique (stride output) y y'
              (x * channels input + c) (x' * channels input + c'))
    as [-> Hrest]; [by left|by left|lia|].
  split; [done|].
  destruct (Z.div_mod_unique (channels input) x x' c c')
    as [-> ->]; [by left|by left|lia|]. done.
Qed.
End ImageOffsets.

(** *** The image under a table that fixes every byte *)

Section CopiedImage.
Context {D : Type} `{DoubleOps D}.

Lemma image_kept_by_fixing_lut (lut : list D) input output options y x c :
  (forall v, 0 <= v <= 255 -> lut_value lut v = v) ->
  image_fits input output ->
  0 <= y < height input -> 0 <= x < width input ->
  0 <= c < channels input ->
  load (data (applyLUTToImage lut input output CHANNEL_RGB options))
       (y * stride output + x * channels input + c) =
  load (data input) (y * stride input + x * channels input + c).
Proof.
  intros Hlut Hfits Hy Hx Hc.
  assert (Hcpu : applyLUTToImage lut input output CHANNEL_RGB options =
                 applyLUTCPU lut input output CHANNEL_RGB options).
  { unfold applyLUTToImage, applyLUTGPU. by destruct (_ && _). }
  rewrite Hcpu.
  pose proof Hfits as (Hch & _ & _ & _ & _ & _ & _ & Hbytes).
  rewrite (applyLUTCPU_copies lut Hlut) by assumption.
  apply (run_stores_lookup (data output) (image_copy input output))
    with (w := (y * stride output + x * channels input + c,
                load (data input)
                     (y * stride input + x * channels input + c))).
  - intros w Hw.
    apply image_copy_elem in Hw as (y' & x' & c' & Hy' & Hx' & Hc' & ->).
    by apply offset_in_buffer.
  - intros w w' Hw Hw' Heq.
    apply image_copy_elem in Hw as (y1 & x1 & c1 & Hy1 & Hx1 & Hc1 & ->).
    apply image_copy_elem in Hw' as (y2 & x2 & c2 & Hy2 & Hx2 & Hc2 & ->).
    simpl in Heq |- *.
    destruct (offset_injective input output Hfits y1 x1 c1 y2 x2 c2)
      as (-> & -> & ->); [lia|lia|lia|lia|lia|lia|exact Heq|]. done.
  - apply image_copy_elem. by exists y, x, c.
Qed.
End CopiedImage.



Lemma pixel_images_fit : image_fits rgba_pixel_image blank_rgba_image.
Proof.
  unfold image_fits, byte_buffer. simpl.
  repeat split; try lia; try (by right).
  repeat constructor; lia.
Qed.


(** ** The byte writes of [applyLUTCPU] *)

Section PixelStores.
Context {D : Type} `{DoubleOps D}.

Lemma foldl_store_map {A} (g h : A -> Z) (out : list Z) (l : list A) :
  foldl (fun out c => store out (g c) (h c)) out l =
  run_stores out (map (fun c => (g c, h c)) l).
Proof.
  revert out. induction l as [|c l IH]; intros out; [done|].
  simpl. apply IH.
Qed.

Lemma foldl_store_skip (p : Z -> bool) (g h : Z -> Z) (out : list Z)
      (l : list Z) :
  foldl (fun out c => if p c then out else store out (g c) (h c)) out l =
  run_stores out (flat_map (fun c => if p c then [] else [(g c, h c)]) l).
Proof.
  revert out. induction l as [|c l IH]; intros out; [done|].
  simpl. destruct (p c); simpl; apply IH.
Qed.

Lemma apply_pixel_stores (lut : list D) input channel src_row dst_row out x :
  apply_pixel lut input channel src_row dst_row out x =
  run_stores out (pixel_stores lut input channel src_row dst_row x).
Proof.
  unfold apply_pixel, pixel_stores. rewrite run_stores_app.
  assert (Halpha : forall o : list Z,
    (if channels input =? 4
     then store o (dst_row + x * channels input + 3)
                (load (data input) (src_row + x * channels input + 3))
     else o) =
    run_stores o
      (if channels input =? 4
       then [(dst_row + x * channels input + 3,
              load (data input) (src_row + x * channels input + 3))]
       else [])).
  { intros o. by destruct (channels input =? 4). }
  rewrite <- Halpha. 
  destruct channel; cbv zeta;
    try (by rewrite (foldl_store_map
              (fun c => dst_row + x * channels input + c)
              (fun c => lut_value lut
                          (load (data input)
                                (src_row + x * channels input + c)))));
    try (destruct (_ && _); [|reflexivity];
         by rewrite (foldl_store_skip
              (fun c => c =? getChannelIndex _)
              (fun c => dst_row + x * channels input + c)
              (fun c => load (data input)
                          (src_row + x * channels input + c)))).
Qed.

Lemma applyLUTCPU_stores (lut : list D) input output channel options :
  data (applyLUTCPU lut input output channel options) =
  run_stores (data output) (image_stores lut input output channel).
Proof.
  unfold applyLUTCPU, image_stores. cbn [data].
  rewrite run_stores_bind. apply foldl_ext. intros out y.
  rewrite run_stores_bind. apply foldl_ext. intros out' x.
  apply apply_pixel_stores.
Qed.

Lemma applyLUTToImage_cpu (lut : list D) input output channel options :
  applyLUTToImage lut input output channel options =
  applyLUTCPU lut input output channel options.
Proof. unfold applyLUTToImage, applyLUTGPU. by destruct (_ && _). Qed.

End PixelStores.

Section StoreOffsets.
Context {D : Type} `{DoubleOps D}.
Variable lut : list D.

Lemma pixel_stores_offset input channel src_row dst_row x w :
  w ∈ pixel_stores lut input channel src_row dst_row x ->
  exists c, 0 <= c < channels input /\
            w.1 = dst_row + x * channels input + c.
Proof.
  unfold pixel_stores. rewrite elem_of_app. intros [Hw|Hw].
  - destruct channel;
      try (apply list_elem_of_fmap in Hw as (c & -> & Hc);
           apply elem_of_zrange in Hc; exists c; split; [lia|done]);
      (match type of Hw with
       | context [getChannelIndex ?ch] =>
           generalize dependent (getChannelIndex ch)
       end; intros idx Hw;
       destruct (Z.leb_spec 0 idx) as [H0|]; cbn [andb] in Hw;
         [|by apply elem_of_nil in Hw];
       destruct (Z.ltb_spec idx (channels input)) as [H1|];
         [|by apply elem_of_nil in Hw];
       apply elem_of_cons in Hw as [->|Hw]; [eexists; split; [|done]; lia|];
       apply list_elem_of_In, in_flat_map in Hw as (c & Hc & Hw);
       apply list_elem_of_In, elem_of_zrange in Hc;
       destruct (c =? idx); [destruct Hw|];
       destruct Hw as [<-|[]]; exists c; split; [lia|done]).
  - destruct (Z.eqb_spec (channels input) 4) as [E|];
      [|by apply elem_of_nil in Hw].
    apply list_elem_of_singleton in Hw as ->. exists 3. split; [lia|done].
Qed.

Lemma image_stores_offset input output channel w :
  w ∈ image_stores lut input output channel ->
  exists y x c,
    0 <= y < height input /\ 0 <= x < width input /\
    0 <= c < channels input /\
    w.1 = y * stride output + x * channels input + c.
Proof.
  unfold image_stores. intros Hw.
  apply list_elem_of_bind in Hw as (y & Hw & Hy).
  apply list_elem_of_bind in Hw as (x & Hw & Hx).
  apply elem_of_zrange in Hy, Hx.
  apply pixel_stores_offset in Hw as (c & Hc & Hw).
  by exists y, x, c.
Qed.

Lemma pixel_stores_elem input channel src_row dst_row x w :
  channels input = 3 \/ channels input = 4 -> color_target channel = true ->
  w ∈ pixel_stores lut input channel src_row dst_row x <->
  exists c, 0 <= c < channels input /\
    w = (dst_row + x * channels input + c,
         let v := load (data input) (src_row + x * channels input + c) in
         if targeted channel c then lut_value lut v else v).
Proof.
  intros Hch Hcol. unfold pixel_stores.
  destruct Hch as [-> | ->]; destruct channel; try discriminate Hcol;
    cbn [getChannelIndex Z.leb Z.ltb Z.compare andb Z.eqb Z.min
         Pos.compare Pos.compare_cont Pos.eqb];
    change (Z.min 3 3) with 3; change (Z.min 3 4) with 3;
    change (zrange 3) with [0; 1; 2]; change (zrange 4) with [0; 1; 2; 3];
    cbn [map flat_map app Z.eqb Pos.eqb];
    (split;
     [ rewrite ?elem_of_cons, elem_of_nil;
       intros Hw; repeat (destruct Hw as [->|Hw]); try (destruct Hw);
       first [ by (exists 0; split; [lia|]) | by (exists 1; split; [lia|])
             | by (exists 2; split; [lia|]) | by (exists 3; split; [lia|]) ]
     | intros (c & Hc & ->);
       assert (c = 0 \/ c = 1 \/ c = 2 \/ c = 3) as [->|[->|[->| ->]]] by lia;
       try lia; cbn [targeted Z.ltb Z.eqb Z.compare Pos.compare Pos.eqb
                     Pos.compare_cont getChannelIndex];
       rewrite ?elem_of_cons; tauto ]).
Qed.

End StoreOffsets.

Section WrittenSamples.
Context {D : Type} `{DoubleOps D}.
Variable lut : list D.

Lemma image_stores_elem input output channel w :
  channels input = 3 \/ channels input = 4 -> color_target channel = true ->
  w ∈ image_stores lut input output channel <->
  exists y x c,
    0 <= y < height input /\ 0 <= x < width input /\
    0 <= c < channels input /\
    w = (y * stride output + x * channels input + c,
         let v := load (data input)
                       (y * stride input + x * channels input + c) in
         if targeted channel c then lut_value lut v else v).
Proof.
  intros Hch Hcol. unfold image_stores. rewrite list_elem_of_bind. split.
  - intros (y & Hw & Hy). apply list_elem_of_bind in Hw as (x & Hw & Hx).
    apply (pixel_stores_elem lut) in Hw as (c & Hc & ->); [|done|done].
    apply elem_of_zrange in Hy, Hx. by exists y, x, c.
  - intros (y & x & c & Hy & Hx & Hc & ->).
    exists y. split; [|by apply elem_of_zrange].
    apply list_elem_of_bind. exists x. split; [|by apply elem_of_zrange].
    apply (pixel_stores_elem lut); [done|done|]. by exists c.
Qed.

(** Every sample of the output is the table applied to the input sample in
    a targeted channel, and the input sample in the other channels. *)
Lemma image_sample_written input output channel options y x c :
  image_fits input output -> color_target channel = true ->
  0 <= y < height input -> 0 <= x < width input ->
  0 <= c < channels input ->
  load (data (applyLUTToImage lut input output channel options))
       (y * stride output + x * channels input + c) =
  let v := load (data input) (y * stride input + x * channels input + c) in
  if targeted channel c then lut_value lut v else v.
Proof.
  intros Hfits Hcol Hy Hx Hc.
  rewrite applyLUTToImage_cpu, applyLUTCPU_stores.
  pose proof Hfits as (Hch & _).
  set (v := load (data input) (y * stride input + x * channels input + c)).
  apply (run_stores_lookup (data output)
                           (image_stores lut input output channel))
    with (w := (y * stride output + x * channels input + c,
                if targeted channel c then lut_value lut v else v)).
  - intros w Hw.
    apply image_stores_offset in Hw as (y' & x' & c' & Hy' & Hx' & Hc' & ->).
    by apply offset_in_buffer.
  - intros w w' Hw Hw' Heq.
    apply image_stores_elem in Hw as (y1 & x1 & c1 & Hy1 & Hx1 & Hc1 & ->);
      [|done|done].
    apply image_stores_elem in Hw' as (y2 & x2 & c2 & Hy2 & Hx2 & Hc2 & ->);
      [|done|done].
    simpl in Heq |- *.
    destruct (offset_injective input output Hfits y1 x1 c1 y2 x2 c2)
      as (-> & -> & ->); [lia|lia|lia|lia|lia|lia|exact Heq|]. done.
  - apply image_stores_elem; [done|done|]. by exists y, x, c.
Qed.


End WrittenSamples.







(** ** Curves applied to images, in binary64 *)

Section CreatedCurve.
Context {D : Type} `{DoubleOps D}.

Lemma curve_create_success
      (std_sort : (CurvePoint D -> CurvePoint D -> bool) ->
                  list (CurvePoint D) -> list (CurvePoint D))
      (st : EngineState) (pts : list (CurvePoint D)) (n : Z) (ty : CurveType) :
  g_initialized st = true -> 2 <= n ->
  curve_create std_sort st (Some pts) n ty true =
  (CURVE_SUCCESS,
   Some (mkCurve (std_sort by_x (clamp_points pts n)) n ty CHANNEL_RGB
                 (of_Z 1) (of_Z 0) (of_Z 1) DEFAULT_LUT_SIZE)).
Proof.
  intros Hinit Hn. unfold curve_create. rewrite Hinit.
  destruct (Z.ltb_spec n 2); [lia|]. reflexivity.
Qed.

(** A sort that meets the contract leaves two elements in order alone. *)
Lemma sort_two {A} (sort : (A -> A -> bool) -> list A -> list A)
      (lt : A -> A -> bool) (a b : A) :
  sort_contract sort ->
  lt a b = true -> lt b a = false -> lt a a = false -> lt b b = false ->
  sort lt [a; b] = [a; b].
Proof.
  intros Hsort Hab Hba Haa Hbb.
  destruct (Hsort lt [a; b]) as [Hperm Hord].
  { split.
    - intros x y Hx Hy. revert Hx Hy. rewrite !elem_of_cons, !elem_of_nil.
      intros [->|[->|[]]] [->|[->|[]]]; congruence.
    - intros x y z Hx Hy Hz. revert Hx Hy Hz.
      rewrite !elem_of_cons, !elem_of_nil.
      intros [->|[->|[]]] [->|[->|[]]] [->|[->|[]]]; intros; try congruence;
        auto. }
  symmetry in Hperm. apply Permutation_length_2_inv in Hperm as [->| Heq].
  - reflexivity.
  - rewrite Heq in Hord. unfold ordered_by in Hord.
    apply StronglySorted_cons in Hord as [Hfirst _].
    rewrite Forall_singleton in Hfirst. congruence.
Qed.
End CreatedCurve.

(** In binary64 the table of 4096 zeros sends every byte to 0. *)
Lemma zero_table_b64 (v : Z) :
  0 <= v <= 255 -> lut_value (replicate 4096 (b64_of_Z 0)) v = 0.
Proof.
  intros Hv.
  assert (Hall : (let lut := replicate 4096 (b64_of_Z 0) in
                  forallb (fun v => lut_value lut v =? 0) (zrange 256)) =
                 true) by (vm_compute; reflexivity).
  cbv zeta in Hall. rewrite forallb_forall in Hall.
  apply Z.eqb_eq, Hall, list_elem_of_In, elem_of_zrange. lia.
Qed.

(** X4.  In binary64: a curve whose type is none of the five enumerated
    ones is created by [curve_create] (from at least two points), and
    [curve_apply_to_image] applies it with success: every sample of
    channel 0, 1 or 2 of the result is 0, whatever the input, and alpha is
    copied. *)
Theorem unknown_type_blacks_out_the_image :
  forall (pow : f64 -> f64 -> f64)
         (std_sort : (CurvePoint f64 -> CurvePoint f64 -> bool) ->
                     list (CurvePoint f64) -> list (CurvePoint f64))
         (st : EngineState) (pts : list (CurvePoint f64)) (n : Z)
         (ty : CurveType) (input output : ImageData)
         (options : option ProcessingOptions),
    g_initialized st = true -> 2 <= n -> ~ enumerated_type ty ->
    image_fits input output ->
    exists curve result,
      curve_create std_sort st (Some pts) n ty true =
      (CURVE_SUCCESS, Some curve) /\
      curve_apply_to_image pow st (Some curve) (Some input) (Some output)
                           options = (CURVE_SUCCESS, Some result) /\
      forall y x c,
        0 <= y < height input -> 0 <= x < width input ->
        0 <= c < channels input ->
        load (data result) (y * stride output + x * channels input + c) =
        if c <? 3 then 0
        else load (data input) (y * stride input + x * channels input + c).
Proof.
  intros pow std_sort st pts n ty input output options Hinit Hn Hty Hfits.
  eexists; eexists. split; [by apply curve_create_success|].
  unfold curve_apply_to_image. rewrite Hinit. cbn [negb type lut_size channel].
  rewrite generateOptimizedLUT_unknown_type by (done || done).
  split; [reflexivity|]. intros y x c Hy Hx Hc.
  rewrite image_sample_written by done.
  cbv zeta. cbn [targeted]. destruct (c <? 3); [|done].
  apply zero_table_b64. apply load_byte. apply Hfits.
Qed.

Lemma unknown_type_blacks_out_the_image_witness :
  exists curve result,
    curve_create insertion_sort (mkState true) (Some three_points_b64) 3 7
                 true = (CURVE_SUCCESS, Some curve) /\
    curve_apply_to_image (fun x _ : f64 => x) (mkState true) (Some curve)
                         (Some rgba_pixel_image) (Some blank_rgba_image)
                         None = (CURVE_SUCCESS, Some result) /\
    forall y x c,
      0 <= y < height rgba_pixel_image -> 0 <= x < width rgba_pixel_image ->
      0 <= c < channels rgba_pixel_image ->
      load (data result)
           (y * stride blank_rgba_image + x * channels rgba_pixel_image + c) =
      if c <? 3 then 0
      else load (data rgba_pixel_image)
                (y * stride rgba_pixel_image + x * channels rgba_pixel_image
                 + c).
Proof.
  apply (unknown_type_blacks_out_the_image (fun x _ => x) insertion_sort
           (mkState true) three_points_b64 3 7 rgba_pixel_image
           blank_rgba_image None).
  - reflexivity.
  - lia.
  - unfold enumerated_type. intros [?|[?|[?|[?|?]]]]; discriminate.
  - exact pixel_images_fit.
Defined.

Section TableOfEntries.
Context {D : Type} `{DoubleOps D}.

Lemma lut_value_map (f : nat -> D) (n : nat) (v : Z) :
  (1 <= n)%nat -> Z.of_nat n < 2 ^ 64 ->
  lut_value (map f (seq 0 n)) v = lut_value_of f n v.
Proof.
  intros Hn Hsmall. unfold lut_value, lut_value_of.
  rewrite length_map, length_seq.
  rewrite (Z.mod_small (Z.of_nat n - 1)) by lia.
  assert (Hlook : forall k, (k < n)%nat -> map f (seq 0 n) !!! k = f k).
  { intros k Hk. apply list_lookup_total_correct.
    by rewrite list_lookup_fmap, lookup_seq_lt by lia. }
  set (idx := dtrunc (dmul (ddiv (of_Z v) (of_Z 255))
                           (of_Z (Z.of_nat n - 1)))).
  destruct (Z.geb_spec idx (Z.of_nat n - 1)) as [Hge|Hlt].
  - rewrite Hlook by lia. by replace (Z.to_nat (Z.of_nat n - 1)) with (n - 1)%nat by lia.
  - by rewrite !Hlook by lia.
Qed.

Lemma fixes_bytes_of_check (f : nat -> D) (n : nat) :
  (1 <= n)%nat -> Z.of_nat n < 2 ^ 64 ->
  forallb (fun v => lut_value_of f n v =? v) (zrange 256) = true ->
  forall v, 0 <= v <= 255 -> lut_value (map f (seq 0 n)) v = v.
Proof.
  intros Hn Hsmall Hall v Hv. rewrite lut_value_map by assumption.
  rewrite forallb_forall in Hall.
  apply Z.eqb_eq, Hall, list_elem_of_In, elem_of_zrange. lia.
Qed.
End TableOfEntries.

Section DiagonalCurve.
Variable pow : f64 -> f64 -> f64.
Hypothesis pow_one : b64_pow_exponent_one pow.

Lemma diagonal_table_fixes_bytes (ty : CurveType) :
  enumerated_type ty ->
  exists lut,
    generateOptimizedLUT pow diagonal_b64 ty DEFAULT_LUT_SIZE = Some lut /\
    forall v, 0 <= v <= 255 -> lut_value lut v = v.
Proof.
  intros Hty. unfold generateOptimizedLUT.
  change (DEFAULT_LUT_SIZE <? 0) with false. cbv iota.
  change (Z.to_nat DEFAULT_LUT_SIZE) with 4096%nat.
  eexists. split; [reflexivity|].
  destruct Hty as [->|[->|[->|[->| ->]]]].
  - change (CURVE_TYPE_LINEAR =? CURVE_TYPE_LINEAR) with true. cbv iota.
    unfold generateLinearLUT. rewrite fill_spec, length_replicate.
    apply fixes_bytes_of_check; [lia|lia|]. vm_compute. reflexivity.
  - change (CURVE_TYPE_CUBIC_SPLINE =? CURVE_TYPE_LINEAR) with false.
    change (CURVE_TYPE_CUBIC_SPLINE =? CURVE_TYPE_CUBIC_SPLINE) with true.
    cbv iota.
    unfold generateCubicSplineLUT. rewrite fill_spec, length_replicate.
    apply fixes_bytes_of_check; [lia|lia|]. vm_compute. reflexivity.
  - change (CURVE_TYPE_BEZIER =? CURVE_TYPE_LINEAR) with false.
    change (CURVE_TYPE_BEZIER =? CURVE_TYPE_CUBIC_SPLINE) with false.
    change (CURVE_TYPE_BEZIER =? CURVE_TYPE_BEZIER) with true.
    cbv iota.
    unfold generateBezierLUT. rewrite fill_spec, length_replicate.
    apply fixes_bytes_of_check; [lia|lia|]. vm_compute. reflexivity.
  - change (CURVE_TYPE_PARAMETRIC =? CURVE_TYPE_LINEAR) with false.
    change (CURVE_TYPE_PARAMETRIC =? CURVE_TYPE_CUBIC_SPLINE) with false.
    change (CURVE_TYPE_PARAMETRIC =? CURVE_TYPE_BEZIER) with false.
    change (CURVE_TYPE_PARAMETRIC =? CURVE_TYPE_PARAMETRIC) with true.
    cbv iota.
    unfold generateParametricLUT. rewrite fill_spec, length_replicate.
    change (parametric_gamma diagonal_b64) with (b64_of_Z 1).
    rewrite (map_ext _
      (fun i : nat =>
         clamp (dadd (parametric_lift diagonal_b64)
                     (dmul (dsub (parametric_gain diagonal_b64)
                                 (parametric_lift diagonal_b64))
                           (sample_x 4096 i)))
               (b64_of_Z 0) (b64_of_Z 1)))
      by (intros i; cbv zeta; by rewrite pow_one).
    apply fixes_bytes_of_check; [lia|lia|]. vm_compute. reflexivity.
  - change (CURVE_TYPE_AI_OPTIMIZED =? CURVE_TYPE_LINEAR) with false.
    change (CURVE_TYPE_AI_OPTIMIZED =? CURVE_TYPE_CUBIC_SPLINE) with false.
    change (CURVE_TYPE_AI_OPTIMIZED =? CURVE_TYPE_BEZIER) with false.
    change (CURVE_TYPE_AI_OPTIMIZED =? CURVE_TYPE_PARAMETRIC) with false.
    change (CURVE_TYPE_AI_OPTIMIZED =? CURVE_TYPE_AI_OPTIMIZED) with true.
    cbv iota.
    unfold generateAIOptimizedLUT, generateCubicSplineLUT.
    rewrite fill_spec, length_replicate.
    apply fixes_bytes_of_check; [lia|lia|]. vm_compute. reflexivity.
Qed.
End DiagonalCurve.

Lemma diagonal_sorted
      (std_sort : (CurvePoint f64 -> CurvePoint f64 -> bool) ->
                  list (CurvePoint f64) -> list (CurvePoint f64)) :
  sort_contract std_sort ->
  std_sort by_x (clamp_points diagonal_b64 2) = diagonal_b64.
Proof.
  intros Hsort.
  change (clamp_points diagonal_b64 2)
    with [b64_point 0 1 0 1; b64_point 1 1 1 1].
  apply (sort_two std_sort by_x); [exact Hsort|reflexivity..].
Qed.

(** X5.  In binary64: the curve through (0, 0) and (1, 1), created with
    any of the five enumerated types and applied through
    [curve_apply_to_image] at the default table size, leaves every sample
    of the image as it is.  [std::sort] meets its contract and
    [pow(x, 1.0)] is [x]. *)
Theorem diagonal_curve_preserves_the_image :
  forall (pow : f64 -> f64 -> f64)
         (std_sort : (CurvePoint f64 -> CurvePoint f64 -> bool) ->
                     list (CurvePoint f64) -> list (CurvePoint f64))
         (st : EngineState) (ty : CurveType) (input output : ImageData)
         (options : option ProcessingOptions),
    sort_contract std_sort -> b64_pow_exponent_one pow ->
    g_initialized st = true -> enumerated_type ty ->
    image_fits input output ->
    exists curve result,
      curve_create std_sort st (Some diagonal_b64) 2 ty true =
      (CURVE_SUCCESS, Some curve) /\
      curve_apply_to_image pow st (Some curve) (Some input) (Some output)
                           options = (CURVE_SUCCESS, Some result) /\
      forall y x c,
        0 <= y < height input -> 0 <= x < width input ->
        0 <= c < channels input ->
        load (data result) (y * stride output + x * channels input + c) =
        load (data input) (y * stride input + x * channels input + c).
Proof.
  intros pow std_sort st ty input output options Hsort Hpow Hinit Hty Hfits.
  destruct (diagonal_table_fixes_bytes pow Hpow ty Hty) as (lut & Hgen & Hlut).
  eexists; eexists. split; [by apply curve_create_success|].
  unfold curve_apply_to_image. rewrite Hinit.
  cbn [negb type lut_size channel].
  unfold curve_points. cbn [points point_count].
  rewrite (diagonal_sorted std_sort Hsort).
  change (take (Z.to_nat 2) diagonal_b64) with diagonal_b64.
  rewrite Hgen. split; [reflexivity|]. intros y x c Hy Hx Hc.
  by apply image_kept_by_fixing_lut.
Qed.

Lemma diagonal_curve_preserves_the_image_witness :
  exists curve result,
    curve_create insertion_sort (mkState true) (Some diagonal_b64) 2
                 CURVE_TYPE_PARAMETRIC true = (CURVE_SUCCESS, Some curve) /\
    curve_apply_to_image (fun x _ : f64 => x) (mkState true) (Some curve)
                         (Some rgba_pixel_image) (Some blank_rgba_image)
                         None = (CURVE_SUCCESS, Some result) /\
    forall y x c,
      0 <= y < height rgba_pixel_image -> 0 <= x < width rgba_pixel_image ->
      0 <= c < channels rgba_pixel_image ->
      load (data result)
           (y * stride blank_rgba_image + x * channels rgba_pixel_image + c) =
      load (data rgba_pixel_image)
           (y * stride rgba_pixel_image + x * channels rgba_pixel_image + c).
Proof.
  apply (diagonal_curve_preserves_the_image (fun x _ => x) insertion_sort
           (mkState true) CURVE_TYPE_PARAMETRIC rgba_pixel_image
           blank_rgba_image None).
  - apply insertion_sort_contract.
  - intros x. reflexivity.
  - reflexivity.
  - right. right. right. by left.
  - exact pixel_images_fit.
Defined.

(** ** Created curves whose points have different abscissas *)

Section DifferentAbscissas.
Implicit Types l : list (CurvePoint exact).




End DifferentAbscissas.




(** ** The equations of the spline solver *)

Section BackSubstitution.
Context {D : Type} `{DoubleOps D}.
Variable pts : list (CurvePoint D).
Variables h mu z : list D.
Let n := length pts.

Lemma back_loop_equations (m : nat) (c b d : list D) :
  (m <= n - 1)%nat ->
  length c = n -> length b = (n - 1)%nat -> length d = (n - 1)%nat ->
  (forall j, (m <= j < n - 1)%nat -> back_equations pts h mu z c b d j) ->
  exists c' b' d',
    foldl (back_step pts h mu z) (c, b, d) (rev (seq 0 m)) = (c', b', d') /\
    (forall j, (m <= j)%nat -> c' !!! j = c !!! j) /\
    forall j, (j < n - 1)%nat -> back_equations pts h mu z c' b' d' j.
Proof.
  revert c b d. induction m as [|m IH]; intros c b d Hm Hc Hb Hd Heq.
  - exists c, b, d. split; [reflexivity|]. split; [done|].
    intros j Hj. apply Heq. lia.
  - rewrite seq_S, rev_app_distr. cbn [rev app foldl Nat.add back_step].
    set (cm := dsub (z !!! m) (dmul (mu !!! m) (c !!! S m))).
    set (c1 := <[m := cm]> c).
    set (b1 := <[m := _]> b). set (d1 := <[m := _]> d).
    destruct (IH c1 b1 d1) as (c' & b' & d' & Hfold & Hkeep & Heqs).
    + lia.
    + unfold c1. by rewrite length_insert.
    + unfold b1. by rewrite length_insert.
    + unfold d1. by rewrite length_insert.
    + intros j Hj. unfold back_equations.
      destruct (decide (j = m)) as [->|Hne].
      * unfold b1, d1.
        rewrite !list_lookup_total_insert_eq by lia.
        split; [|done]. unfold c1.
        rewrite list_lookup_total_insert_eq by lia.
        by rewrite list_lookup_total_insert_ne by lia.
      * unfold b1, d1, c1.
        rewrite !list_lookup_total_insert_ne by lia.
        apply Heq. lia.
    + exists c', b', d'. split; [exact Hfold|]. split; [|exact Heqs].
      intros j Hj. rewrite Hkeep by lia. unfold c1.
      by rewrite list_lookup_total_insert_ne by lia.
Qed.

Lemma spline_back_equations :
  (2 <= n)%nat ->
  exists c b d,
    spline_back pts h mu z = (c, b, d) /\
    c !!! (n - 1)%nat = of_Z 0 /\
    forall j, (j < n - 1)%nat -> back_equations pts h mu z c b d j.
Proof.
  intros Hn. unfold spline_back. fold n.
  destruct (back_loop_equations (n - 1)
              (<[(n - 1)%nat := of_Z 0]> (replicate n (of_Z 0)))
              (replicate (n - 1) (of_Z 0)) (replicate (n - 1) (of_Z 0)))
    as (c & b & d & Hfold & Hkeep & Heqs).
  - lia.
  - by rewrite length_insert, length_replicate.
  - apply length_replicate.
  - apply length_replicate.
  - intros j Hj. lia.
  - exists c, b, d. split; [exact Hfold|]. split; [|exact Heqs].
    rewrite Hkeep by lia.
    apply list_lookup_total_insert_eq. rewrite length_replicate. lia.
Qed.
End BackSubstitution.

Section InsertLookup.
Context {A : Type} `{Inhabited A}.

Lemma foldl_insert_other (f : nat -> A) (idx : list nat) (a : list A) j :
  j ∉ idx ->
  foldl (fun a i => <[i := f i]> a) a idx !!! j = a !!! j.
Proof.
  revert a. induction idx as [|i idx IH]; intros a Hj; [done|].
  cbn [foldl]. rewrite IH by (intros ?; apply Hj; by right).
  apply list_lookup_total_insert_ne. intros ->. apply Hj. by left.
Qed.

Lemma foldl_insert_lookup (f : nat -> A) (idx : list nat) (a : list A) j :
  (j < length a)%nat -> j ∈ idx ->
  foldl (fun a i => <[i := f i]> a) a idx !!! j = f j.
Proof.
  revert a. induction idx as [|i idx IH]; intros a Hlen Hj.
  - by apply elem_of_nil in Hj.
  - cbn [foldl]. destruct (decide (j ∈ idx)) as [Hin|Hnot].
    + apply IH; [by rewrite length_insert|exact Hin].
    + apply elem_of_cons in Hj as [->|Hj]; [|done].
      rewrite foldl_insert_other by done.
      by apply list_lookup_total_insert_eq.
Qed.
End InsertLookup.

Section ForwardElimination.
Context {D : Type} `{DoubleOps D}.
Variable pts : list (CurvePoint D).
Variables h alpha : list D.
Let n := length pts.

Lemma forward_loop_equations (k : nat) :
  (2 <= n)%nat -> (k <= n - 2)%nat ->
  exists l mu z,
    foldl (forward_step pts h alpha)
          (<[0%nat := of_Z 1]> (replicate n (of_Z 0)),
           <[0%nat := of_Z 0]> (replicate n (of_Z 0)),
           <[0%nat := of_Z 0]> (replicate n (of_Z 0)))
          (seq 1 k) = (l, mu, z) /\
    length l = n /\ length mu = n /\ length z = n /\
    mu !!! 0%nat = of_Z 0 /\ z !!! 0%nat = of_Z 0 /\
    forall j, (1 <= j <= k)%nat -> forward_equations pts h alpha l mu z j.
Proof.
  intros Hn. induction k as [|k IH]; intros Hk.
  - eexists; eexists; eexists. split; [reflexivity|].
    rewrite !length_insert, !length_replicate.
    split; [done|]. split; [done|]. split; [done|].
    split; [apply list_lookup_total_insert_eq; rewrite length_replicate; lia|].
    split; [apply list_lookup_total_insert_eq; rewrite length_replicate; lia|].
    intros j Hj. lia.
  - destruct IH as (l & mu & z & Hfold & Hll & Hlmu & Hlz & Hmu0 & Hz0 & Heqs);
      [lia|].
    rewrite seq_S, foldl_snoc, Hfold. cbn [forward_step].
    set (i := (1 + k)%nat).
    set (l1 := <[i := _]> l). set (mu1 := <[i := _]> mu).
    set (z1 := <[i := _]> z).
    exists l1, mu1, z1. split; [reflexivity|].
    unfold l1, mu1, z1. rewrite !length_insert.
    split; [done|]. split; [done|]. split; [done|].
    split; [rewrite list_lookup_total_insert_ne by (unfold i; lia); done|].
    split; [rewrite list_lookup_total_insert_ne by (unfold i; lia); done|].
    intros j Hj. unfold forward_equations.
    destruct (decide (j = i)) as [->|Hne].
    + rewrite !list_lookup_total_insert_eq by (unfold i; lia).
      rewrite !(list_lookup_total_insert_ne _ i (i - 1)) by (unfold i; lia).
      unfold l1.
      rewrite !list_lookup_total_insert_eq by (unfold i; lia). done.
    + assert (Hjk : (1 <= j <= k)%nat) by (unfold i in *; lia).
      rewrite !(list_lookup_total_insert_ne _ i j) by done.
      rewrite !(list_lookup_total_insert_ne _ i (j - 1)) by (unfold i; lia).
      by apply Heqs.
Qed.

Lemma spline_forward_equations :
  (2 <= n)%nat ->
  exists l mu z,
    spline_forward pts h alpha = (l, mu, z) /\
    mu !!! 0%nat = of_Z 0 /\ z !!! 0%nat = of_Z 0 /\
    forall j, (1 <= j)%nat -> (S j < n)%nat ->
              forward_equations pts h alpha l mu z j.
Proof.
  intros Hn. unfold spline_forward. fold n.
  destruct (forward_loop_equations (n - 2))
    as (l & mu & z & -> & Hll & Hlmu & Hlz & Hmu0 & Hz0 & Heqs); [lia|lia|].
  eexists; eexists; eexists. split; [reflexivity|].
  split; [exact Hmu0|].
  split; [by rewrite list_lookup_total_insert_ne by lia|].
  intros j Hj1 Hj2. unfold forward_equations.
  rewrite !(list_lookup_total_insert_ne _ (n - 1)%nat j) by lia.
  rewrite !(list_lookup_total_insert_ne _ (n - 1)%nat (j - 1)%nat) by lia.
  apply Heqs. lia.
Qed.

Lemma spline_alpha_lookup (j : nat) :
  (1 <= j)%nat -> (S j < n)%nat ->
  spline_alpha pts h !!! j =
  dsub (dmul (ddiv (of_Z 3) (h !!! j))
             (dsub (cp_y (pts !!! S j)) (cp_y (pts !!! j))))
       (dmul (ddiv (of_Z 3) (h !!! (j - 1)%nat))
             (dsub (cp_y (pts !!! j)) (cp_y (pts !!! (j - 1)%nat)))).
Proof.
  intros Hj1 Hj2. unfold spline_alpha. fold n.
  rewrite (foldl_insert_lookup
             (fun i => dsub (dmul (ddiv (of_Z 3) (h !!! i))
                                  (dsub (cp_y (pts !!! S i))
                                        (cp_y (pts !!! i))))
                            (dmul (ddiv (of_Z 3) (h !!! (i - 1)%nat))
                                  (dsub (cp_y (pts !!! i))
                                        (cp_y (pts !!! (i - 1)%nat)))))).
  - reflexivity.
  - rewrite length_replicate. lia.
  - apply elem_of_seq. lia.
Qed.
End ForwardElimination.

(** ** The binary search of [evaluate] *)

Section PartitionPoint.
Context {D : Type} `{DoubleOps D}.
Variable segs : list (SplineSegment D).
Variable x : D.
Let p (i : nat) : bool := dltb (x_end (segs !!! i)) x.
Hypothesis p_monotone :
  forall i j, (i <= j)%nat -> (j < length segs)%nat -> p j = true -> p i = true.

(** The bisection returns the partition point of the predicate
    [x_end < x]. *)
Lemma lower_bound_from_spec (fuel first len : nat) :
  (len < fuel)%nat -> (first + len <= length segs)%nat ->
  (forall i, (i < first)%nat -> p i = true) ->
  (forall i, (first + len <= i)%nat -> (i < length segs)%nat -> p i = false) ->
  let r := lower_bound_from fuel segs x first len in
  (first <= r <= first + len)%nat /\
  (forall i, (i < r)%nat -> p i = true) /\
  (forall i, (r <= i)%nat -> (i < length segs)%nat -> p i = false).
Proof.
  revert first len.
  induction fuel as [|fuel IH]; intros first len Hfuel Hlen Hlow Hhigh;
    [lia|].
  cbn [lower_bound_from].
  destruct (Nat.eqb_spec len 0) as [->|Hne].
  { cbv zeta. split; [lia|]. split; [exact Hlow|].
    intros i Hi. apply Hhigh. lia. }
  assert (Hhalf : (len / 2 < len)%nat) by (apply Nat.div_lt; lia).
  set (half := (len / 2)%nat) in *. clearbody half.
  set (middle := (first + half)%nat).
  fold (p middle). destruct (p middle) eqn:Hp.
  - destruct (IH (S middle) (len - half - 1)%nat) as (Hr & Hlo & Hhi).
    + lia.
    + unfold middle. lia.
    + intros i Hi. apply (p_monotone i middle); [lia|unfold middle; lia|done].
    + intros i Hi. apply Hhigh. unfold middle in Hi. lia.
    + cbv zeta. split; [unfold middle in *; lia|]. by split.
  - destruct (IH first half) as (Hr & Hlo & Hhi).
    + lia.
    + lia.
    + exact Hlow.
    + intros i Hi Hi'. destruct (p i) eqn:Hpi; [|done].
      rewrite (p_monotone middle i) in Hp; [done|unfold middle; lia|done|done].
    + cbv zeta. split; [lia|]. by split.
Qed.

Lemma lower_bound_unique (j : nat) :
  (j < length segs)%nat ->
  (forall i, (i < j)%nat -> p i = true) -> p j = false ->
  lower_bound segs x = j.
Proof.
  intros Hj Hlow Hpj. unfold lower_bound.
  destruct (lower_bound_from_spec (S (length segs)) 0 (length segs))
    as (Hr & Hlo & Hhi); [lia|lia|intros i Hi; lia|intros i Hi Hi'; lia|].
  cbv zeta in Hr, Hlo, Hhi.
  set (r := lower_bound_from _ _ _ _ _) in *.
  destruct (Nat.lt_trichotomy r j) as [Hlt|[Heq|Hgt]]; [|exact Heq|].
  - specialize (Hlow r Hlt).
    rewrite (Hhi r) in Hlow by lia. discriminate.
  - rewrite (Hlo j Hgt) in Hpj. discriminate.
Qed.
End PartitionPoint.

(** ** The spline in exact arithmetic *)

Section SplineValues.
Local Open Scope Q_scope.

Variable pts : list (CurvePoint exact).
Variables X Y : nat -> Q.
Let n := length pts.
Hypothesis pts_many : (2 <= n)%nat.
Hypothesis pts_x : forall i, (i < n)%nat -> cp_x (pts !!! i) = Some (X i).
Hypothesis pts_y : forall i, (i < n)%nat -> cp_y (pts !!! i) = Some (Y i).
Hypothesis x_grows : forall i, (S i < n)%nat -> X i < X (S i).

Lemma abscissas_monotone i j : (i <= j)%nat -> (j < n)%nat -> X i <= X j.
Proof.
  intros Hij Hj. induction j as [|j IH].
  - assert (i = 0%nat) as -> by lia. lra.
  - destruct (decide (i = S j)) as [->|Hne]; [lra|].
    pose proof (x_grows j Hj). assert (X i <= X j) by (apply IH; lia). lra.
Qed.

(** The segments with their coefficients as numbers.  The coefficients
    [b] and [d] are given by the second-order coefficients [c], which vanish
    at both ends and solve the tridiagonal system of the natural spline. *)
Lemma segments_coefficients :
  exists B C E : nat -> Q,
    calculateSplineSegments pts =
    map (fun j => mkSegment (Some (Y j)) (Some (B j)) (Some (C j))
                            (Some (E j)) (Some (X j)) (Some (X (S j))))
        (seq 0 (n - 1)) /\
    (forall j, (j < n - 1)%nat ->
       B j == (Y (S j) - Y j) / (X (S j) - X j) -
              (X (S j) - X j) * (C (S j) + 2 * C j) / 3 /\
       E j == (C (S j) - C j) / (3 * (X (S j) - X j))) /\
    C 0%nat == 0 /\ C (n - 1)%nat == 0 /\
    (forall j, (1 <= j)%nat -> (S j < n)%nat ->
       (X j - X (j - 1)%nat) * C (j - 1)%nat +
       2 * (X (S j) - X (j - 1)%nat) * C j +
       (X (S j) - X j) * C (S j) ==
       3 * (Y (S j) - Y j) / (X (S j) - X j) -
       3 * (Y j - Y (j - 1)%nat) / (X j - X (j - 1)%nat)).
Proof.
  unfold calculateSplineSegments. fold n.
  destruct (Nat.ltb_spec n 2) as [|_]; [lia|].
  set (h := spline_h pts). set (alpha := spline_alpha pts h).
  destruct (spline_forward_spec pts X Y pts_many pts_x pts_y x_grows)
    as (l & mu & z & Hfw & Hl & Hmu & Hz & Hlpos).
  fold h alpha in Hfw.
  destruct (spline_forward_equations pts h alpha pts_many)
    as (l' & mu' & z' & Hfw' & Hmu0 & Hz0 & Hfeqs).
  rewrite Hfw in Hfw'. injection Hfw' as <- <- <-. rewrite Hfw.
  destruct (spline_back_equations pts h mu z pts_many)
    as (c & b & d & Hback & Hclast & Heqs).
  destruct (back_loop_defined pts X Y pts_many pts_x pts_y x_grows mu z
              (rev (seq 0 (n - 1)))
              (<[(n - 1)%nat := of_Z 0]> (replicate n (of_Z 0)),
               replicate (n - 1) (of_Z 0), replicate (n - 1) (of_Z 0)))
    as (c' & b' & d' & Hback' & Hc & Hb & Hd); try assumption.
  { apply Forall_forall. intros j Hj.
    apply list_elem_of_In, in_rev, list_elem_of_In, elem_of_seq in Hj.
    fold n. lia. }
  { apply Forall_insert; [apply replicate_defined|by eexists]. }
  { apply replicate_defined. }
  { apply replicate_defined. }
  unfold spline_back in Hback. fold n in Hback. fold h in Hback'.
  rewrite Hback in Hback'. injection Hback' as <- <- <-.
  unfold spline_back. fold n. rewrite Hback.
  pose proof (spline_alpha_defined pts X Y pts_many pts_x pts_y x_grows)
    as Halpha.
  fold h alpha in Halpha.
  assert (Hsome : forall (v : list exact) j,
             Forall is_Some v -> v !!! j = Some (default 0 (v !!! j))).
  { intros v j Hv. by destruct (lookup_total_defined v j Hv) as [q ->]. }
  assert (Hval : forall (v : list exact) j,
             Forall is_Some v -> val (v !!! j) (default 0 (v !!! j))).
  { intros v j Hv. rewrite (Hsome v j Hv) at 1. apply val_some. }
  assert (Hh : forall j, (S j < n)%nat -> val (h !!! j) (X (S j) - X j)).
  { intros j Hj. by apply (spline_h_val pts X pts_many pts_x). }
  assert (Hhp : forall j, (1 <= j)%nat -> (j < n)%nat ->
                          val (h !!! (j - 1)%nat) (X j - X (j - 1)%nat)).
  { intros j Hj1 Hj2. pose proof (Hh (j - 1)%nat ltac:(lia)) as Hv.
    by replace (S (j - 1)) with j in Hv by lia. }
  assert (Hgp : forall j, (1 <= j)%nat -> (j < n)%nat -> X (j - 1)%nat < X j).
  { intros j Hj1 Hj2. pose proof (x_grows (j - 1)%nat ltac:(lia)) as Hv.
    by replace (S (j - 1)) with j in Hv by lia. }
  set (B := fun j => default 0 (b !!! j)).
  set (C := fun j => default 0 (c !!! j)).
  set (E := fun j => default 0 (d !!! j)).
  set (L := fun j => default 0 (l !!! j)).
  set (M := fun j => default 0 (mu !!! j)).
  set (Zv := fun j => default 0 (z !!! j)).
  exists B, C, E.
  (* the equations of the back substitution, as numbers *)
  assert (Hbd : forall j, (j < n - 1)%nat ->
            C j == Zv j - M j * C (S j) /\
            B j == (Y (S j) - Y j) / (X (S j) - X j) -
                   (X (S j) - X j) * (C (S j) + 2 * C j) / 3 /\
            E j == (C (S j) - C j) / (3 * (X (S j) - X j))).
  { intros j Hj. destruct (Heqs j Hj) as (Hcj & Hbj & Hdj).
    pose proof (x_grows j ltac:(lia)) as Hgrow.
    pose proof (Hh j ltac:(lia)) as Hhj.
    split; [|split].
    - apply (val_unique (c !!! j)); [by apply Hval|].
      rewrite Hcj. apply val_sub; [by apply Hval|].
      apply val_mul; by apply Hval.
    - apply (val_unique (b !!! j)); [by apply Hval|].
      rewrite Hbj. apply val_sub.
      + apply val_div; [|exact Hhj|lra].
        rewrite !pts_y by lia. apply val_sub; apply val_some.
      + apply val_div; [|apply (val_of_Z 3)|discriminate].
        apply val_mul; [exact Hhj|].
        apply val_add; [by apply Hval|].
        apply val_mul; [apply (val_of_Z 2)|by apply Hval].
    - apply (val_unique (d !!! j)); [by apply Hval|].
      rewrite Hdj. apply val_div.
      + apply val_sub; by apply Hval.
      + apply val_mul; [apply (val_of_Z 3)|exact Hhj].
      + lra. }
  (* the equations of the forward elimination, as numbers *)
  assert (Hfwd : forall j, (1 <= j)%nat -> (S j < n)%nat ->
            0 < L j /\
            L j == 2 * (X (S j) - X (j - 1)%nat) -
                   (X j - X (j - 1)%nat) * M (j - 1)%nat /\
            M j == (X (S j) - X j) / L j /\
            Zv j == (3 / (X (S j) - X j) * (Y (S j) - Y j) -
                     3 / (X j - X (j - 1)%nat) * (Y j - Y (j - 1)%nat) -
                     (X j - X (j - 1)%nat) * Zv (j - 1)%nat) / L j).
  { intros j Hj1 Hj2. destruct (Hfeqs j Hj1 Hj2) as (Hlj & Hmuj & Hzj).
    pose proof (x_grows j Hj2) as Hgrow.
    pose proof (Hgp j Hj1 ltac:(lia)) as Hgrowp.
    assert (HLpos : 0 < L j).
    { destruct (Hlpos j Hj1 Hj2) as (q & Hq & Hq0).
      pose proof (val_unique _ _ _ (Hval l j Hl) Hq) as Heq.
      unfold L. lra. }
    split; [exact HLpos|]. split; [|split].
    - apply (val_unique (l !!! j)); [by apply Hval|].
      rewrite Hlj. apply val_sub.
      + apply val_mul; [apply (val_of_Z 2)|].
        rewrite !pts_x by lia. apply val_sub; apply val_some.
      + apply val_mul; [by apply Hhp; lia|by apply Hval].
    - apply (val_unique (mu !!! j)); [by apply Hval|].
      rewrite Hmuj. apply val_div; [by apply Hh|by apply Hval|].
      fold (L j). lra.
    - apply (val_unique (z !!! j)); [by apply Hval|].
      rewrite Hzj. apply val_div; [|by apply Hval|fold (L j); lra].
      apply val_sub.
      + unfold alpha. rewrite spline_alpha_lookup by (fold n; lia).
        fold h. apply val_sub; apply val_mul.
        * apply val_div; [apply (val_of_Z 3)|by apply Hh|lra].
        * rewrite !pts_y by lia. apply val_sub; apply val_some.
        * apply val_div; [apply (val_of_Z 3)|by apply Hhp; lia|lra].
        * rewrite !pts_y by lia. apply val_sub; apply val_some.
      + apply val_mul; [by apply Hhp; lia|by apply Hval]. }
  assert (HM0 : M 0%nat == 0) by (unfold M; rewrite Hmu0; reflexivity).
  assert (HZ0 : Zv 0%nat == 0) by (unfold Zv; rewrite Hz0; reflexivity).
  split; [|split; [|split; [|split]]].
  - apply map_ext_in. intros j Hj. apply in_seq in Hj.
    rewrite pts_y, !pts_x by lia.
    unfold B, C, E. by rewrite <- !Hsome.
  - intros j Hj. destruct (Hbd j Hj) as (_ & HBj & HEj). by split.
  - destruct (Hbd 0%nat ltac:(lia)) as (HC0 & _ & _).
    rewrite HC0, HM0, HZ0. ring.
  - unfold C, n. rewrite Hclast. reflexivity.
  - intros j Hj1 Hj2.
    destruct (Hfwd j Hj1 Hj2) as (HLpos & HL & HM & HZ).
    destruct (Hbd j ltac:(lia)) as (HCj & _ & _).
    destruct (Hbd (j - 1)%nat ltac:(lia)) as (HCp & _ & _).
    replace (S (j - 1)) with j in HCp by lia.
    pose proof (x_grows j Hj2) as Hgrow.
    pose proof (Hgp j Hj1 ltac:(lia)) as Hgrowp.
    set (Hj := X (S j) - X j) in *. set (Hp := X j - X (j - 1)%nat) in *.
    assert (HX : X (S j) - X (j - 1)%nat == Hp + Hj) by (unfold Hp, Hj; ring).
    assert (Hjpos : 0 < Hj) by (unfold Hj; lra).
    assert (Hppos : 0 < Hp) by (unfold Hp; lra).
    rewrite HX in *.
    assert (HLC : L j * C j ==
                  3 / Hj * (Y (S j) - Y j) - 3 / Hp * (Y j - Y (j - 1)%nat) -
                  Hp * Zv (j - 1)%nat - Hj * C (S j)).
    { rewrite HCj, HM, HZ. field. repeat split; lra. }
    rewrite HCp.
    transitivity (Hp * Zv (j - 1)%nat + L j * C j + Hj * C (S j)).
    + rewrite HL. ring.
    + rewrite HLC. field. repeat split; lra.
Qed.

(** Every cubic ends at the ordinate of the next point. *)
Lemma segment_end_value (B C E : nat -> Q) j :
  (j < n - 1)%nat ->
  B j == (Y (S j) - Y j) / (X (S j) - X j) -
         (X (S j) - X j) * (C (S j) + 2 * C j) / 3 ->
  E j == (C (S j) - C j) / (3 * (X (S j) - X j)) ->
  Y j + B j * (X (S j) - X j) +
  C j * (X (S j) - X j) * (X (S j) - X j) +
  E j * (X (S j) - X j) * (X (S j) - X j) * (X (S j) - X j) == Y (S j).
Proof.
  intros Hj HB HE. pose proof (x_grows j ltac:(lia)) as Hgrow.
  rewrite HB, HE. field. lra.
Qed.

(** The value of the cubic of an explicit segment. *)
Lemma seg_poly_explicit (a b c e xs xe : Q) (dx : exact) (t : Q) :
  val dx t ->
  val (seg_poly (mkSegment (Some a) (Some b) (Some c) (Some e)
                           (Some xs) (Some xe)) dx)
      (a + b * t + c * t * t + e * t * t * t).
Proof.
  intros Ht. unfold seg_poly. cbn [seg_a seg_b seg_c seg_d].
  repeat (first [apply val_add | apply val_mul]);
    first [apply val_some | exact Ht].
Qed.

(** [evaluate] on the segments of the spline: the ordinate of the first
    point up to the first abscissa, the ordinate of the last point from the
    last abscissa on, and in between the cubic of the segment whose
    interval (x_j, x_j+1] holds [x]. *)
Lemma evaluate_value (B C E : nat -> Q) (x : exact) (q : Q) :
  calculateSplineSegments pts =
  map (fun j => mkSegment (Some (Y j)) (Some (B j)) (Some (C j))
                          (Some (E j)) (Some (X j)) (Some (X (S j))))
      (seq 0 (n - 1)) ->
  (forall j, (j < n - 1)%nat ->
     Y j + B j * (X (S j) - X j) +
     C j * (X (S j) - X j) * (X (S j) - X j) +
     E j * (X (S j) - X j) * (X (S j) - X j) * (X (S j) - X j) == Y (S j)) ->
  val x q ->
  (q <= X 0%nat -> val (evaluate (calculateSplineSegments pts) x) (Y 0%nat)) /\
  (X (n - 1)%nat <= q ->
   val (evaluate (calculateSplineSegments pts) x) (Y (n - 1)%nat)) /\
  (forall j, (j < n - 1)%nat -> X j < q -> q <= X (S j) ->
     val (evaluate (calculateSplineSegments pts) x)
         (Y j + B j * (q - X j) + C j * (q - X j) * (q - X j) +
          E j * (q - X j) * (q - X j) * (q - X j))).
Proof.
  intros Hsegs Hends Hx. rewrite Hsegs.
  set (g := fun j : nat => mkSegment _ _ _ _ _ _).
  assert (Hm : exists m, (n - 1 = S m)%nat) by (exists (n - 2)%nat; lia).
  destruct Hm as [m Hm]. rewrite Hm.
  assert (Hlast : List.last (map g (seq 0 (S m))) (g 0%nat) = g m).
  { rewrite seq_S, map_app. cbn [map Nat.add]. apply last_last. }
  assert (Hlook : forall j, (j <= m)%nat -> map g (seq 0 (S m)) !!! j = g j).
  { intros j Hj. apply list_lookup_total_correct.
    by rewrite list_lookup_fmap, lookup_seq_lt by lia. }
  assert (Hlen : length (map g (seq 0 (S m))) = S m).
  { by rewrite length_map, length_seq. }
  assert (Heval : forall segs, segs = map g (seq 0 (S m)) ->
    evaluate segs x =
    if dleb x (Some (X 0%nat)) then Some (Y 0%nat) else
    if dleb (Some (X (S m))) x
    then seg_poly (g m) (dsub (Some (X (S m))) (Some (X m)))
    else let it := lower_bound segs x in
         let it := if (it =? S m)%nat then (S m - 1)%nat else it in
         seg_poly (segs !!! it) (dsub x (x_start (segs !!! it)))).
  { intros segs ->. unfold evaluate at 1.
    cbn [seq map]. fold (g 0%nat).
    change (g 0%nat :: map g (seq 1 m)) with (map g (seq 0 (S m))).
    rewrite Hlast, Hlen. reflexivity. }
  rewrite (Heval _ eq_refl). clear Heval.
  assert (HXm : X 0%nat <= X m) by (apply abscissas_monotone; lia).
  pose proof (x_grows m ltac:(lia)) as Hgm.
  split; [|split].
  - intros Hq. rewrite (val_leb_true _ _ q (X 0%nat) Hx (val_some _) Hq).
    apply val_some.
  - intros Hq. replace (n - 1)%nat with (S m) in * by lia.
    rewrite (val_leb_false _ _ q (X 0%nat) Hx (val_some _)) by lra.
    rewrite (val_leb_true _ _ (X (S m)) q (val_some _) Hx Hq).
    eapply val_eq.
    + apply seg_poly_explicit. apply val_sub; apply val_some.
    + apply Hends. lia.
  - intros j Hj Hlo Hhi.
    assert (HXj : X 0%nat <= X j) by (apply abscissas_monotone; lia).
    rewrite (val_leb_false _ _ q (X 0%nat) Hx (val_some _)) by lra.
    destruct (Qlt_le_dec q (X (S m))) as [Hin|Hout].
    + rewrite (val_leb_false _ _ (X (S m)) q (val_some _) Hx Hin).
      rewrite (lower_bound_unique (map g (seq 0 (S m))) x) with (j := j).
      * cbv zeta. destruct (Nat.eqb_spec j (S m)) as [|_]; [lia|].
        rewrite Hlook by lia. apply seg_poly_explicit.
        apply val_sub; [exact Hx|apply val_some].
      * intros i i' Hii Hi'. rewrite Hlen in Hi'.
        rewrite !Hlook by lia. cbn [g x_end].
        rewrite (val_ltb _ _ (X (S i')) q (val_some _) Hx).
        rewrite (val_ltb _ _ (X (S i)) q (val_some _) Hx).
        intros Hlt. apply negb_true_iff in Hlt. apply Qle_bool_false in Hlt.
        apply negb_true_iff. apply not_true_is_false. intros Hle.
        apply Qle_bool_iff in Hle.
        assert (X (S i) <= X (S i')) by (apply abscissas_monotone; lia). lra.
      * rewrite Hlen. lia.
      * intros i Hi. rewrite Hlook by lia. cbn [g x_end].
        apply (val_ltb_true _ _ (X (S i)) q (val_some _) Hx).
        assert (X (S i) <= X j) by (apply abscissas_monotone; lia). lra.
      * rewrite Hlook by lia. cbn [g x_end].
        apply (val_ltb_false _ _ (X (S j)) q (val_some _) Hx). lra.
    + assert (j = m) as ->.
      { destruct (decide (j = m)) as [|Hne]; [done|].
        assert (X (S j) <= X m) by (apply abscissas_monotone; lia). lra. }
      rewrite (val_leb_true _ _ (X (S m)) q (val_some _) Hx Hout).
      eapply val_eq.
      * apply seg_poly_explicit. apply val_sub; apply val_some.
      * assert (Hq : q == X (S m)) by lra. rewrite Hq. reflexivity.
Qed.
End SplineValues.


Lemma three_points_distinct_x : distinct_x three_points.
Proof. unfold distinct_x. repeat constructor. Qed.


(** X8.  In exact arithmetic: for x in the interval (x_j, x_j+1] of two
    neighbouring control points, segment j of the spline starts at x_j
    and ends at x_j+1, and [evaluate] returns the cubic of that segment at
    the offset x - x_j: the binary search finds the segment that holds
    x. *)
Theorem spline_evaluates_the_segment_that_holds_x :
  forall (pts : list (CurvePoint exact)) (x : exact) (q : Q) (j : nat)
         (xj xj1 : Q),
    (2 <= length pts)%nat -> Forall unit_point pts -> distinct_x pts ->
    (S j < length pts)%nat ->
    cp_x (pts !!! j) = Some xj -> cp_x (pts !!! S j) = Some xj1 ->
    val x q -> (xj < q)%Q -> (q <= xj1)%Q ->
    exists s r,
      calculateSplineSegments pts !! j = Some s /\
      x_start s = Some xj /\ x_end s = Some xj1 /\
      val (evaluate (calculateSplineSegments pts) x) r /\
      val (seg_poly s (dsub x (x_start s))) r.
Proof.
  intros pts x q j xj xj1 Hn Hunit Hdist Hj Hxj Hxj1 Hq Hlo Hhi.
  destruct (distinct_x_coordinates pts Hunit Hdist)
    as (X & Y & Hx & Hy & Hgrow & _).
  destruct (segments_coefficients pts X Y Hn Hx Hy Hgrow)
    as (B & C & E & Hsegs & Hbe & _).
  assert (Hends : forall j, (j < length pts - 1)%nat ->
    (Y j + B j * (X (S j) - X j) +
     C j * (X (S j) - X j) * (X (S j) - X j) +
     E j * (X (S j) - X j) * (X (S j) - X j) * (X (S j) - X j) == Y (S j))%Q).
  { intros j' Hj'. destruct (Hbe j' Hj') as [HB HE].
    by apply (segment_end_value pts X Y Hn Hgrow B C E). }
  rewrite (Hx j) in Hxj by lia. rewrite (Hx (S j)) in Hxj1 by lia.
  injection Hxj as <-. injection Hxj1 as <-.
  destruct (evaluate_value pts X Y Hn Hgrow B C E x q Hsegs Hends Hq)
    as (_ & _ & Hmid).
  eexists; eexists. split.
  { rewrite Hsegs, list_lookup_fmap, lookup_seq_lt by lia. reflexivity. }
  split; [reflexivity|]. split; [reflexivity|]. split.
  - apply (Hmid j); [lia|exact Hlo|exact Hhi].
  - cbn [x_start]. apply seg_poly_explicit.
    apply val_sub; [exact Hq|apply val_some].
Qed.

Lemma spline_evaluates_the_segment_that_holds_x_witness :
  exists s r,
    calculateSplineSegments three_points !! 1%nat = Some s /\
    x_start s = Some (1 # 2)%Q /\ x_end s = Some 1%Q /\
    val (evaluate (calculateSplineSegments three_points) (Some (3 # 4)%Q)) r /\
    val (seg_poly s (dsub (Some (3 # 4)%Q) (x_start s))) r.
Proof.
  apply (spline_evaluates_the_segment_that_holds_x three_points
           (Some (3 # 4)%Q) (3 # 4)%Q 1 (1 # 2)%Q 1%Q).
  - simpl; lia.
  - apply three_points_valid.
  - exact three_points_distinct_x.
  - simpl; lia.
  - reflexivity.
  - reflexivity.
  - apply val_some.
  - reflexivity.
  - discriminate.
Defined.



(** ** The linear interpolation in exact arithmetic *)


Section LinearValues.
Local Open Scope Q_scope.

Variable pts : list (CurvePoint exact).
Variables X Y : nat -> Q.
Let n := length pts.
Hypothesis pts_many : (2 <= n)%nat.
Hypothesis pts_x : forall i, (i < n)%nat -> cp_x (pts !!! i) = Some (X i).
Hypothesis pts_y : forall i, (i < n)%nat -> cp_y (pts !!! i) = Some (Y i).
Hypothesis x_grows : forall i, (S i < n)%nat -> X i < X (S i).




End LinearValues.



Section LinearMonotone.
Local Open Scope Q_scope.

Variable pts : list (CurvePoint exact).
Variables X Y : nat -> Q.
Let n := length pts.
Hypothesis pts_many : (2 <= n)%nat.
Hypothesis pts_x : forall i, (i < n)%nat -> cp_x (pts !!! i) = Some (X i).
Hypothesis pts_y : forall i, (i < n)%nat -> cp_y (pts !!! i) = Some (Y i).
Hypothesis x_grows : forall i, (S i < n)%nat -> X i < X (S i).
Hypothesis y_grows : forall i, (S i < n)%nat -> Y i <= Y (S i).






End LinearMonotone.





(** ** The ends of the Bezier curve *)

Section BezierEnds.
Local Open Scope Q_scope.

Variable pts : list (CurvePoint exact).
Variables X Y : nat -> Q.
Let n := length pts.
Hypothesis pts_xy : forall i, (i < n)%nat ->
  cp_x (pts !!! i) = Some (X i) /\ cp_y (pts !!! i) = Some (Y i).

(** One pass of the inner loop of De Casteljau at the parameter 0
    ([s = 0]) or 1 ([s = 1]): entry [j] takes the value of entry
    [j + s]. *)
Lemma bezier_inner_pass (t : exact) (T : Q) (s r k m : nat)
      (temp : list (CurvePoint exact)) :
  val t T -> (s = 0%nat /\ T == 0) \/ (s = 1%nat /\ T == 1) ->
  (1 <= r)%nat -> (m + k = n - r)%nat -> (r < n)%nat -> length temp = n ->
  (forall j, (j < m)%nat ->
     val (cp_x (temp !!! j)) (X (j + s * r)) /\
     val (cp_y (temp !!! j)) (Y (j + s * r))) ->
  (forall j, (m <= j)%nat -> (j + s * (r - 1) < n)%nat ->
     val (cp_x (temp !!! j)) (X (j + s * (r - 1))) /\
     val (cp_y (temp !!! j)) (Y (j + s * (r - 1)))) ->
  exists temp',
    foldl (fun temp j =>
             let pj := temp !!! j in
             let pj1 := temp !!! S j in
             <[j := mkPoint
                      (dadd (dmul (dsub (of_Z 1) t) (cp_x pj))
                            (dmul t (cp_x pj1)))
                      (dadd (dmul (dsub (of_Z 1) t) (cp_y pj))
                            (dmul t (cp_y pj1)))]> temp)
          temp (seq m k) = temp' /\
    length temp' = n /\
    (forall j, (j < n - r)%nat ->
       val (cp_x (temp' !!! j)) (X (j + s * r)) /\
       val (cp_y (temp' !!! j)) (Y (j + s * r))) /\
    (forall j, (n - r <= j)%nat -> (j + s * (r - 1) < n)%nat ->
       val (cp_x (temp' !!! j)) (X (j + s * (r - 1))) /\
       val (cp_y (temp' !!! j)) (Y (j + s * (r - 1)))).
Proof.
  intros Ht Hend Hr. revert m temp.
  induction k as [|k IH]; intros m temp Hmk Hrn Hlen Hdone Htodo.
  - exists temp. split; [reflexivity|]. split; [exact Hlen|].
    split.
    + intros j Hj. apply Hdone. lia.
    + intros j Hj. apply Htodo. lia.
  - cbn [seq foldl].
    set (new := mkPoint _ _).
    destruct (IH (S m) (<[m := new]> temp)) as (temp' & Hfold & Hrest);
      [lia|exact Hrn|by rewrite length_insert| | |].
    + intros j Hj. destruct (decide (j = m)) as [->|Hne].
      * rewrite list_lookup_total_insert_eq by lia. unfold new.
        cbn [cp_x cp_y].
        destruct (Htodo m) as [Hxm Hym];
          [lia|destruct Hend as [[-> _]|[-> _]]; lia|].
        destruct (Htodo (S m)) as [Hxm1 Hym1];
          [lia|destruct Hend as [[-> _]|[-> _]]; lia|].
        split.
        -- eapply val_eq.
           ++ apply val_add; apply val_mul;
                [apply val_sub; [apply (val_of_Z 1)|exact Ht]|exact Hxm
                |exact Ht|exact Hxm1].
           ++ destruct Hend as [[-> HT]|[-> HT]]; rewrite HT.
              ** replace (m + 0 * (r - 1))%nat with (m + 0 * r)%nat by lia.
                 ring.
              ** replace (S m + 1 * (r - 1))%nat with (m + 1 * r)%nat by lia.
                 ring.
        -- eapply val_eq.
           ++ apply val_add; apply val_mul;
                [apply val_sub; [apply (val_of_Z 1)|exact Ht]|exact Hym
                |exact Ht|exact Hym1].
           ++ destruct Hend as [[-> HT]|[-> HT]]; rewrite HT.
              ** replace (m + 0 * (r - 1))%nat with (m + 0 * r)%nat by lia.
                 ring.
              ** replace (S m + 1 * (r - 1))%nat with (m + 1 * r)%nat by lia.
                 ring.
      * rewrite list_lookup_total_insert_ne by done. apply Hdone. lia.
    + intros j Hj Hjn. rewrite list_lookup_total_insert_ne by lia.
      apply Htodo; [lia|exact Hjn].
    + exists temp'. split; [exact Hfold|exact Hrest].
Qed.

(** After [r] rounds entry [j] holds the original point [j + s * r]. *)
Lemma bezier_rounds (t : exact) (T : Q) (s r : nat) :
  val t T -> (s = 0%nat /\ T == 0) \/ (s = 1%nat /\ T == 1) ->
  (r < n)%nat ->
  exists temp,
    foldl (fun temp i =>
             foldl (fun temp j =>
                      let pj := temp !!! j in
                      let pj1 := temp !!! S j in
                      <[j := mkPoint
                               (dadd (dmul (dsub (of_Z 1) t) (cp_x pj))
                                     (dmul t (cp_x pj1)))
                               (dadd (dmul (dsub (of_Z 1) t) (cp_y pj))
                                     (dmul t (cp_y pj1)))]> temp)
                   temp (seq 0 (n - i)))
          pts (seq 1 r) = temp /\
    length temp = n /\
    forall j, (j + s * r < n)%nat ->
      val (cp_x (temp !!! j)) (X (j + s * r)) /\
      val (cp_y (temp !!! j)) (Y (j + s * r)).
Proof.
  intros Ht Hend. induction r as [|r IH]; intros Hr.
  - exists pts. split; [reflexivity|]. split; [reflexivity|].
    intros j Hj. replace (j + s * 0)%nat with j in * by lia.
    destruct (pts_xy j Hj) as [-> ->]. split; apply val_some.
  - destruct IH as (temp & Hfold & Hlen & Hinv); [lia|].
    rewrite seq_S, foldl_snoc, Hfold. cbn [Nat.add].
    destruct (bezier_inner_pass t T s (S r) (n - S r) 0 temp)
      as (temp' & Hfold' & Hlen' & Hlow & Hhigh);
      [exact Ht|exact Hend|lia|lia|lia|exact Hlen| | |].
    + intros j Hj. lia.
    + intros j _ Hj. replace (S r - 1)%nat with r in * by lia.
      by apply Hinv.
    + exists temp'. split; [exact Hfold'|]. split; [exact Hlen'|].
      intros j Hj. destruct (decide (j < n - S r)%nat) as [Hlt|Hge].
      * by apply Hlow.
      * assert (s = 0%nat) as -> by (destruct Hend as [[-> _]|[-> _]]; lia).
        replace (j + 0 * S r)%nat with (j + 0 * (S r - 1))%nat by lia.
        apply Hhigh; lia.
Qed.
End BezierEnds.

Lemma evaluateBezier_nonempty `{DoubleOps D} (pts : list (CurvePoint D))
      (t : D) :
  pts <> [] ->
  evaluateBezier pts t =
  clamp (cp_y (foldl (fun temp i =>
                 foldl (fun temp j =>
                          let pj := temp !!! j in
                          let pj1 := temp !!! S j in
                          <[j := mkPoint
                                   (dadd (dmul (dsub (of_Z 1) t) (cp_x pj))
                                         (dmul t (cp_x pj1)))
                                   (dadd (dmul (dsub (of_Z 1) t) (cp_y pj))
                                         (dmul t (cp_y pj1)))]> temp)
                       temp (seq 0 (length pts - i)))
              pts (seq 1 (length pts - 1)) !!! 0%nat))
        (of_Z 0) (of_Z 1).
Proof. intros Hne. destruct pts; [done|reflexivity]. Qed.

Section BezierTable.
Local Open Scope Q_scope.

Lemma evaluateBezier_end (pts : list (CurvePoint exact)) (t : exact)
      (T : Q) (s : nat) :
  Forall unit_point pts -> pts <> [] ->
  val t T -> (s = 0%nat /\ T == 0) \/ (s = 1%nat /\ T == 1) ->
  exists y, cp_y (pts !!! (s * (length pts - 1))%nat) = Some y /\
            val (evaluateBezier pts t) y.
Proof.
  intros Hunit Hne Ht Hend.
  destruct (unit_points_coordinates pts Hunit) as (X & Y & Hxy).
  assert (Hn : (0 < length pts)%nat) by (destruct pts; [done|simpl; lia]).
  destruct (bezier_rounds pts X Y (fun i Hi => conj (proj1 (Hxy i Hi))
                                             (proj1 (proj2 (Hxy i Hi))))
              t T s (length pts - 1) Ht Hend ltac:(lia))
    as (temp & Hfold & _ & Hinv).
  destruct (Hinv 0%nat) as [_ Hy0];
    [destruct Hend as [[-> _]|[-> _]]; lia|].
  cbn [Nat.add] in Hy0.
  destruct (Hxy (s * (length pts - 1))%nat) as (_ & Hy & _ & Hrange);
    [destruct Hend as [[-> _]|[-> _]]; lia|].
  exists (Y (s * (length pts - 1))%nat). split; [exact Hy|].
  rewrite (evaluateBezier_nonempty pts t Hne), Hfold.
  rewrite (val_clamp_id _ _ _ _ 0 1 Hy0 (val_of_Z 0) (val_of_Z 1));
    [exact Hy0|lra|lra].
Qed.
End BezierTable.

(** X12.  In exact arithmetic: the Bezier curve of one or more points of
    the unit square is the y of the first point at the parameter 0 and the
    y of the last point at the parameter 1, so the first and the last
    entry of a Bezier table of at least two entries are these two
    values. *)
Theorem bezier_starts_and_ends_at_the_end_points :
  forall (pow : exact -> exact -> exact) (pts : list (CurvePoint exact))
         (size : Z),
    Forall unit_point pts -> pts <> [] -> 2 <= size ->
    (forall t, val t 0%Q ->
       exists y, cp_y (pts !!! 0%nat) = Some y /\
                 val (evaluateBezier pts t) y) /\
    (forall t, val t 1%Q ->
       exists y, cp_y (pts !!! (length pts - 1)%nat) = Some y /\
                 val (evaluateBezier pts t) y) /\
    exists lut first last y0 y1,
      generateOptimizedLUT pow pts CURVE_TYPE_BEZIER size = Some lut /\
      lut !! 0%nat = Some first /\
      lut !! (Z.to_nat size - 1)%nat = Some last /\
      cp_y (pts !!! 0%nat) = Some y0 /\
      cp_y (pts !!! (length pts - 1)%nat) = Some y1 /\
      val first y0 /\ val last y1.
Proof.
  intros pow pts size Hunit Hne Hsize.
  assert (H0 : forall t, val t 0%Q ->
            exists y, cp_y (pts !!! 0%nat) = Some y /\
                      val (evaluateBezier pts t) y).
  { intros t Ht.
    destruct (evaluateBezier_end pts t 0%Q 0 Hunit Hne Ht) as (y & Hy & Hv);
      [left; split; [done|reflexivity]|].
    by exists y. }
  assert (H1 : forall t, val t 1%Q ->
            exists y, cp_y (pts !!! (length pts - 1)%nat) = Some y /\
                      val (evaluateBezier pts t) y).
  { intros t Ht.
    destruct (evaluateBezier_end pts t 1%Q 1 Hunit Hne Ht) as (y & Hy & Hv);
      [right; split; [done|reflexivity]|].
    exists y. split; [|exact Hv].
    by replace (length pts - 1)%nat with (1 * (length pts - 1))%nat by lia. }
  split; [exact H0|]. split; [exact H1|].
  set (f := fun i : nat => evaluateBezier pts (sample_x (Z.to_nat size) i)).
  assert (Hlut : generateOptimizedLUT pow pts CURVE_TYPE_BEZIER size =
                 Some (map f (seq 0 (Z.to_nat size)))).
  { unfold generateOptimizedLUT.
    destruct (Z.ltb_spec size 0) as [|_]; [lia|].
    change (CURVE_TYPE_BEZIER =? CURVE_TYPE_LINEAR) with false.
    change (CURVE_TYPE_BEZIER =? CURVE_TYPE_CUBIC_SPLINE) with false.
    change (CURVE_TYPE_BEZIER =? CURVE_TYPE_BEZIER) with true.
    cbv iota. unfold generateBezierLUT.
    by rewrite fill_spec, length_replicate. }
  assert (Hfirst : val (sample_x (Z.to_nat size) 0) 0%Q).
  { unfold sample_x. rewrite Z2Nat.id by lia. by apply sample_x_first. }
  assert (Hlast : val (sample_x (Z.to_nat size) (Z.to_nat size - 1)) 1%Q).
  { unfold sample_x. rewrite Z2Nat.id by lia. by apply sample_x_last. }
  destruct (H0 _ Hfirst) as (y0 & Hy0 & Hv0).
  destruct (H1 _ Hlast) as (y1 & Hy1 & Hv1).
  exists (map f (seq 0 (Z.to_nat size))), (f 0%nat),
         (f (Z.to_nat size - 1)%nat), y0, y1.
  split; [exact Hlut|].
  split; [by rewrite list_lookup_fmap, lookup_seq_lt by lia|].
  split; [by rewrite list_lookup_fmap, lookup_seq_lt by lia|].
  by repeat split.
Qed.

Lemma bezier_starts_and_ends_at_the_end_points_witness :
  (forall t, val t 0%Q ->
     exists y, cp_y (three_points !!! 0%nat) = Some y /\
               val (evaluateBezier three_points t) y) /\
  (forall t, val t 1%Q ->
     exists y, cp_y (three_points !!! (length three_points - 1)%nat) = Some y /\
               val (evaluateBezier three_points t) y) /\
  exists lut first last y0 y1,
    generateOptimizedLUT exact_int_pow three_points CURVE_TYPE_BEZIER 5 =
    Some lut /\
    lut !! 0%nat = Some first /\
    lut !! (Z.to_nat 5 - 1)%nat = Some last /\
    cp_y (three_points !!! 0%nat) = Some y0 /\
    cp_y (three_points !!! (length three_points - 1)%nat) = Some y1 /\
    val first y0 /\ val last y1.
Proof.
  apply (bezier_starts_and_ends_at_the_end_points exact_int_pow three_points
           5).
  - apply three_points_valid.
  - discriminate.
  - lia.
Defined.

(** ** The life cycle of the engine *)

(** X13.  [curve_initialize] succeeds from every state and a second call
    changes nothing; [curve_cleanup] is idempotent and undoes an
    initialization; after a cleanup [curve_create] and
    [curve_apply_to_image] return an error and no result, whatever their
    arguments. *)
Theorem engine_lifecycle :
  forall (st : EngineState),
    (* initialization always succeeds and is idempotent *)
    (exists st1, curve_initialize st = (CURVE_SUCCESS, st1) /\
                 g_initialized st1 = true /\
                 curve_initialize st1 = (CURVE_SUCCESS, st1)) /\
    (* cleanup is idempotent and undoes the initialization *)
    g_initialized (curve_cleanup st) = false /\
    curve_cleanup (curve_cleanup st) = curve_cleanup st /\
    curve_cleanup (curve_initialize st).2 = curve_cleanup st /\
    (* after cleanup nothing is created or applied *)
    (forall (D : Type) (ops : DoubleOps D) (pow : D -> D -> D)
            (std_sort : (CurvePoint D -> CurvePoint D -> bool) ->
                        list (CurvePoint D) -> list (CurvePoint D))
            pts n ty out curve input output options,
        (curve_create std_sort (curve_cleanup st) pts n ty out).2 = None /\
        (curve_create std_sort (curve_cleanup st) pts n ty out).1 <>
        CURVE_SUCCESS /\
        (curve_apply_to_image pow (curve_cleanup st) curve input output
                              options).2 = None /\
        (curve_apply_to_image pow (curve_cleanup st) curve input output
                              options).1 <> CURVE_SUCCESS).
Proof.
  intros [[|]].
  - split; [by eexists|]. repeat split; try done.
    + by destruct pts; cbn; [destruct (_ || _)|].
    + destruct pts; cbn; [destruct (_ || _)|]; discriminate.
    + by destruct curve, input, output.
    + destruct curve, input, output; discriminate.
  - split; [by eexists|]. repeat split; try done.
    + by destruct pts; cbn; [destruct (_ || _)|].
    + destruct pts; cbn; [destruct (_ || _)|]; discriminate.
    + by destruct curve, input, output.
    + destruct curve, input, output; discriminate.
Qed.

(** ** Tables of one entry *)

Section NaN.
Implicit Types a b : f64.

Lemma b64_leb_nan_l a : dleb S754_nan a = false.
Proof. reflexivity. Qed.

Lemma b64_leb_nan_r a : dleb a S754_nan = false.
Proof. by destruct a. Qed.

Lemma b64_ltb_nan_l a : dltb S754_nan a = false.
Proof. reflexivity. Qed.

Lemma b64_ltb_nan_r a : dltb a S754_nan = false.
Proof. by destruct a. Qed.

Lemma b64_add_nan_r a : dadd a S754_nan = S754_nan.
Proof. by destruct a. Qed.

Lemma b64_mul_nan_r a : dmul a S754_nan = S754_nan.
Proof. by destruct a. Qed.

Lemma b64_sub_nan_l a : dsub S754_nan a = S754_nan.
Proof. reflexivity. Qed.

Lemma b64_clamp_nan a b : clamp S754_nan a b = S754_nan.
Proof. unfold clamp. by rewrite b64_ltb_nan_l, b64_ltb_nan_r. Qed.

Lemma linear_scan_nan (pts : list (CurvePoint f64)) :
  linear_scan pts S754_nan = S754_nan.
Proof.
  induction pts as [|p [|q pts] IH]; [done|done|].
  change (linear_scan (p :: q :: pts) S754_nan)
    with (if dleb (cp_x p) S754_nan && dleb S754_nan (cp_x q)
          then dadd (cp_y p)
                    (dmul (ddiv (dsub S754_nan (cp_x p))
                                (dsub (cp_x q) (cp_x p)))
                          (dsub (cp_y q) (cp_y p)))
          else linear_scan (q :: pts) S754_nan).
  by rewrite b64_leb_nan_r.
Qed.

Lemma linearInterpolate_nan (pts : list (CurvePoint f64)) :
  length pts <> 1%nat -> linearInterpolate pts S754_nan = S754_nan.
Proof.
  intros Hlen. destruct pts as [|p0 [|p1 pts]]; [done|done|].
  unfold linearInterpolate.
  rewrite b64_leb_nan_l, b64_leb_nan_r. apply linear_scan_nan.
Qed.

Lemma seg_poly_nan (s : SplineSegment f64) : seg_poly s S754_nan = S754_nan.
Proof.
  unfold seg_poly. by rewrite !b64_mul_nan_r, !b64_add_nan_r.
Qed.

Lemma evaluate_nan (segs : list (SplineSegment f64)) :
  evaluate segs S754_nan = S754_nan.
Proof.
  destruct segs as [|s0 segs]; [done|]. unfold evaluate.
  rewrite b64_leb_nan_l, b64_leb_nan_r. cbv zeta.
  rewrite b64_sub_nan_l. apply seg_poly_nan.
Qed.
End NaN.

(** X14.  In binary64: a table of one entry divides 0 by 0 for its
    abscissa.  With the types CubicSpline and AIOptimized the only entry
    is NaN for every set of points (the clamp does not remove it); with
    the type Linear it is NaN unless there is exactly one point. *)
Theorem one_entry_table_is_nan :
  forall (pow : f64 -> f64 -> f64) (pts : list (CurvePoint f64)),
    (length pts <> 1%nat ->
     generateOptimizedLUT pow pts CURVE_TYPE_LINEAR 1 = Some [S754_nan]) /\
    generateOptimizedLUT pow pts CURVE_TYPE_CUBIC_SPLINE 1 =
    Some [S754_nan] /\
    generateOptimizedLUT pow pts CURVE_TYPE_AI_OPTIMIZED 1 = Some [S754_nan].
Proof.
  intros pow pts.
  assert (Hx : sample_x 1 0 = S754_nan :> f64) by reflexivity.
  assert (Hspline : generateOptimizedLUT pow pts CURVE_TYPE_CUBIC_SPLINE 1 =
                    Some [S754_nan]).
  { unfold generateOptimizedLUT.
    change (1 <? 0) with false.
    change (CURVE_TYPE_CUBIC_SPLINE =? CURVE_TYPE_LINEAR) with false.
    change (CURVE_TYPE_CUBIC_SPLINE =? CURVE_TYPE_CUBIC_SPLINE) with true.
    cbv iota. unfold generateCubicSplineLUT. rewrite fill_spec.
    change (length (replicate (Z.to_nat 1) (of_Z 0 : f64))) with 1%nat.
    cbn [seq map]. by rewrite Hx, evaluate_nan, b64_clamp_nan. }
  split; [|split; [exact Hspline|]].
  - intros Hlen. unfold generateOptimizedLUT.
    change (1 <? 0) with false.
    change (CURVE_TYPE_LINEAR =? CURVE_TYPE_LINEAR) with true.
    cbv iota. unfold generateLinearLUT. rewrite fill_spec.
    change (length (replicate (Z.to_nat 1) (of_Z 0 : f64))) with 1%nat.
    cbn [seq map]. by rewrite Hx, linearInterpolate_nan.
  - by rewrite ai_optimized_dispatch.
Qed.

Lemma one_entry_table_is_nan_witness :
  generateOptimizedLUT (fun x _ : f64 => x) [] CURVE_TYPE_LINEAR 1 =
  Some [S754_nan] /\
  generateOptimizedLUT (fun x _ : f64 => x) three_points_b64
                       CURVE_TYPE_LINEAR 1 = Some [S754_nan].
Proof.
  split.
  - apply (proj1 (one_entry_table_is_nan (fun x _ => x) [])).
    discriminate.
  - apply (proj1 (one_entry_table_is_nan (fun x _ => x) three_points_b64)).
    discriminate.
Defined.

(** ** No control points *)

(** X15.  In exact arithmetic: without control points every enumerated
    type gives the identity table, entry i of a table of size >= 2 being
    i / (size - 1).  [pow(x, 1.0)] is [x]. *)
Theorem no_points_give_the_identity_table :
  forall (pow : exact -> exact -> exact) (ty : CurveType) (size : Z)
         (i : nat),
    pow_exponent_one pow -> enumerated_type ty -> 2 <= size ->
    (i < Z.to_nat size)%nat ->
    exists lut v,
      generateOptimizedLUT pow [] ty size = Some lut /\
      length lut = Z.to_nat size /\
      lut !! i = Some v /\
      val v (inject_Z (Z.of_nat i) / inject_Z (size - 1))%Q.
Proof.
  intros pow ty size i Hpow Hty Hsize Hi.
  assert (Hx : val (sample_x (Z.to_nat size) i)
                   (inject_Z (Z.of_nat i) / inject_Z (size - 1))%Q).
  { pose proof (identity_lut_lookup (Z.to_nat size) (Z.of_nat i)
                  ltac:(lia) ltac:(lia)) as Hv.
    by rewrite Nat2Z.id, Z2Nat.id in Hv by lia. }
  destruct (sample_x_unit (Z.to_nat size) i ltac:(lia) Hi)
    as (q & Hq & Hrange).
  pose proof (val_unique _ _ _ Hq Hx) as Hqx.
  assert (Hclamp : forall d : exact, val d q ->
            val (clamp d (of_Z 0) (of_Z 1))
                (inject_Z (Z.of_nat i) / inject_Z (size - 1))%Q).
  { intros d Hd.
    rewrite (val_clamp_id _ _ _ q 0%Q 1%Q Hd (val_of_Z 0) (val_of_Z 1));
      [by apply (val_eq _ q)|lra|lra]. }
  unfold generateOptimizedLUT.
  destruct (Z.ltb_spec size 0) as [|_]; [lia|].
  destruct Hty as [->|[->|[->|[->| ->]]]];
    (eexists; eexists; split; [reflexivity|]).
  - change (CURVE_TYPE_LINEAR =? CURVE_TYPE_LINEAR) with true. cbv iota.
    unfold generateLinearLUT.
    rewrite fill_length, length_replicate. split; [done|].
    rewrite fill_lookup by (rewrite length_replicate; lia).
    rewrite ?length_replicate. split; [reflexivity|exact Hx].
  - change (CURVE_TYPE_CUBIC_SPLINE =? CURVE_TYPE_LINEAR) with false.
    change (CURVE_TYPE_CUBIC_SPLINE =? CURVE_TYPE_CUBIC_SPLINE) with true.
    cbv iota. unfold generateCubicSplineLUT.
    rewrite fill_length, length_replicate. split; [done|].
    rewrite fill_lookup by (rewrite length_replicate; lia).
    rewrite ?length_replicate. split; [reflexivity|].
    apply Hclamp. exact Hq.
  - change (CURVE_TYPE_BEZIER =? CURVE_TYPE_LINEAR) with false.
    change (CURVE_TYPE_BEZIER =? CURVE_TYPE_CUBIC_SPLINE) with false.
    change (CURVE_TYPE_BEZIER =? CURVE_TYPE_BEZIER) with true.
    cbv iota. unfold generateBezierLUT.
    rewrite fill_length, length_replicate. split; [done|].
    rewrite fill_lookup by (rewrite length_replicate; lia).
    rewrite ?length_replicate. split; [reflexivity|exact Hx].
  - change (CURVE_TYPE_PARAMETRIC =? CURVE_TYPE_LINEAR) with false.
    change (CURVE_TYPE_PARAMETRIC =? CURVE_TYPE_CUBIC_SPLINE) with false.
    change (CURVE_TYPE_PARAMETRIC =? CURVE_TYPE_BEZIER) with false.
    change (CURVE_TYPE_PARAMETRIC =? CURVE_TYPE_PARAMETRIC) with true.
    cbv iota. unfold generateParametricLUT.
    rewrite fill_length, length_replicate. split; [done|].
    rewrite fill_lookup by (rewrite length_replicate; lia).
    rewrite ?length_replicate. split; [reflexivity|].
    cbv zeta. apply Hclamp.
    change (parametric_gamma []) with (of_Z 1 : exact).
    change (parametric_lift []) with (of_Z 0 : exact).
    change (parametric_gain []) with (of_Z 1 : exact).
    eapply val_eq.
    + apply val_add; [apply (val_of_Z 0)|]. apply val_mul.
      * apply val_sub; [apply (val_of_Z 1)|apply (val_of_Z 0)].
      * apply (Hpow _ _ q); [apply (val_of_Z 1)|exact Hq].
    + change (inject_Z 0) with 0%Q. change (inject_Z 1) with 1%Q. ring.
  - change (CURVE_TYPE_AI_OPTIMIZED =? CURVE_TYPE_LINEAR) with false.
    change (CURVE_TYPE_AI_OPTIMIZED =? CURVE_TYPE_CUBIC_SPLINE) with false.
    change (CURVE_TYPE_AI_OPTIMIZED =? CURVE_TYPE_BEZIER) with false.
    change (CURVE_TYPE_AI_OPTIMIZED =? CURVE_TYPE_PARAMETRIC) with false.
    change (CURVE_TYPE_AI_OPTIMIZED =? CURVE_TYPE_AI_OPTIMIZED) with true.
    cbv iota. unfold generateAIOptimizedLUT, generateCubicSplineLUT.
    rewrite fill_length, length_replicate. split; [done|].
    rewrite fill_lookup by (rewrite length_replicate; lia).
    rewrite ?length_replicate. split; [reflexivity|].
    apply Hclamp. exact Hq.
Qed.

Lemma no_points_give_the_identity_table_witness :
  exists lut v,
    generateOptimizedLUT exact_int_pow [] CURVE_TYPE_PARAMETRIC 5 =
    Some lut /\
    length lut = Z.to_nat 5 /\
    lut !! 2%nat = Some v /\
    val v (inject_Z (Z.of_nat 2) / inject_Z (5 - 1))%Q.
Proof.
  apply (no_points_give_the_identity_table exact_int_pow
           CURVE_TYPE_PARAMETRIC 5 2).
  - exact exact_int_pow_exponent_one.
  - right. right. right. by left.
  - lia.
  - simpl; lia.
Defined.

(** ** The fallback curve of the AI processor *)

(** X16.  In exact arithmetic: the curve that [generateIntelligentCurve]
    returns (the CPU fallback) is a cubic spline on all colour channels
    whose points lie in the unit square with strictly growing x, so its
    table of every size >= 2 lies in [0, 1]; but its [lut_size] field is
    0, so [curve_generate_lut] answers with success and an empty table. *)
Theorem fallback_curve_is_sound_but_has_no_resolution :
  forall (pow : exact -> exact -> exact) (st : EngineState)
         (image : ImageData) (params : AISuggestionParams exact),
    let curve := generateIntelligentCurve image params in
    type curve = CURVE_TYPE_CUBIC_SPLINE /\
    channel curve = CHANNEL_RGB /\
    curve_points curve = points curve /\
    valid_points (points curve) /\ distinct_x (points curve) /\
    lut_size curve = 0 /\
    curve_generate_lut pow st (Some curve) true true =
    (CURVE_SUCCESS, Some ([], 0)) /\
    forall size, 2 <= size ->
      exists lut,
        generateOptimizedLUT pow (curve_points curve) (type curve) size =
        Some lut /\
        length lut = Z.to_nat size /\ Forall unit_value lut.
Proof.
  intros pow st image params curve.
  assert (Hpts : valid_points (points curve) /\ distinct_x (points curve)).
  { unfold curve, generateIntelligentCurve, generateFallbackCurve.
    destruct (dltb dhalf (contrast_boost params));
      [|destruct (film_emulation params)]; cbn [points];
      (split;
       [split; [simpl; lia|]; split;
        [repeat (apply Forall_cons_2;
                 [eexists; eexists; split; [reflexivity|];
                  split; [reflexivity|]; split; split; discriminate|]);
         apply Forall_nil_2
        |unfold ordered_by; repeat constructor]
       |unfold distinct_x; repeat constructor]). }
  destruct Hpts as [Hvalid Hdist].
  assert (Hcp : curve_points curve = points curve).
  { unfold curve, generateIntelligentCurve, generateFallbackCurve,
      curve_points. cbn [points point_count].
    rewrite Nat2Z.id. apply firstn_all. }
  split; [reflexivity|]. split; [reflexivity|]. split; [exact Hcp|].
  split; [exact Hvalid|]. split; [exact Hdist|]. split; [reflexivity|].
  split.
  - unfold curve_generate_lut. cbn [negb orb]. reflexivity.
  - intros size Hsize. rewrite Hcp.
    destruct Hvalid as (Hlen & Hunit & _).
    destruct (distinct_x_spline_is_sound pow (points curve) size
                Hlen Hunit Hdist Hsize) as (_ & _ & Hlut).
    exact Hlut.
Qed.

Lemma fallback_curve_is_sound_but_has_no_resolution_witness :
  let curve :=
    generateIntelligentCurve rgba_pixel_image
      (mkParams (Some 1%Q) (Some 0%Q) (Some 0%Q) false false) in
  curve_generate_lut exact_int_pow initial_state (Some curve) true true =
  (CURVE_SUCCESS, Some ([], 0)) /\
  exists lut,
    generateOptimizedLUT exact_int_pow (curve_points curve) (type curve) 5 =
    Some lut /\
    length lut = Z.to_nat 5 /\ Forall unit_value lut.
Proof.
  intros curve.
  destruct (fallback_curve_is_sound_but_has_no_resolution exact_int_pow
              initial_state rgba_pixel_image
              (mkParams (Some 1%Q) (Some 0%Q) (Some 0%Q) false false))
    as (_ & _ & _ & _ & _ & _ & Hgen & Hlut).
  split; [exact Hgen|]. apply Hlut. lia.
Defined.

(** ** The brightness of an image *)

Section Brightness.
Local Open Scope Q_scope.


End Brightness.



(** X18.  [calculateImageBrightness] returns 0.5 for a null buffer and
    for every format other than RGB8, in every arithmetic; for an RGB8
    image without pixels (width * height = 0) it divides 0 by 0: the
    result is NaN in binary64 and undefined in exact arithmetic. *)
Theorem brightness_without_pixels :
  (forall (D : Type) (ops : DoubleOps D) (fuel : nat)
          (image : FormattedImage),
      image_data image = None \/ image_format image <> FORMAT_RGB8 ->
      calculateImageBrightness fuel image = Some dhalf) /\
  (forall (fuel : nat) (image : FormattedImage) (pixels : list Z),
      image_data image = Some pixels -> image_format image = FORMAT_RGB8 ->
      image_width image * image_height image = 0 ->
      calculateImageBrightness (S fuel) image = Some S754_nan /\
      calculateImageBrightness (S fuel) image = Some (None : exact)).
Proof.
  split.
  - intros D ops fuel image [Hnull|Hformat]; unfold calculateImageBrightness.
    + by rewrite Hnull.
    + destruct (image_data image); [|done].
      by destruct (image_format image).
  - intros fuel image pixels Hdata Hformat Hcount.
    unfold calculateImageBrightness. rewrite Hdata, Hformat, Hcount.
    cbn [brightness_loop]. change (0 * image_channels image) with 0.
    change (0 <? 0) with false. split; reflexivity.
Qed.

Lemma brightness_without_pixels_witness :
  calculateImageBrightness 0%nat (mkFormatted (Some [10; 20; 30; 40]) 1 1 4
                                          FORMAT_RGBA8 4) =
  Some (dhalf : f64) /\
  calculateImageBrightness 1%nat (mkFormatted (Some []) 0 5 3 FORMAT_RGB8 0) =
  Some S754_nan /\
  calculateImageBrightness 1%nat (mkFormatted (Some []) 0 5 3 FORMAT_RGB8 0) =
  Some (None : exact).
Proof.
  split.
  - apply (proj1 brightness_without_pixels f64 b64_ops 0%nat
                 (mkFormatted (Some [10; 20; 30; 40]) 1 1 4 FORMAT_RGBA8 4)).
    right. discriminate.
  - apply (proj2 brightness_without_pixels 0%nat
                 (mkFormatted (Some []) 0 5 3 FORMAT_RGB8 0) []).
    + reflexivity.
    + reflexivity.
    + reflexivity.
Defined.

(** ** The scale schedule of the super resolution *)

Section ScaleSchedule.
Variable Mat : Type.
Variable cv_resize : Mat -> Z -> Mat.
Variable cv_GaussianBlur : Mat -> Mat.
Variable cv_subtract : Mat -> Mat -> Mat.
Variable cv_addWeighted : Mat -> Mat -> Mat.
Local Abbreviation loop := (upscale_loop Mat cv_resize cv_GaussianBlur cv_subtract
                               cv_addWeighted).
Local Abbreviation step := (enhance_step Mat cv_resize cv_GaussianBlur cv_subtract
                               cv_addWeighted).

Lemma upscale_loop_step (fuel : nat) (current : Mat) (c s : Z) :
  loop (S fuel) current c s =
  if c <? s
  then loop fuel (step current (Z.min 2 (Z.quot s c)))
            (c * Z.min 2 (Z.quot s c)) s
  else Some current.
Proof. reflexivity. Qed.

Lemma upscale_loop_stuck (s : Z) (fuel : nat) :
  2 ^ Z.log2 s <> s ->
  forall (current : Mat) (j : nat),
    2 ^ Z.of_nat j < s -> loop fuel current (2 ^ Z.of_nat j) s = None.
Proof.
  intros Hs. induction fuel as [|fuel IH]; intros current j Hj; [done|].
  rewrite upscale_loop_step.
  destruct (Z.ltb_spec (2 ^ Z.of_nat j) s) as [_|]; [|lia].
  assert (Hpos : 0 < 2 ^ Z.of_nat j) by (apply Z.pow_pos_nonneg; lia).
  rewrite Z.quot_div_nonneg by lia.
  assert (Hq : 1 <= s / 2 ^ Z.of_nat j)
    by (apply Z.div_le_lower_bound; lia).
  destruct (Z.le_gt_cases 2 (s / 2 ^ Z.of_nat j)) as [Hge|Hlt].
  - rewrite Z.min_l by lia.
    assert (Hnext : 2 ^ Z.of_nat j * 2 = 2 ^ Z.of_nat (S j)).
    { rewrite Nat2Z.inj_succ, Z.pow_succ_r by lia. lia. }
    rewrite Hnext. apply IH.
    assert (Hle : 2 ^ Z.of_nat j * (s / 2 ^ Z.of_nat j) <= s)
      by (apply Z.mul_div_le; lia).
    assert (2 ^ Z.of_nat (S j) <= s) by nia.
    destruct (Z.eq_dec (2 ^ Z.of_nat (S j)) s) as [Heq|]; [|lia].
    exfalso. apply Hs. rewrite <- Heq at 1.
    rewrite Z.log2_pow2 by lia. exact Heq.
  - rewrite Z.min_r by lia.
    replace (s / 2 ^ Z.of_nat j) with 1 by lia.
    rewrite Z.mul_1_r. by apply IH.
Qed.

Lemma upscale_loop_doubles (k : nat) :
  forall (current : Mat) (j : nat),
    loop (S k) current (2 ^ Z.of_nat j) (2 ^ Z.of_nat (j + k)) =
    Some (Nat.iter k (fun m => step m 2) current).
Proof.
  induction k as [|k IH]; intros current j.
  - rewrite upscale_loop_step. cbn [Nat.iter]. rewrite Nat.add_0_r.
    by rewrite Z.ltb_irrefl.
  - rewrite upscale_loop_step.
    assert (Hpos : 0 < 2 ^ Z.of_nat j) by (apply Z.pow_pos_nonneg; lia).
    assert (Hsplit : 2 ^ Z.of_nat (j + S k) =
                     2 ^ Z.of_nat j * 2 ^ Z.of_nat (S k)).
    { rewrite Nat2Z.inj_add. apply Z.pow_add_r; lia. }
    assert (Hbig : 2 <= 2 ^ Z.of_nat (S k)).
    { rewrite Nat2Z.inj_succ, Z.pow_succ_r by lia.
      assert (0 < 2 ^ Z.of_nat k) by (apply Z.pow_pos_nonneg; lia). lia. }
    destruct (Z.ltb_spec (2 ^ Z.of_nat j) (2 ^ Z.of_nat (j + S k)))
      as [_|Hge]; [|nia].
    rewrite Z.quot_div_nonneg by lia.
    replace (2 ^ Z.of_nat (j + S k) / 2 ^ Z.of_nat j)
      with (2 ^ Z.of_nat (S k))
      by (rewrite Hsplit, Z.mul_comm, Z.div_mul; lia).
    rewrite Z.min_l by lia.
    replace (2 ^ Z.of_nat j * 2) with (2 ^ Z.of_nat (S j)).
    2:{ rewrite Nat2Z.inj_succ, Z.pow_succ_r by lia. lia. }
    replace (j + S k)%nat with (S j + k)%nat by lia.
    rewrite IH. by rewrite Nat.iter_succ_r.
Qed.
End ScaleSchedule.

(** X19.  [SuperResolutionModel::upscale] with a scale factor above 1
    that is no power of two (3, 5, 6, 7, ...) does not return: once the
    doubled scale exceeds half the factor the next step is
    [min(2, 1) = 1] and the scale stays below the factor for ever.  No
    amount of fuel gives a result. *)
Theorem upscale_never_returns_unless_power_of_two :
  forall (Mat : Type) (cv_resize : Mat -> Z -> Mat)
         (cv_GaussianBlur : Mat -> Mat) (cv_subtract : Mat -> Mat -> Mat)
         (cv_addWeighted : Mat -> Mat -> Mat)
         (fuel : nat) (image : Mat) (scale_factor : Z),
    1 < scale_factor -> 2 ^ Z.log2 scale_factor <> scale_factor ->
    upscale Mat cv_resize cv_GaussianBlur cv_subtract cv_addWeighted
            fuel image scale_factor = None.
Proof.
  intros Mat rs gb sb aw fuel image s Hs Hpow.
  unfold upscale, ApplySuperResolutionCPU.
  by apply (upscale_loop_stuck Mat rs gb sb aw s fuel Hpow image 0).
Qed.

Lemma upscale_never_returns_unless_power_of_two_witness :
  upscale Z (fun m f => m * f) (fun m => m) Z.sub Z.add 100 1 3 = None.
Proof.
  apply (upscale_never_returns_unless_power_of_two Z (fun m f => m * f)
           (fun m => m) Z.sub Z.add 100 1 3).
  - lia.
  - discriminate.
Defined.

(** X20.  [SuperResolutionModel::upscale] by 2^k returns, after k rounds,
    the image enhanced k times with the step factor 2; with a scale factor
    of at most 1 it returns the image as it is. *)
Theorem upscale_by_power_of_two_doubles :
  forall (Mat : Type) (cv_resize : Mat -> Z -> Mat)
         (cv_GaussianBlur : Mat -> Mat) (cv_subtract : Mat -> Mat -> Mat)
         (cv_addWeighted : Mat -> Mat -> Mat)
         (image : Mat),
    (forall (k fuel : nat),
        (k < fuel)%nat ->
        upscale Mat cv_resize cv_GaussianBlur cv_subtract cv_addWeighted
                fuel image (2 ^ Z.of_nat k) =
        Some (Nat.iter k
                (fun m => enhance_step Mat cv_resize cv_GaussianBlur
                                       cv_subtract cv_addWeighted m 2)
                image)) /\
    (forall (scale_factor : Z) (fuel : nat),
        scale_factor <= 1 ->
        upscale Mat cv_resize cv_GaussianBlur cv_subtract cv_addWeighted
                (S fuel) image scale_factor = Some image).
Proof.
  intros Mat rs gb sb aw image. split.
  - intros k fuel Hk. unfold upscale, ApplySuperResolutionCPU.
    pose proof (upscale_loop_doubles Mat rs gb sb aw k image 0) as Hloop.
    cbn [Nat.add] in Hloop. change (2 ^ Z.of_nat 0) with 1 in Hloop.
    revert Hloop. generalize (2 ^ Z.of_nat k). intros s Hloop.
    (* more fuel gives the same result *)
    assert (Hmore : forall f g cur c r,
              upscale_loop Mat rs gb sb aw f cur c s = Some r ->
              (f <= g)%nat ->
              upscale_loop Mat rs gb sb aw g cur c s = Some r).
    { induction f as [|f IHf]; intros g cur c r Hr Hg; [done|].
      destruct g as [|g]; [lia|]. cbn [upscale_loop] in Hr |- *.
      destruct (c <? s); [|exact Hr]. apply IHf; [exact Hr|lia]. }
    apply (Hmore (S k)); [exact Hloop|lia].
  - intros s fuel Hs. unfold upscale, ApplySuperResolutionCPU.
    cbn [upscale_loop]. destruct (Z.ltb_spec 1 s); [lia|done].
Qed.

Lemma upscale_by_power_of_two_doubles_witness :
  upscale Z (fun m f => m * f) (fun m => m) Z.sub Z.add 3 1 (2 ^ Z.of_nat 2) =
  Some (Nat.iter 2
          (fun m => enhance_step Z (fun m f => m * f) (fun m => m) Z.sub
                                 Z.add m 2) 1) /\
  upscale Z (fun m f => m * f) (fun m => m) Z.sub Z.add 1 1 0 = Some 1.
Proof.
  split.
  - apply (proj1 (upscale_by_power_of_two_doubles Z (fun m f => m * f)
                    (fun m => m) Z.sub Z.add 1) 2%nat 3%nat).
    lia.
  - apply (proj2 (upscale_by_power_of_two_doubles Z (fun m f => m * f)
                    (fun m => m) Z.sub Z.add 1) 0 0%nat).
    lia.
Defined.
